(** * Textual renamers of the [dot] repository

    A shallow embedding of the two scripts [fix_renderer.py] (Renamer A) and
    [update_imports.py] (Renamer B), together with the Python text operations
    they rely on ([str.replace], the [in] operator on strings, and
    [re.sub] with the pattern [\bdot\.]) and a small model of the file
    system the scripts run against. *)

From Stdlib Require Import String Ascii DecimalString.
From Stdlib Require Import List Bool Arith NArith Lia.
Import ListNotations.

Local Set Warnings "-register-all".


(** ** Text

    A Python [str] is a sequence of Unicode code points.  A code point is a
    number; string constants of the scripts are written with [lit]. *)

Definition char := N.
Definition str := list char.

Definition lit (s : string) : str :=
  map N_of_ascii (list_ascii_of_string s).

Definition dquote : char := 34%N.
Definition newline : char := 10%N.
Definition tab : char := 9%N.
Definition cr : char := 13%N.

(** [quoted s] is the text [s] between two double quotes. *)
Definition quoted (s : str) : str := dquote :: s ++ [dquote].

(** [p] is a prefix of [s] ([s.startswith(p)]). *)
Fixpoint is_prefix (p s : str) : bool :=
  match p, s with
  | [], _ => true
  | _ :: _, [] => false
  | a :: p', b :: s' => N.eqb a b && is_prefix p' s'
  end.

(** [a == b] on Python strings. *)
Definition str_eqb (a b : str) : bool :=
  Nat.eqb (length a) (length b) && is_prefix a b.

(** [p in s] on Python strings. *)
Fixpoint contains (p s : str) : bool :=
  is_prefix p s ||
  match s with
  | [] => false
  | _ :: s' => contains p s'
  end.

(** Number of positions of [s] at which [p] occurs. *)
Fixpoint occurrences (p s : str) : nat :=
  match s with
  | [] => 0
  | _ :: s' => (if is_prefix p s then 1 else 0) + occurrences p s'
  end.

(** The character before a position, after reading [a] from a position
    whose previous character was [prev]. *)
Fixpoint last_seen (prev : option char) (a : str) : option char :=
  match a with
  | [] => prev
  | c :: a' => last_seen (Some c) a'
  end.

(** *** Left-to-right substitution

    [str.replace(old, new)] and [re.sub] with a literal behind a
    zero-width assertion both scan the text from the left, replace the
    leftmost occurrence that is accepted, and resume right after it.  The
    assertion sees the character before the candidate ([None] at the start
    of the text) and the candidate's first character.  [skip] counts the
    characters of a replaced occurrence that are still to be dropped. *)

Section Scan.

Variable guard : option char -> char -> bool.
Variables old new : str.

Definition hit (prev : option char) (s : str) : bool :=
  match s with
  | [] => false
  | c :: _ => guard prev c && is_prefix old s
  end.

Fixpoint scan_from (prev : option char) (skip : nat) (s : str) : str :=
  match s with
  | [] => []
  | c :: s' =>
      match skip with
      | S k => scan_from (Some c) k s'
      | O =>
          if hit prev s
          then new ++ scan_from (Some c) (length old - 1) s'
          else c :: scan_from (Some c) 0 s'
      end
  end.

Definition scan (prev : option char) (s : str) : str := scan_from prev 0 s.

(** Some accepted occurrence starts in [s]. *)
Fixpoint has_hit (prev : option char) (s : str) : bool :=
  match s with
  | [] => false
  | c :: s' => hit prev s || has_hit (Some c) s'
  end.

End Scan.

(** [s.replace(old, new)]: every occurrence is accepted.  With an empty
    [old] Python puts [new] before every character and at the end. *)
Definition always : option char -> char -> bool := fun _ _ => true.

Definition replace (old new s : str) : str :=
  match old with
  | [] => new ++ flat_map (fun c => c :: new) s
  | _ :: _ => scan always old new None s
  end.

(** *** Word characters and [\b]

    [\w] of Python's [re] on [str] patterns is "alphanumeric or
    underscore".  Below 128 that is [[A-Za-z0-9_]]; above, it is the
    alphanumeric property of the Unicode database, which is taken as a
    table [unicode_alnum]. *)

Definition ascii_alnum (c : char) : bool :=
  ((48 <=? c) && (c <=? 57) || (65 <=? c) && (c <=? 90)
   || (97 <=? c) && (c <=? 122))%N.

Section Regex.

Variable unicode_alnum : char -> bool.

Definition is_word (c : char) : bool :=
  if (c <? 128)%N then ascii_alnum c || N.eqb c 95
  else unicode_alnum c.

Definition is_word_opt (o : option char) : bool :=
  match o with
  | None => false
  | Some c => is_word c
  end.

(** [\b] between the character [prev] and the character [c]: exactly one
    of the two sides is a word character. *)
Definition word_boundary (prev : option char) (c : char) : bool :=
  xorb (is_word_opt prev) (is_word c).

(** [re.sub(r'\b' + re.escape(old), new, s)] for a non-empty literal
    [old] and a replacement [new] without backslashes. *)
Definition re_sub_wb (old new s : str) : str :=
  scan word_boundary old new None s.

End Regex.

(** *** Overlap of two texts

    Decidable side conditions of the substitution lemmas: whether an
    occurrence of [r] can start inside an occurrence of [p]. *)

(** The non-empty suffixes of a text, longest first. *)
Fixpoint suffixes (s : str) : list str :=
  match s with
  | [] => []
  | _ :: s' => s :: suffixes s'
  end.

Definition comparable (a b : str) : bool := is_prefix a b || is_prefix b a.

Definition overlaps (p r : str) : bool :=
  existsb (fun p' => comparable p' r) (suffixes p).

(** No occurrence of [p] shares a character with an occurrence of [r]. *)
Definition apart (p r : str) : bool :=
  negb (overlaps p r) && negb (overlaps r p).

(** [Replaced ok old new prev s t]: [t] is [s] with some occurrences of
    [old] exchanged for [new] and every other character kept; every
    exchanged occurrence is one that [ok] accepts after the character
    before it ([prev] for the first character of [s]). *)
Inductive Replaced (ok : option char -> char -> bool) (old new : str)
  : option char -> str -> str -> Prop :=
| Replaced_nil : forall prev, Replaced ok old new prev [] []
| Replaced_hit : forall prev r r',
    hit ok old prev (old ++ r) = true ->
    Replaced ok old new (last_seen prev old) r r' ->
    Replaced ok old new prev (old ++ r) (new ++ r')
| Replaced_keep : forall prev c r r',
    Replaced ok old new (Some c) r r' ->
    Replaced ok old new prev (c :: r) (c :: r').

(** ** File system

    A tree of directories and regular files.  A regular file carries its
    text and the time of its last write; it is a file that can be opened,
    decoded and written.  Paths are lists of components from the top of
    the tree.  In the tree every file has one name; names that are links
    to a file are added in the section on links below. *)

Definition path := list string.

Record file := mkFile { f_content : str; f_mtime : nat }.

Inductive node :=
| File (f : file)
| Dir (entries : list (string * node)).

Fixpoint assoc (x : string) (es : list (string * node)) : option node :=
  match es with
  | [] => None
  | (y, n) :: es' => if String.eqb x y then Some n else assoc x es'
  end.

Fixpoint set_assoc (x : string) (n : node) (es : list (string * node))
  : list (string * node) :=
  match es with
  | [] => []
  | (y, m) :: es' =>
      if String.eqb x y then (y, n) :: es' else (y, m) :: set_assoc x n es'
  end.

Fixpoint lookup (p : path) (n : node) : option node :=
  match p with
  | [] => Some n
  | x :: p' =>
      match n with
      | File _ => None
      | Dir es =>
          match assoc x es with
          | Some n' => lookup p' n'
          | None => None
          end
      end
  end.

(** The regular file at [p], if there is one. *)
Definition file_at (p : path) (n : node) : option file :=
  match lookup p n with
  | Some (File f) => Some f
  | _ => None
  end.

(** Store [f] at [p]: an existing regular file is overwritten, a missing
    name in an existing directory is created; [None] when [p] is a
    directory or its parent is not one. *)
Fixpoint put (p : path) (f : file) (n : node) : option node :=
  match p, n with
  | [], File _ => Some (File f)
  | [], Dir _ => None
  | _ :: _, File _ => None
  | x :: p', Dir es =>
      match assoc x es with
      | Some n' =>
          match put p' f n' with
          | Some n'' => Some (Dir (set_assoc x n'' es))
          | None => None
          end
      | None =>
          match p' with
          | [] => Some (Dir (es ++ [(x, File f)]))
          | _ :: _ => None
          end
      end
  end.

(** [name] ends with [ext]: the [fnmatch] pattern [*ext]. *)
Definition ends_with (ext name : string) : bool :=
  let n := String.length name in
  let k := String.length ext in
  (k <=? n) && String.eqb (substring (n - k) k name) ext.

Definition is_dir (n : node) : bool :=
  match n with
  | Dir _ => true
  | File _ => false
  end.

(** [Path.rglob('*' + ext)] below the directory [n] whose path is [here]:
    the entries of [n] whose name matches, then the same for every
    sub-directory, in listing order.  Nothing for a regular file. *)
Fixpoint rglob (ext : string) (here : path) (n : node) : list path :=
  match n with
  | File _ => []
  | Dir es =>
      map (fun e => here ++ [fst e])
          (filter (fun e => ends_with ext (fst e)) es)
      ++ flat_map (fun e => rglob ext (here ++ [fst e]) (snd e)) es
  end.

(** The tree without the texts and time stamps of its files: what
    [exists], [is_dir] and directory listings can see. *)
Fixpoint shape (n : node) : node :=
  match n with
  | File _ => File (mkFile [] 0)
  | Dir es => Dir (map (fun e => (fst e, shape (snd e))) es)
  end.

Definition is_file_at (p : path) (n : node) : bool :=
  match file_at p n with
  | Some _ => true
  | None => false
  end.

(** Text-mode reading turns every line ending into a single line feed. *)
Fixpoint universal_newlines (s : str) : str :=
  match s with
  | [] => []
  | c :: s' =>
      if N.eqb c cr then
        match s' with
        | d :: s'' =>
            if N.eqb d newline then newline :: universal_newlines s''
            else newline :: universal_newlines s'
        | [] => [newline]
        end
      else c :: universal_newlines s'
  end.

(** *** Paths as [pathlib] writes them *)

Definition slash : ascii := "/"%char.

Fixpoint parts (s : string) : list string :=
  match s with
  | EmptyString => [EmptyString]
  | String c r =>
      if Ascii.eqb c slash then EmptyString :: parts r
      else match parts r with
           | h :: t => String c h :: t
           | [] => [String c EmptyString]
           end
  end.

(** [Path(s)]: the components of [s]; empty components are dropped. *)
Definition Path (s : string) : path :=
  filter (fun x => negb (String.eqb x EmptyString)) (parts s).

(** [p / q] for a relative [q]. *)
Definition joinpath (p q : path) : path := p ++ q.

(** [str(p)] for a relative path. *)
Definition path_str (p : path) : string := String.concat "/" p.

Fixpoint strip_prefix (r p : path) : option path :=
  match r, p with
  | [], _ => Some p
  | _ :: _, [] => None
  | a :: r', b :: p' => if String.eqb a b then strip_prefix r' p' else None
  end.

(** ** The scripts' effects

    A script runs against a [world]: the file tree, a clock that stamps
    writes, the log of the files opened, and the lines printed.  A
    computation returns a value or raises; the world reached is kept in
    both cases. *)

Inductive event :=
| EvRead (p : path)
| EvWrite (p : path).

Definition event_path (e : event) : path :=
  match e with
  | EvRead p => p
  | EvWrite p => p
  end.

Record world := mkWorld {
  w_fs : node;
  w_clock : nat;
  w_log : list event;
  w_out : list string
}.

Inductive exn :=
| OSError (p : path)
| ValueError.

Inductive result (A : Type) :=
| Ok (a : A)
| Raise (e : exn).

Arguments Ok {A} a.
Arguments Raise {A} e.

Definition M (A : Type) : Type := world -> result A * world.

Definition ret {A} (a : A) : M A := fun w => (Ok a, w).

Definition bind {A B} (m : M A) (k : A -> M B) : M B :=
  fun w =>
    match m w with
    | (Ok a, w') => k a w'
    | (Raise e, w') => (Raise e, w')
    end.

Definition raise {A} (e : exn) : M A := fun w => (Raise e, w).

Declare Scope io_scope.
Delimit Scope io_scope with io.
Notation "x <- m ;; k" := (bind m (fun x => k))
  (at level 61, m at next level, right associativity) : io_scope.
Notation "m ;;; k" := (bind m (fun _ => k))
  (at level 61, right associativity) : io_scope.
Open Scope io_scope.

(** [for x in l: body(x)] *)
Fixpoint for_each {A} (l : list A) (body : A -> M unit) : M unit :=
  match l with
  | [] => ret tt
  | x :: l' => body x ;;; for_each l' body
  end.

(** A loop that updates a local variable [b]. *)
Fixpoint foldM {A B} (body : B -> A -> M B) (l : list A) (b : B) : M B :=
  match l with
  | [] => ret b
  | x :: l' => b' <- body b x ;; foldM body l' b'
  end.

(** [p.exists()] *)
Definition path_exists (p : path) : M bool :=
  fun w =>
    (Ok (match lookup p (w_fs w) with Some _ => true | None => false end), w).

(** [with open(p, 'r') as f: f.read()]; the one failure kept is that of
    opening a name that is not a regular file. *)
Definition read_text (p : path) : M str :=
  fun w =>
    match file_at p (w_fs w) with
    | Some f =>
        (Ok (universal_newlines (f_content f)),
         mkWorld (w_fs w) (w_clock w) (w_log w ++ [EvRead p]) (w_out w))
    | None => (Raise (OSError p), w)
    end.

(** [with open(p, 'w') as f: f.write(c)]; line feeds are written as they
    are (POSIX).  The one failure kept is that of opening a directory, or
    a name whose parent is not a directory. *)
Definition write_text (p : path) (c : str) : M unit :=
  fun w =>
    match put p (mkFile c (w_clock w)) (w_fs w) with
    | Some fs' =>
        (Ok tt,
         mkWorld fs' (S (w_clock w)) (w_log w ++ [EvWrite p]) (w_out w))
    | None => (Raise (OSError p), w)
    end.

(** [list(p.rglob('*' + ext))]; the scripts never change the shape of the
    tree while they iterate, so listing first is the same as listing
    lazily. *)
Definition rglob_at (p : path) (ext : string) : M (list path) :=
  fun w =>
    (Ok (match lookup p (w_fs w) with
         | Some n => rglob ext p n
         | None => []
         end), w).

(** [p.relative_to(r)] *)
Definition relative_to (p r : path) : M path :=
  match strip_prefix r p with
  | Some q => ret q
  | None => raise ValueError
  end.

Definition print (s : string) : M unit :=
  fun w => (Ok tt, mkWorld (w_fs w) (w_clock w) (w_log w) (w_out w ++ [s])).

(** Decimal rendering of a length. *)
Definition dec (n : nat) : string :=
  NilEmpty.string_of_uint (Nat.to_uint n).

(** *** What a run did

    Statements about a run compare the world before and after it. *)

(** The text a script reads from a regular file. *)
Definition file_text (f : file) : str := universal_newlines (f_content f).

(** Between [w] and [w'] only regular files accepted by [scope] were
    opened, and every other regular file is as it was. *)
Definition only_touches (scope : path -> bool) (w w' : world) : Prop :=
  (exists evs, w_log w' = w_log w ++ evs
               /\ Forall (fun e => scope (event_path e) = true) evs)
  /\ forall q, scope q = false ->
               file_at q (w_fs w') = file_at q (w_fs w).

(** Between [w] and [w'] the regular file at [p] was not written: its
    text and its time stamp are the same. *)
Definition untouched (p : path) (w w' : world) : Prop :=
  file_at p (w_fs w') = file_at p (w_fs w)
  /\ exists evs, w_log w' = w_log w ++ evs /\ ~ In (EvWrite p) evs.

(** The same names exist in both worlds. *)
Definition same_names (w w' : world) : Prop :=
  forall q, lookup q (w_fs w') = None <-> lookup q (w_fs w) = None.

(** ** Renamer A: [fix_renderer.py] *)

Module FixRenderer.

Definition files : list string :=
  [ "internal/cli/renderer/json.go";
    "internal/cli/renderer/table.go";
    "internal/cli/renderer/text.go";
    "internal/cli/renderer/yaml.go";
    "internal/cli/renderer/text_test.go";
    "internal/cli/renderer/renderer_test.go" ]%string.

Definition root : path := Path "/Volumes/Development/dot".

Definition domain_marker : str := lit "internal/domain".
Definition dot_marker : str := lit "pkg/dot".
Definition domain_import : str :=
  quoted (lit "github.com/jamesainslie/dot/internal/domain").
Definition dot_import : str :=
  quoted (lit "github.com/jamesainslie/dot/pkg/dot").

(** Lines 27-32: add the [pkg/dot] import after the [domain] import. *)
Definition add_import (content : str) : str :=
  if contains domain_marker content && negb (contains dot_marker content)
  then replace domain_import
               (domain_import ++ [newline; tab] ++ dot_import) content
  else content.

(** Lines 34-37: the two identifier replacements. *)
Definition rename_idents (content : str) : str :=
  let content := replace (lit "domain.Status") (lit "dot.Status") content in
  replace (lit "domain.PackageInfo") (lit "dot.PackageInfo") content.

(** What one iteration does to the text it read. *)
Definition fix_content (content : str) : str :=
  rename_idents (add_import content).

(** The body of [for filepath in files]. *)
Definition fix_file (filepath : string) : M unit :=
  let full_path := joinpath root (Path filepath) in
  e <- path_exists full_path ;;
  if negb e then ret tt
  else
    content <- read_text full_path ;;
    write_text full_path (fix_content content).

Definition script_on (fl : list string) : M unit :=
  for_each fl fix_file ;;;
  print "Fixed renderer files".

Definition script : M unit := script_on files.

End FixRenderer.

(** ** Renamer B: [update_imports.py] *)

Module UpdateImports.

Definition old_import : str :=
  quoted (lit "github.com/jamesainslie/dot/pkg/dot").
Definition new_import : str :=
  quoted (lit "github.com/jamesainslie/dot/internal/domain").
Definition new_marker : str :=
  lit "github.com/jamesainslie/dot/internal/domain".

(** Two old import strings that share a double quote. *)
Definition chained_import : str := old_import ++ tl old_import.

Definition root : path := Path "/Volumes/Development/dot".
Definition internal_dir : path := joinpath root (Path "internal").

Definition packages : list string :=
  [ "executor"; "pipeline"; "scanner"; "planner"; "manifest"; "config";
    "adapters"; "ignore"; "cli" ]%string.

(** The paths a run over the packages [pkgs] may open: names matching
    [*.go] below [internal/<package>]. *)
Definition in_scope_of (pkgs : list string) (p : path) : bool :=
  match strip_prefix internal_dir p with
  | Some (pkg :: rest) =>
      existsb (String.eqb pkg) pkgs
      && match rest with
         | [] => false
         | _ :: _ => ends_with ".go" (last rest EmptyString)
         end
  | _ => false
  end.

Definition in_scope : path -> bool := in_scope_of packages.

(** Every name that [rglob] lists below the packages [pkgs] is a regular
    file (none is a directory called [x.go]). *)
Definition listed_regular (pkgs : list string) (fs : node) : bool :=
  forallb
    (fun pkg =>
       match lookup (joinpath internal_dir [pkg]) fs with
       | Some n =>
           forallb (fun x => is_file_at x fs)
                   (rglob ".go" (joinpath internal_dir [pkg]) n)
       | None => true
       end) pkgs.

(** The lines [main] prints for the list [l] of updated files. *)
Definition report (l : list path) : list string :=
  ("Updated " ++ dec (length l) ++ " files:")%string
  :: map (fun f => ("  - " ++ path_str f)%string) l.

Section WithUnicode.

Variable unicode_alnum : char -> bool.

(** Line 16-19: the import statement. *)
Definition replace_import (content : str) : str :=
  replace old_import new_import content.

(** Line 26: [re.sub(r'\bdot\.', 'domain.', content)]. *)
Definition rewrite_idents (content : str) : str :=
  re_sub_wb unicode_alnum (lit "dot.") (lit "domain.") content.

(** Lines 13-26 of [update_imports_in_file]: the text written back. *)
Definition update_content (original : str) : str :=
  let content := replace_import original in
  if contains new_marker content then rewrite_idents content
  else content.

Definition update_imports_in_file (filepath : path) : M bool :=
  original <- read_text filepath ;;
  let content := update_content original in
  if negb (str_eqb content original)
  then write_text filepath content ;;; ret true
  else ret false.

(** The body of [for gofile in package_dir.rglob('*.go')]. *)
Definition visit (updated_files : list path) (gofile : path)
  : M (list path) :=
  changed <- update_imports_in_file gofile ;;
  if changed
  then rel <- relative_to gofile root ;; ret (updated_files ++ [rel])
  else ret updated_files.

(** The body of [for package in packages]. *)
Definition visit_package (updated_files : list path) (package : string)
  : M (list path) :=
  let package_dir := joinpath internal_dir [package] in
  e <- path_exists package_dir ;;
  if negb e then ret updated_files
  else
    gofiles <- rglob_at package_dir ".go" ;;
    foldM visit gofiles updated_files.

(** [main] over a list of packages.  [updated_files] keeps the relative
    paths and [path_str] renders them when they are printed; the list
    is returned so that statements can name it. *)
Definition main_on (pkgs : list string) : M (list path) :=
  updated_files <- foldM visit_package pkgs [] ;;
  print ("Updated " ++ dec (length updated_files) ++ " files:")%string ;;;
  for_each updated_files (fun f => print ("  - " ++ path_str f)%string) ;;;
  ret updated_files.

Definition main : M (list path) := main_on packages.

End WithUnicode.

End UpdateImports.

(** ** Sample texts and worlds *)

Module Examples.

(** A table for texts in which every character is below 128. *)
Definition no_unicode : char -> bool := fun _ => false.

Definition blank_line : str := [newline; newline].



(** The same example with the import paths of the script. *)
Definition full_in : str :=
  lit "import " ++ UpdateImports.old_import ++ blank_line
  ++ lit "func f() { return dot.Status{} }".

Definition full_out : str :=
  lit "import " ++ UpdateImports.new_import ++ blank_line
  ++ lit "func f() { return domain.Status{} }".

(** A file that already imports [internal/domain]. *)
Definition migrated : str :=
  lit "import " ++ UpdateImports.new_import ++ [newline]
  ++ lit "var s dot.Status".

(** A file with both imports and a comment that names [pkg/dot]. *)
Definition both_imports : str :=
  lit "import (" ++ [newline; tab] ++ FixRenderer.domain_import
  ++ [newline; tab] ++ FixRenderer.dot_import ++ [newline]
  ++ lit ")" ++ [newline] ++ lit "// Status comes from pkg/dot"
  ++ [newline] ++ lit "var s domain.Status".

(** A file that names [internal/domain] only in a comment. *)
Definition comment_only : str :=
  lit "// moved to internal/domain" ++ [newline]
  ++ lit "var s domain.Status".

Definition plain : str := lit "package cli".

Definition dir_at (p : path) (n : node) : node :=
  fold_right (fun x m => Dir [(x, m)]) n p.

(** A project with [internal/cli/a.go], [internal/cli/b.go], the
    renderer's [json.go] and [internal/domain/d.go]. *)
Definition project (a b j d : str) : node :=
  dir_at UpdateImports.root
    (Dir [("internal",
           Dir [("cli",
                 Dir [("a.go", File (mkFile a 0));
                      ("b.go", File (mkFile b 0));
                      ("renderer",
                       Dir [("json.go", File (mkFile j 0))])]);
                ("domain", Dir [("d.go", File (mkFile d 0))])])])%string.

Definition world_of (n : node) : world := mkWorld n 1 [] [].

Definition a_go : path := Path "/Volumes/Development/dot/internal/cli/a.go".
Definition b_go : path := Path "/Volumes/Development/dot/internal/cli/b.go".

End Examples.

(** ** Further notions for statements about whole runs *)

(** The paths written, in order, among the events [evs]. *)
Definition written (evs : list event) : list path :=
  flat_map (fun e => match e with EvWrite p => [p] | EvRead _ => [] end) evs.

(** The regular files of a tree. *)
Fixpoint all_files (n : node) : list file :=
  match n with
  | File f => [f]
  | Dir es => flat_map (fun e => all_files (snd e)) es
  end.

Definition path_eqb (a b : path) : bool :=
  if list_eq_dec string_dec a b then true else false.

(** [re.search(r'\bdot\.', s) is not None] *)
Definition has_word_dot (unicode_alnum : char -> bool) (s : str) : bool :=
  has_hit (word_boundary unicode_alnum) (lit "dot.") None s.

(** The text [t] holds the old import string, or the new import path
    together with a [dot.] at a word boundary. *)
Definition needs_update (unicode_alnum : char -> bool) (t : str) : bool :=
  contains UpdateImports.old_import t
  || (contains UpdateImports.new_marker t && has_word_dot unicode_alnum t).

(** The full path of an entry of Renamer A's list. *)
Definition entry_path (filepath : string) : path :=
  joinpath FixRenderer.root (Path filepath).

Definition is_entry (fl : list string) (q : path) : bool :=
  existsb (path_eqb q) (map entry_path fl).

(** No entry of the list [fl] is a directory. *)
Definition entries_regular (fl : list string) (fs : node) : bool :=
  forallb (fun fp =>
             match lookup (entry_path fp) fs with
             | Some n => negb (is_dir n)
             | None => true
             end) fl.

(** ** Links

    A name can be a link to a regular file that is kept under another
    name: a symbolic link, or a further hard link.  The table [links]
    gives, for each such name, the path it leads to.  The tree keeps an
    entry at the name of a link, as a directory listing shows it, but
    [open] and [exists] never use what that entry holds: they follow the
    table to the file reached.  Links to directories are not modelled;
    [rglob] does not descend into them. *)

Definition links := list (path * path).

Fixpoint target_of (ls : links) (p : path) : option path :=
  match ls with
  | [] => None
  | (a, t) :: ls' => if path_eqb a p then Some t else target_of ls' p
  end.

(** The path that [open(p)] reaches after at most [fuel] links; [None]
    when there are more levels of links. *)
Fixpoint resolve_from (fuel : nat) (ls : links) (p : path) : option path :=
  match target_of ls p with
  | None => Some p
  | Some t =>
      match fuel with
      | O => None
      | S k => resolve_from k ls t
      end
  end.

Definition resolve (ls : links) (p : path) : option path :=
  resolve_from (length ls) ls p.

(** The regular file that [open(p)] reaches. *)
Definition reached (ls : links) (p : path) (fs : node) : option file :=
  match resolve ls p with
  | Some q => file_at q fs
  | None => None
  end.

(** No link joins a name accepted by [scope] with a name that is not. *)
Definition links_within (scope : path -> bool) (ls : links) : bool :=
  forallb (fun e => Bool.eqb (scope (fst e)) (scope (snd e))) ls.

(** *** Renamer B over a tree with links *)

Module LinkedUpdateImports.

Import UpdateImports.

Section WithLinks.

Variable unicode_alnum : char -> bool.
Variable ls : links.

(** Both [open(filepath, ...)] of [update_imports_in_file] follow the
    links of [filepath]: the function works on the file it reaches. *)
Definition update_imports_in_file (filepath : path) : M bool :=
  match resolve ls filepath with
  | Some q => UpdateImports.update_imports_in_file unicode_alnum q
  | None => raise (OSError filepath)
  end.

(** The loop body; the path reported is the one [rglob] listed. *)
Definition visit (updated_files : list path) (gofile : path)
  : M (list path) :=
  changed <- update_imports_in_file gofile ;;
  if changed
  then rel <- relative_to gofile root ;; ret (updated_files ++ [rel])
  else ret updated_files.

Definition visit_package (updated_files : list path) (package : string)
  : M (list path) :=
  let package_dir := joinpath internal_dir [package] in
  e <- path_exists package_dir ;;
  if negb e then ret updated_files
  else
    gofiles <- rglob_at package_dir ".go" ;;
    foldM visit gofiles updated_files.

Definition main_on (pkgs : list string) : M (list path) :=
  updated_files <- foldM visit_package pkgs [] ;;
  print ("Updated " ++ dec (length updated_files) ++ " files:")%string ;;;
  for_each updated_files (fun f => print ("  - " ++ path_str f)%string) ;;;
  ret updated_files.

Definition main : M (list path) := main_on packages.

End WithLinks.

End LinkedUpdateImports.

(** *** Renamer A over a tree with links *)

Module LinkedFixRenderer.

Import FixRenderer.

(** Lines 20-40 for a path that is not a link. *)
Definition fix_path (full_path : path) : M unit :=
  e <- path_exists full_path ;;
  if negb e then ret tt
  else
    content <- read_text full_path ;;
    write_text full_path (fix_content content).

Section WithLinks.

Variable ls : links.

(** [exists] and both [open] follow the links of [full_path]; [exists]
    is [False] when they do not end. *)
Definition fix_file (filepath : string) : M unit :=
  let full_path := joinpath root (Path filepath) in
  match resolve ls full_path with
  | Some q => fix_path q
  | None => ret tt
  end.

Definition script_on (fl : list string) : M unit :=
  for_each fl fix_file ;;;
  print "Fixed renderer files".

Definition script : M unit := script_on files.

End WithLinks.

End LinkedFixRenderer.

Module MoreExamples.

Import Examples.

(** A project whose package [cli] holds a directory called [gen.go]. *)
Definition with_go_directory : node :=
  dir_at UpdateImports.root
    (Dir [("internal",
           Dir [("cli",
                 Dir [("a.go", File (mkFile full_in 0));
                      ("gen.go", Dir [("x.txt", File (mkFile plain 0))])])])])
    %string.

(** A project whose renderer entry [json.go] is a directory. *)
Definition with_entry_directory : node :=
  dir_at FixRenderer.root
    (Dir [("internal",
           Dir [("cli",
                 Dir [("renderer",
                       Dir [("json.go", Dir []);
                            ("table.go", File (mkFile plain 0))])])])])
    %string.

(** A renderer file that imports [internal/domain] only. *)
Definition domain_only : str :=
  lit "import (" ++ [newline; tab] ++ FixRenderer.domain_import
  ++ [newline] ++ lit ")" ++ [newline] ++ lit "var s domain.Status".

(** A text with a carriage return before its line feed. *)
Definition crlf_text : str :=
  lit "package cli" ++ [cr; newline] ++ lit "var s domain.Status".

Definition json_go : path :=
  Path "/Volumes/Development/dot/internal/cli/renderer/json.go".

Definition d_go : path :=
  Path "/Volumes/Development/dot/internal/domain/d.go".

(** [internal/cli/a.go] is a link to [internal/domain/d.go]. *)
Definition a_to_d : links := [(a_go, d_go)].

(** [internal/cli/renderer/json.go] is a link to [internal/domain/d.go]. *)
Definition json_to_d : links := [(json_go, d_go)].

(** [internal/cli/b.go] is a link to [internal/cli/a.go]. *)
Definition b_to_a : links := [(b_go, a_go)].

End MoreExamples.

(** * Properties *)

(** ** Prefixes, occurrences and suffixes *)

Lemma is_prefix_app (p x : str) : is_prefix p (p ++ x) = true.
Proof.
  induction p as [|a p IH]; simpl; [reflexivity|].
  now rewrite N.eqb_refl, IH.
Qed.

Lemma is_prefix_inv (p s : str) :
  is_prefix p s = true -> exists x, s = p ++ x.
Proof.
  revert s; induction p as [|a p IH]; intros s H.
  - now exists s.
  - destruct s as [|b s]; simpl in H; [discriminate|].
    apply andb_true_iff in H as [Hab Hp].
    apply N.eqb_eq in Hab; subst b.
    destruct (IH _ Hp) as [x ->]. now exists x.
Qed.

Lemma is_prefix_mono (p s x : str) :
  is_prefix p s = true -> is_prefix p (s ++ x) = true.
Proof.
  intros H. destruct (is_prefix_inv _ _ H) as [y ->].
  rewrite <- app_assoc. apply is_prefix_app.
Qed.

Lemma comparable_sym (a b : str) : comparable a b = comparable b a.
Proof. unfold comparable. apply orb_comm. Qed.

Lemma is_prefix_app_comparable (a b x : str) :
  is_prefix a (b ++ x) = true -> comparable a b = true.
Proof.
  unfold comparable. revert b; induction a as [|c a IH]; intros b H.
  - reflexivity.
  - destruct b as [|d b]; [reflexivity|]. simpl in *.
    apply andb_true_iff in H as [Hcd Ha].
    apply N.eqb_eq in Hcd; subst d. rewrite N.eqb_refl. simpl.
    now apply IH.
Qed.

Lemma suffixes_nonempty (s a : str) : In a (suffixes s) -> a <> [].
Proof.
  induction s as [|c s IH]; simpl; [tauto|].
  intros [<-|H]; [discriminate|auto].
Qed.

Lemma suffixes_self (s : str) : s <> [] -> In s (suffixes s).
Proof. destruct s; [congruence|]. intros _. now left. Qed.

Lemma suffixes_tail (c : char) (t s : str) :
  In (c :: t) (suffixes s) -> t = [] \/ In t (suffixes s).
Proof.
  induction s as [|a s IH]; simpl; [tauto|].
  intros [E|H].
  - injection E as _ ->. destruct t; [now left|]. right; right. now left.
  - destruct (IH H); auto.
Qed.

Lemma suffixes_app_r (a b x : str) :
  In x (suffixes b) -> In x (suffixes (a ++ b)).
Proof. induction a; simpl; auto. Qed.

Lemma overlaps_false (p r : str) :
  overlaps p r = false ->
  forall p', In p' (suffixes p) -> comparable p' r = false.
Proof.
  unfold overlaps. intros H p' Hin.
  destruct (comparable p' r) eqn:E; [|reflexivity].
  rewrite <- H. symmetry. apply existsb_exists. eauto.
Qed.

Lemma overlaps_tail (c : char) (p r : str) :
  overlaps (c :: p) r = false -> overlaps p r = false.
Proof. unfold overlaps. simpl. now intros [_ H]%orb_false_iff. Qed.

Lemma apart_inv (p r : str) :
  apart p r = true -> overlaps p r = false /\ overlaps r p = false.
Proof.
  unfold apart. intros [H1 H2]%andb_true_iff.
  now apply negb_true_iff in H1, H2.
Qed.

Lemma contains_nil (s : str) : contains [] s = true.
Proof. destruct s; reflexivity. Qed.

Lemma contains_prefix (p s : str) :
  is_prefix p s = true -> contains p s = true.
Proof. intros H. destruct s; simpl in *; now rewrite H. Qed.

Lemma contains_cons (p : str) (c : char) (s : str) :
  contains p (c :: s) = is_prefix p (c :: s) || contains p s.
Proof. reflexivity. Qed.

Lemma contains_app_r (p a s : str) :
  contains p s = true -> contains p (a ++ s) = true.
Proof.
  intros H. induction a as [|c a IH]; [exact H|].
  simpl app. rewrite contains_cons, IH. apply orb_true_r.
Qed.

Lemma contains_app_l (p a x : str) :
  contains p a = true -> contains p (a ++ x) = true.
Proof.
  induction a as [|c a IH]; intros H.
  - simpl in H. rewrite orb_false_r in H.
    destruct p; [apply contains_nil|discriminate].
  - simpl app. rewrite contains_cons in *.
    apply orb_true_iff in H as [H|H].
    + apply (is_prefix_mono _ _ x) in H. simpl app in H. now rewrite H.
    + rewrite (IH H). apply orb_true_r.
Qed.

Lemma contains_app_inv (p a x : str) :
  contains p (a ++ x) = true ->
  (exists a', In a' (suffixes a) /\ is_prefix p (a' ++ x) = true)
  \/ contains p x = true.
Proof.
  induction a as [|c a IH]; intros H; [now right|].
  simpl app in H. rewrite contains_cons in H.
  apply orb_true_iff in H as [H|H].
  - left. exists (c :: a). split; [now left|exact H].
  - destruct (IH H) as [(a' & Hin & Hp)|Hx]; [left|now right].
    exists a'. split; [now right|exact Hp].
Qed.

Lemma contains_app_apart (p a x : str) :
  overlaps a p = false ->
  contains p (a ++ x) = true -> contains p x = true.
Proof.
  intros Hov H.
  destruct (contains_app_inv _ _ _ H) as [(a' & Hin & Hp)|Hx]; [|exact Hx].
  apply is_prefix_app_comparable in Hp.
  rewrite comparable_sym, (overlaps_false _ _ Hov _ Hin) in Hp.
  discriminate.
Qed.

Lemma occurrences_app_apart (p a x : str) :
  overlaps a p = false ->
  occurrences p (a ++ x) = occurrences p x.
Proof.
  induction a as [|c a IH]; intros Hov; [reflexivity|].
  simpl app. simpl occurrences.
  rewrite (IH (overlaps_tail _ _ _ Hov)).
  destruct (is_prefix p (c :: a ++ x)) eqn:E; [|reflexivity].
  change (c :: a ++ x) with ((c :: a) ++ x) in E.
  apply is_prefix_app_comparable in E.
  rewrite comparable_sym in E.
  rewrite (overlaps_false _ _ Hov (c :: a)) in E; [discriminate|now left].
Qed.

Lemma occurrences_contains (p s : str) :
  contains p s = false -> occurrences p s = 0.
Proof.
  induction s as [|c s IH]; [reflexivity|].
  rewrite contains_cons. intros [H1 H2]%orb_false_iff.
  simpl occurrences. now rewrite H1, IH.
Qed.

Lemma last_seen_app (prev : option char) (a b : str) :
  last_seen prev (a ++ b) = last_seen (last_seen prev a) b.
Proof. revert prev; induction a; simpl; auto. Qed.

(** ** The left-to-right substitution *)

Section ScanFacts.

Variable guard : option char -> char -> bool.
Variables old new : str.
Hypothesis old_nonempty : old <> [].

Local Abbreviation sc := (scan guard old new).
Local Abbreviation hits := (hit guard old).
Local Abbreviation any_hit := (has_hit guard old).

Lemma scan_from_skip (prev : option char) (u r : str) :
  scan_from guard old new prev (length u) (u ++ r)
  = sc (last_seen prev u) r.
Proof.
  revert prev; induction u as [|c u IH]; intros prev; [reflexivity|].
  simpl. apply IH.
Qed.

Lemma scan_hit (prev : option char) (r : str) :
  hits prev (old ++ r) = true ->
  sc prev (old ++ r) = new ++ sc (last_seen prev old) r.
Proof.
  pose proof scan_from_skip as Hskip.
  destruct old as [|c o]; [congruence|]. intros H.
  unfold scan. simpl app in *. cbn [scan_from]. rewrite H.
  replace (length (c :: o) - 1) with (length o) by (simpl; lia).
  now rewrite Hskip.
Qed.

Lemma scan_keep (prev : option char) (c : char) (r : str) :
  hits prev (c :: r) = false ->
  sc prev (c :: r) = c :: sc (Some c) r.
Proof. intros H. unfold scan. cbn [scan_from]. now rewrite H. Qed.

(** Induction along the scan. *)
Lemma scan_ind (P : option char -> str -> Prop) :
  (forall prev, P prev []) ->
  (forall prev r,
      hits prev (old ++ r) = true ->
      P (last_seen prev old) r -> P prev (old ++ r)) ->
  (forall prev c r,
      hits prev (c :: r) = false -> P (Some c) r -> P prev (c :: r)) ->
  forall prev s, P prev s.
Proof.
  intros Hnil Hhit Hkeep prev s.
  remember (length s) as n eqn:En. revert prev s En.
  induction n as [n IH] using lt_wf_ind. intros prev s En.
  destruct s as [|c r]; [apply Hnil|].
  destruct (hits prev (c :: r)) eqn:E.
  - pose proof E as E'. simpl in E'.
    apply andb_true_iff in E' as [_ Hp].
    destruct (is_prefix_inv _ _ Hp) as [x Hx].
    rewrite Hx in *. apply Hhit; [exact E|].
    apply (IH (length x)); [|reflexivity].
    rewrite En, length_app. destruct old; [congruence|simpl; lia].
  - apply Hkeep; [exact E|].
    apply (IH (length r)); [|reflexivity]. simpl in En. lia.
Qed.

Lemma hit_prefix (prev : option char) (s : str) :
  hits prev s = true -> is_prefix old s = true.
Proof.
  destruct s; simpl; [discriminate|]. now intros [_ H]%andb_true_iff.
Qed.

Lemma hit_any_hit (prev : option char) (s : str) :
  hits prev s = true -> any_hit prev s = true.
Proof.
  destruct s as [|c s]; [discriminate|]. intros H.
  cbn [has_hit]. now rewrite H.
Qed.

Lemma any_hit_ext (p q : option char) (s : str) :
  (forall c, guard p c = guard q c) -> any_hit p s = any_hit q s.
Proof. intros H. destruct s; simpl; [reflexivity|]. now rewrite H. Qed.

Lemma any_hit_app_inv (prev : option char) (a x : str) :
  any_hit prev (a ++ x) = true ->
  (exists a', In a' (suffixes a) /\ is_prefix old (a' ++ x) = true)
  \/ any_hit (last_seen prev a) x = true.
Proof.
  revert prev; induction a as [|c a IH]; intros prev H; [now right|].
  simpl app in H. cbn [has_hit] in H.
  apply orb_true_iff in H as [H|H].
  - left. exists (c :: a). split; [now left|].
    now apply hit_prefix in H.
  - destruct (IH _ H) as [(a' & Hin & Hp)|Hx]; [left|now right].
    exists a'. split; [now right|exact Hp].
Qed.

(** The output is the input with some occurrences exchanged. *)
Lemma scan_Replaced (prev : option char) (s : str) :
  Replaced guard old new prev s (sc prev s).
Proof.
  revert prev s.
  apply (scan_ind (fun prev s => Replaced guard old new prev s (sc prev s))).
  - intros prev. constructor.
  - intros prev r H IH. rewrite (scan_hit _ _ H). now constructor.
  - intros prev c r H IH. rewrite (scan_keep _ _ _ H). now constructor.
Qed.

(** Without an accepted occurrence the text is kept. *)
Lemma scan_id (prev : option char) (s : str) :
  any_hit prev s = false -> sc prev s = s.
Proof.
  revert prev s.
  apply (scan_ind (fun prev s => any_hit prev s = false -> sc prev s = s)).
  - reflexivity.
  - intros prev r H _ Hn. rewrite (hit_any_hit _ _ H) in Hn.
    discriminate.
  - intros prev c r H IH Hn. rewrite (scan_keep _ _ _ H).
    cbn [has_hit] in Hn. apply orb_false_iff in Hn as [_ Hn].
    now rewrite (IH Hn).
Qed.

(** After an accepted occurrence the replacement is in the output. *)
Lemma scan_contains_new (x : str) (prev : option char) (s : str) :
  contains x new = true ->
  any_hit prev s = true -> contains x (sc prev s) = true.
Proof.
  intros Hx. revert prev s.
  apply (scan_ind (fun prev s =>
    any_hit prev s = true -> contains x (sc prev s) = true)).
  - discriminate.
  - intros prev r H _ _. rewrite (scan_hit _ _ H).
    now apply contains_app_l.
  - intros prev c r H IH Hn. rewrite (scan_keep _ _ _ H).
    cbn [has_hit] in Hn. rewrite H in Hn. simpl in Hn.
    rewrite contains_cons, (IH Hn). apply orb_true_r.
Qed.

(** *** A text [p] that cannot touch the replacement *)

Section Fresh.

Variable p : str.
Hypothesis p_new : overlaps p new = false.

Lemma scan_prefix_inv (prev : option char) (s : str) :
  forall p', In p' (suffixes p) ->
    is_prefix p' (sc prev s) = true -> is_prefix p' s = true.
Proof.
  revert prev s.
  apply (scan_ind (fun prev s => forall p', In p' (suffixes p) ->
    is_prefix p' (sc prev s) = true -> is_prefix p' s = true)).
  - intros prev p' _ H. exact H.
  - intros prev r H _ p' Hin Hp. rewrite (scan_hit _ _ H) in Hp.
    apply is_prefix_app_comparable in Hp.
    rewrite (overlaps_false _ _ p_new _ Hin) in Hp. discriminate.
  - intros prev c r H IH p' Hin Hp. rewrite (scan_keep _ _ _ H) in Hp.
    destruct p' as [|a p']; [reflexivity|]. simpl in *.
    apply andb_true_iff in Hp as [Hac Hp]. rewrite Hac. simpl.
    destruct (suffixes_tail _ _ _ Hin) as [->|Hin']; [reflexivity|].
    now apply IH.
Qed.

Hypothesis new_p : overlaps new p = false.

Lemma scan_contains_inv (prev : option char) (s : str) :
  contains p (sc prev s) = true -> contains p s = true.
Proof.
  assert (Hp : p = [] \/ p <> [])
    by (destruct p; [now left|right; discriminate]).
  destruct Hp as [Hp|Hp]; [rewrite Hp; intros; apply contains_nil|].
  pose proof (suffixes_self p Hp) as Hself.
  revert prev s.
  apply (scan_ind (fun prev s =>
    contains p (sc prev s) = true -> contains p s = true)).
  - intros prev H. exact H.
  - intros prev r H IH Hc. rewrite (scan_hit _ _ H) in Hc.
    apply contains_app_r, IH.
    now apply (contains_app_apart _ _ _ new_p).
  - intros prev c r H IH Hc.
    rewrite contains_cons. apply orb_true_iff.
    rewrite (scan_keep _ _ _ H), contains_cons in Hc.
    apply orb_true_iff in Hc as [Hc|Hc]; [left|right; now apply IH].
    rewrite <- (scan_keep _ _ _ H) in Hc.
    exact (scan_prefix_inv prev _ _ Hself Hc).
Qed.

End Fresh.

(** *** A text [p] that cannot touch the replaced text *)

Section Kept.

Variable p : str.
Hypothesis p_old : overlaps p old = false.

Lemma scan_prefix (prev : option char) (s : str) :
  forall p', In p' (suffixes p) ->
    is_prefix p' s = true -> is_prefix p' (sc prev s) = true.
Proof.
  revert prev s.
  apply (scan_ind (fun prev s => forall p', In p' (suffixes p) ->
    is_prefix p' s = true -> is_prefix p' (sc prev s) = true)).
  - intros prev p' _ H. exact H.
  - intros prev r H _ p' Hin Hp.
    apply is_prefix_app_comparable in Hp.
    rewrite (overlaps_false _ _ p_old _ Hin) in Hp. discriminate.
  - intros prev c r H IH p' Hin Hp. rewrite (scan_keep _ _ _ H).
    destruct p' as [|a p']; [reflexivity|]. simpl in *.
    apply andb_true_iff in Hp as [Hac Hp]. rewrite Hac. simpl.
    destruct (suffixes_tail _ _ _ Hin) as [->|Hin']; [reflexivity|].
    now apply IH.
Qed.

Hypothesis old_p : overlaps old p = false.

Lemma scan_contains (prev : option char) (s : str) :
  contains p s = true -> contains p (sc prev s) = true.
Proof.
  assert (Hp : p = [] \/ p <> [])
    by (destruct p; [now left|right; discriminate]).
  destruct Hp as [Hp|Hp]; [rewrite Hp; intros; apply contains_nil|].
  pose proof (suffixes_self p Hp) as Hself.
  revert prev s.
  apply (scan_ind (fun prev s =>
    contains p s = true -> contains p (sc prev s) = true)).
  - intros prev H. exact H.
  - intros prev r H IH Hc. rewrite (scan_hit _ _ H).
    apply contains_app_r, IH.
    now apply (contains_app_apart _ _ _ old_p).
  - intros prev c r H IH Hc.
    rewrite (scan_keep _ _ _ H), contains_cons. apply orb_true_iff.
    rewrite contains_cons in Hc.
    apply orb_true_iff in Hc as [Hc|Hc]; [left|right; now apply IH].
    rewrite <- (scan_keep _ _ _ H).
    now apply (scan_prefix _ _ _ Hself).
Qed.

End Kept.

End ScanFacts.

Section ScanCounting.

Variable guard : option char -> char -> bool.
Variables old new : str.
Hypothesis old_nonempty : old <> [].

Local Abbreviation sc := (scan guard old new).
Local Abbreviation hits := (hit guard old).
Local Abbreviation any_hit := (has_hit guard old).
Local Abbreviation sc_ind := (scan_ind guard old old_nonempty).
Local Abbreviation sc_hit := (scan_hit guard old new old_nonempty).
Local Abbreviation sc_keep := (scan_keep guard old new).

(** A text apart from both [old] and [new] occurs as often after the
    substitution as before. *)
Lemma scan_occurrences (p : str) (prev : option char) (s : str) :
  apart p old = true -> apart p new = true ->
  occurrences p (sc prev s) = occurrences p s.
Proof.
  intros [Hpo Hop]%apart_inv [Hpn Hnp]%apart_inv.
  assert (Hp : p = [] \/ p <> [])
    by (destruct p; [now left|right; discriminate]).
  revert prev s.
  apply (sc_ind (fun prev s =>
    occurrences p (sc prev s) = occurrences p s)).
  - reflexivity.
  - intros prev r H IH. rewrite (sc_hit _ _ H).
    now rewrite !occurrences_app_apart.
  - intros prev c r H IH. rewrite (sc_keep _ _ _ H).
    cbn [occurrences]. rewrite IH. f_equal.
    rewrite <- (sc_keep _ _ _ H).
    destruct Hp as [->|Hp]; [reflexivity|].
    pose proof (suffixes_self p Hp) as Hself.
    destruct (is_prefix p (c :: r)) eqn:E.
    + now rewrite (scan_prefix guard old new old_nonempty p Hpo
                     prev _ _ Hself E).
    + destruct (is_prefix p (sc prev (c :: r))) eqn:E'; [|reflexivity].
      rewrite (scan_prefix_inv guard old new old_nonempty p Hpn
                 prev _ _ Hself E') in E.
      discriminate.
Qed.

(** Once substituted, no accepted occurrence is left, when [old] and
    [new] cannot overlap and end alike for the guard. *)
Lemma scan_no_hit (prev : option char) (s : str) :
  overlaps old new = false -> overlaps new old = false ->
  (forall q c, guard (last_seen q new) c = guard (last_seen q old) c) ->
  any_hit prev (sc prev s) = false.
Proof.
  intros Hon Hno Hlast. revert prev s.
  apply (sc_ind (fun prev s => any_hit prev (sc prev s) = false)).
  - reflexivity.
  - intros prev r H IH. rewrite (sc_hit _ _ H).
    destruct (any_hit prev (new ++ sc (last_seen prev old) r)) eqn:E;
      [exfalso|reflexivity].
    destruct (any_hit_app_inv guard old _ _ _ E)
      as [(a' & Hin & Hp)|Hx].
    + apply is_prefix_app_comparable in Hp.
      rewrite comparable_sym, (overlaps_false _ _ Hno _ Hin) in Hp.
      discriminate.
    + rewrite (any_hit_ext guard old _ (last_seen prev old)) in Hx
        by apply Hlast.
      congruence.
  - intros prev c r H IH. rewrite (sc_keep _ _ _ H).
    cbn [has_hit]. rewrite IH, orb_false_r.
    destruct (hits prev (c :: sc (Some c) r)) eqn:E; [exfalso|reflexivity].
    cbn [hit] in E, H. apply andb_true_iff in E as [Hg Hp].
    rewrite Hg in H. simpl in H.
    rewrite <- (sc_keep prev c r) in Hp
      by (cbn [hit]; now rewrite Hg).
    rewrite (scan_prefix_inv guard old new old_nonempty old Hon prev _ _
               (suffixes_self old old_nonempty) Hp) in H.
    discriminate.
Qed.

(** The substitution of a concatenation splits where no occurrence
    straddles the seam. *)
Lemma scan_app (prev : option char) (a b : str) :
  (forall a', In a' (suffixes a) ->
      is_prefix old (a' ++ b) = true -> is_prefix old a' = true) ->
  sc prev (a ++ b) = sc prev a ++ sc (last_seen prev a) b.
Proof.
  revert prev a.
  apply (sc_ind (fun prev a =>
    (forall a', In a' (suffixes a) ->
      is_prefix old (a' ++ b) = true -> is_prefix old a' = true) ->
    sc prev (a ++ b) = sc prev a ++ sc (last_seen prev a) b)).
  - reflexivity.
  - intros prev r H IH Hseam.
    rewrite (sc_hit _ _ H), <- !app_assoc.
    rewrite sc_hit.
    + rewrite IH, last_seen_app; [reflexivity|].
      intros a' Hin. apply Hseam. now apply suffixes_app_r.
    + pose proof (is_prefix_app old (r ++ b)) as Hp.
      destruct old as [|c o]; [congruence|].
      cbn [hit app] in *. apply andb_true_iff in H as [Hg _].
      now rewrite Hg, Hp.
  - intros prev c r H IH Hseam.
    simpl app. rewrite (sc_keep _ _ _ H), sc_keep.
    + simpl. f_equal. apply IH.
      intros a' Hin. apply Hseam. now right.
    + cbn [hit] in *. destruct (guard prev c); [|reflexivity].
      simpl in *.
      destruct (is_prefix old (c :: r ++ b)) eqn:E; [|reflexivity].
      rewrite <- H. symmetry. apply (Hseam (c :: r)); [now left|exact E].
Qed.

End ScanCounting.

(** ** [str.replace] *)

Section ReplaceFacts.

Variables old new : str.
Hypothesis old_nonempty : old <> [].

Lemma replace_scan (s : str) :
  replace old new s = scan always old new None s.
Proof. unfold replace. destruct old; [congruence|reflexivity]. Qed.

Lemma has_hit_always (prev : option char) (s : str) :
  has_hit always old prev s = contains old s.
Proof.
  revert prev; induction s as [|c s IH]; intros prev.
  - simpl. destruct old; [congruence|reflexivity].
  - cbn [has_hit hit]. rewrite contains_cons, IH. reflexivity.
Qed.

Lemma scan_from_always_prev (p q : option char) (k : nat) (s : str) :
  scan_from always old new p k s = scan_from always old new q k s.
Proof.
  revert p q k; induction s as [|c s IH]; intros p q k; [reflexivity|].
  destruct k; cbn [scan_from]; [|apply IH]. reflexivity.
Qed.

Lemma scan_always_prev (p q : option char) (s : str) :
  scan always old new p s = scan always old new q s.
Proof. apply scan_from_always_prev. Qed.

Lemma replace_id (s : str) :
  contains old s = false -> replace old new s = s.
Proof.
  intros H. rewrite replace_scan. apply scan_id; [exact old_nonempty|].
  now rewrite has_hit_always.
Qed.

Lemma replace_Replaced (s : str) :
  Replaced always old new None s (replace old new s).
Proof. rewrite replace_scan. now apply scan_Replaced. Qed.

Lemma replace_gone (s : str) :
  apart old new = true -> contains old (replace old new s) = false.
Proof.
  intros [H1 H2]%apart_inv.
  rewrite replace_scan, <- (has_hit_always None).
  now apply scan_no_hit.
Qed.

Lemma replace_contains_new (x s : str) :
  contains x new = true -> contains old s = true ->
  contains x (replace old new s) = true.
Proof.
  intros Hx H. rewrite replace_scan.
  apply scan_contains_new; [exact old_nonempty|exact Hx|].
  now rewrite has_hit_always.
Qed.

Lemma replace_contains_inv (p s : str) :
  apart p new = true ->
  contains p (replace old new s) = true -> contains p s = true.
Proof.
  intros [H1 H2]%apart_inv. rewrite replace_scan.
  now apply scan_contains_inv.
Qed.

Lemma replace_contains (p s : str) :
  apart p old = true ->
  contains p s = true -> contains p (replace old new s) = true.
Proof.
  intros [H1 H2]%apart_inv. rewrite replace_scan.
  now apply scan_contains.
Qed.

Lemma replace_absent (p s : str) :
  apart p new = true ->
  contains p s = false -> contains p (replace old new s) = false.
Proof.
  intros Hap H. destruct (contains p (replace old new s)) eqn:E;
    [|reflexivity].
  now rewrite (replace_contains_inv _ _ Hap E) in H.
Qed.

Lemma replace_occurrences (p s : str) :
  apart p old = true -> apart p new = true ->
  occurrences p (replace old new s) = occurrences p s.
Proof. intros H1 H2. rewrite replace_scan. now apply scan_occurrences. Qed.

End ReplaceFacts.

(** Side conditions on the scripts' constants are decided by
    evaluation. *)
Ltac side :=
  solve [ discriminate | vm_compute; reflexivity | assumption ].

(** ** Occurrences inside occurrences, and seams *)

Lemma contains_inv (p s : str) :
  contains p s = true -> exists u v, s = u ++ p ++ v.
Proof.
  induction s as [|c s IH]; intros H.
  - simpl in H. rewrite orb_false_r in H.
    destruct (is_prefix_inv _ _ H) as [v ->]. now exists [], v.
  - rewrite contains_cons in H. apply orb_true_iff in H as [H|H].
    + destruct (is_prefix_inv _ _ H) as [v ->]. now exists [], v.
    + destruct (IH H) as (u & v & ->). now exists (c :: u), v.
Qed.

Lemma contains_trans (a b s : str) :
  contains a b = true -> contains b s = true -> contains a s = true.
Proof.
  intros Hab Hbs. destruct (contains_inv _ _ Hbs) as (u & v & ->).
  now apply contains_app_r, contains_app_l.
Qed.

Lemma contains_absent_trans (a b s : str) :
  contains a b = true -> contains a s = false -> contains b s = false.
Proof.
  intros Hab Has. destruct (contains b s) eqn:E; [|reflexivity].
  now rewrite (contains_trans _ _ _ Hab E) in Has.
Qed.

Lemma suffixes_tl (p x : str) : In x (suffixes (tl p)) -> In x (suffixes p).
Proof. destruct p; simpl; auto. Qed.

(** A prefix of [x ++ y] that is not a prefix of [x] ends in [y]. *)
Lemma is_prefix_app_split (p x y : str) :
  x <> [] -> is_prefix p (x ++ y) = true ->
  is_prefix p x = true
  \/ exists p', In p' (suffixes (tl p)) /\ is_prefix p' y = true.
Proof.
  revert p; induction x as [|d x IH]; intros p Hx H; [congruence|].
  destruct p as [|c p]; [now left|].
  simpl in H. apply andb_true_iff in H as [Hcd H]. simpl is_prefix.
  rewrite Hcd. simpl.
  destruct x as [|e x].
  - destruct p as [|c' p]; [now left|].
    right. exists (c' :: p). split; [now left|exact H].
  - destruct (IH p) as [Hl|(p' & Hin & Hp)]; [discriminate|exact H|now left|].
    right. exists p'. split; [now apply suffixes_tl|exact Hp].
Qed.

(** No occurrence of [old] straddles the seam before [m] when no proper
    suffix of [old] can start [m]. *)
Lemma seam_before (old m a b : str) :
  overlaps (tl old) m = false ->
  forall a', In a' (suffixes a) ->
    is_prefix old (a' ++ m ++ b) = true -> is_prefix old a' = true.
Proof.
  intros Hov a' Hin H.
  destruct (is_prefix_app_split old a' (m ++ b)) as [Hl|(p' & Hp' & Hp)];
    [now apply (suffixes_nonempty a)|exact H|exact Hl|].
  apply is_prefix_app_comparable in Hp.
  now rewrite (overlaps_false _ _ Hov _ Hp') in Hp.
Qed.

(** Nor the seam after [m] when no proper suffix of [m] can start
    [old], and [m] itself does only if it holds [old]. *)
Lemma seam_after (old m b : str) :
  overlaps (tl m) old = false ->
  (is_prefix m old = true -> is_prefix old m = true) ->
  forall m', In m' (suffixes m) ->
    is_prefix old (m' ++ b) = true -> is_prefix old m' = true.
Proof.
  intros Hov Hm m' Hin H.
  apply is_prefix_app_comparable in H.
  destruct m as [|c m]; [contradiction|].
  destruct Hin as [<-|Hin].
  - unfold comparable in H. apply orb_true_iff in H as [H|H]; auto.
  - simpl tl in Hov. rewrite comparable_sym in H.
    now rewrite (overlaps_false _ _ Hov _ Hin) in H.
Qed.

Section ScanSeams.

Variable guard : option char -> char -> bool.
Variables old new : str.
Hypothesis old_nonempty : old <> [].

Local Abbreviation sc := (scan guard old new).

(** The character before the rest is the same in the output when the
    replaced text and its replacement end alike. *)
Lemma scan_last_seen (prev : option char) (s : str) :
  (forall q, last_seen q new = last_seen q old) ->
  last_seen prev (sc prev s) = last_seen prev s.
Proof.
  intros Hlast. revert prev s.
  apply (scan_ind guard old old_nonempty (fun prev s =>
    last_seen prev (sc prev s) = last_seen prev s)).
  - reflexivity.
  - intros prev r H IH.
    rewrite (scan_hit guard old new old_nonempty _ _ H).
    now rewrite !last_seen_app, Hlast.
  - intros prev c r H IH. rewrite (scan_keep guard old new _ _ _ H).
    exact IH.
Qed.

(** A text [m] that no occurrence of [old] can reach into is a fixed
    island of the substitution. *)
Lemma scan_island (prev : option char) (a m b : str) :
  overlaps (tl old) m = false ->
  overlaps (tl m) old = false ->
  (is_prefix m old = true -> is_prefix old m = true) ->
  sc prev (a ++ m ++ b)
  = sc prev a ++ sc (last_seen prev a) m
      ++ sc (last_seen (last_seen prev a) m) b.
Proof.
  intros H1 H2 H3.
  rewrite (scan_app guard old new old_nonempty prev a (m ++ b)).
  - f_equal. apply (scan_app guard old new old_nonempty).
    now apply seam_after.
  - now apply seam_before.
Qed.

End ScanSeams.

(** ** Renamer A on a text *)

Module FixRendererFacts.

Import FixRenderer.

Local Abbreviation DS := (lit "domain.Status").
Local Abbreviation TS := (lit "dot.Status").
Local Abbreviation DP := (lit "domain.PackageInfo").
Local Abbreviation TP := (lit "dot.PackageInfo").
Local Abbreviation both_imports :=
  (domain_import ++ [newline; tab] ++ dot_import).

Lemma add_import_cases (c : str) :
  add_import c = c
  \/ (contains domain_import c = true
      /\ add_import c = replace domain_import both_imports c).
Proof.
  unfold add_import.
  destruct (contains domain_marker c && negb (contains dot_marker c));
    [|now left].
  destruct (contains domain_import c) eqn:E; [now right|left].
  apply replace_id; [discriminate|exact E].
Qed.

(** A text that cannot touch the new identifiers is not created by the
    two replacements. *)
Lemma rename_idents_absent (p s : str) :
  apart p TS = true -> apart p TP = true ->
  contains p s = false -> contains p (rename_idents s) = false.
Proof.
  intros H1 H2 H. unfold rename_idents.
  apply replace_absent; [discriminate|exact H2|].
  apply replace_absent; [discriminate|exact H1|exact H].
Qed.

(** A text that cannot touch the old identifiers survives them. *)
Lemma rename_idents_contains (p s : str) :
  apart p DS = true -> apart p DP = true ->
  contains p s = true -> contains p (rename_idents s) = true.
Proof.
  intros H1 H2 H. unfold rename_idents.
  apply replace_contains; [discriminate|exact H2|].
  apply replace_contains; [discriminate|exact H1|exact H].
Qed.

Lemma rename_idents_occurrences (p s : str) :
  apart p DS = true -> apart p TS = true ->
  apart p DP = true -> apart p TP = true ->
  occurrences p (rename_idents s) = occurrences p s.
Proof.
  intros H1 H2 H3 H4. unfold rename_idents.
  rewrite replace_occurrences by side.
  apply replace_occurrences; side.
Qed.

(** Neither old identifier is left. *)
Lemma rename_idents_gone (s : str) :
  contains DS (rename_idents s) = false
  /\ contains DP (rename_idents s) = false.
Proof.
  unfold rename_idents. split.
  - apply replace_absent; [side|side|]. apply replace_gone; side.
  - apply replace_gone; side.
Qed.

Lemma rename_idents_fixed (s : str) :
  contains DS s = false -> contains DP s = false -> rename_idents s = s.
Proof.
  intros H1 H2. unfold rename_idents.
  rewrite (replace_id DS TS) by side. apply replace_id; side.
Qed.

Lemma rename_idents_idempotent (s : str) :
  rename_idents (rename_idents s) = rename_idents s.
Proof.
  destruct (rename_idents_gone s). now apply rename_idents_fixed.
Qed.

(** After one run the insertion has nothing left to do. *)
Lemma add_import_settled (c : str) :
  add_import (fix_content c) = fix_content c.
Proof.
  unfold fix_content.
  set (c1 := add_import c). set (c' := rename_idents c1).
  unfold add_import at 1.
  destruct (contains domain_marker c' && negb (contains dot_marker c'))
    eqn:Hcond; [|reflexivity].
  apply andb_true_iff in Hcond as [Hdm Hdt].
  apply negb_true_iff in Hdt.
  apply replace_id; [discriminate|].
  destruct (contains domain_import c') eqn:Hq; [exfalso|reflexivity].
  assert (Hq1 : contains domain_import c1 = true).
  { destruct (contains domain_import c1) eqn:E; [reflexivity|].
    unfold c' in Hq. rewrite rename_idents_absent in Hq by side.
    discriminate. }
  assert (Hdot : contains dot_marker c1 = true).
  { unfold c1 in *. clear c' Hdm Hdt Hq.
    destruct (contains dot_marker c) eqn:Ed.
    - unfold add_import. now rewrite Ed, andb_false_r.
    - destruct (contains domain_import c) eqn:Ei.
      + unfold add_import.
        rewrite Ed, (contains_trans domain_marker domain_import c)
          by side.
        cbn [negb andb]. apply replace_contains_new; side.
      + destruct (add_import_cases c) as [Hid|[Hi _]]; congruence. }
  unfold c' in Hdt. rewrite rename_idents_contains in Hdt by side.
  discriminate.
Qed.

Lemma fix_content_idempotent (c : str) :
  fix_content (fix_content c) = fix_content c.
Proof.
  unfold fix_content at 1. rewrite add_import_settled.
  unfold fix_content. apply rename_idents_idempotent.
Qed.

End FixRendererFacts.

(** ** A replaced text that shares its last character with its first

    [old] starts and ends with the character [q], as does [new]; an
    occurrence of [old] can then appear after the replacement, but only
    where two occurrences shared a [q] before it. *)

Lemma str_eqb_eq (a b : str) : str_eqb a b = true <-> a = b.
Proof.
  unfold str_eqb. split.
  - intros [Hl Hp]%andb_true_iff. apply Nat.eqb_eq in Hl.
    destruct (is_prefix_inv _ _ Hp) as [x ->].
    rewrite length_app in Hl. destruct x; [now rewrite app_nil_r|].
    simpl in Hl; lia.
  - intros ->. rewrite Nat.eqb_refl. simpl.
    rewrite <- (app_nil_r b) at 2. apply is_prefix_app.
Qed.

Section SharedQuote.

Variable q : char.
Variables body new : str.

Hypothesis body_nonempty : body <> [].
Hypothesis body_meets_new :
  forallb (fun p' => implb (comparable p' new) (is_prefix p' (q :: body)))
          (suffixes body) = true.
Hypothesis new_meets_old :
  forallb (fun n' => implb (comparable (q :: body) n') (str_eqb n' [q]))
          (suffixes new) = true.

Local Abbreviation old := (q :: body).
Local Abbreviation sc := (scan always old new).

Lemma old_nonempty_q : old <> [].
Proof. discriminate. Qed.

Lemma shared_prefix_inv (prev : option char) (s : str) :
  forall p', In p' (suffixes body) ->
    is_prefix p' (sc prev s) = true -> is_prefix p' s = true.
Proof.
  revert prev s.
  apply (scan_ind always old old_nonempty_q (fun prev s =>
    forall p', In p' (suffixes body) ->
      is_prefix p' (sc prev s) = true -> is_prefix p' s = true)).
  - intros prev p' _ H. exact H.
  - intros prev r H _ p' Hin Hp.
    rewrite (scan_hit always old new old_nonempty_q _ _ H) in Hp.
    apply is_prefix_app_comparable in Hp.
    pose proof (proj1 (forallb_forall _ _) body_meets_new p' Hin) as Hb.
    cbv beta in Hb. rewrite Hp in Hb. apply is_prefix_mono, Hb.
  - intros prev c r H IH p' Hin Hp.
    rewrite (scan_keep always old new _ _ _ H) in Hp.
    destruct p' as [|a p']; [reflexivity|]. simpl in *.
    apply andb_true_iff in Hp as [Hac Hp]. rewrite Hac. simpl.
    destruct (suffixes_tail _ _ _ Hin) as [->|Hin']; [reflexivity|].
    now apply IH.
Qed.

Lemma replace_shared_gone (s : str) :
  contains (old ++ body) s = false ->
  contains old (replace old new s) = false.
Proof.
  rewrite (replace_scan old new old_nonempty_q).
  generalize (@None char). intros prev. revert prev s.
  apply (scan_ind always old old_nonempty_q (fun prev s =>
    contains (old ++ body) s = false ->
    contains old (sc prev s) = false)).
  - reflexivity.
  - intros prev r H IH Hc.
    rewrite (scan_hit always old new old_nonempty_q _ _ H).
    destruct (contains old (new ++ sc (last_seen prev old) r)) eqn:E;
      [exfalso|reflexivity].
    destruct (contains_app_inv _ _ _ E) as [(n' & Hin & Hp)|Hx].
    + pose proof (proj1 (forallb_forall _ _) new_meets_old n' Hin) as Hb.
      cbv beta in Hb.
      rewrite (is_prefix_app_comparable _ _ _ Hp) in Hb.
      apply str_eqb_eq in Hb. subst n'.
      simpl in Hp. rewrite N.eqb_refl in Hp. simpl in Hp.
      apply (shared_prefix_inv _ _ _ (suffixes_self body body_nonempty))
        in Hp.
      destruct (is_prefix_inv _ _ Hp) as [x ->].
      rewrite app_assoc, contains_prefix in Hc; [discriminate|].
      apply is_prefix_app.
    + rewrite IH in Hx; [discriminate|].
      destruct (contains (old ++ body) r) eqn:E'; [|reflexivity].
      now rewrite (contains_app_r _ old _ E') in Hc.
  - intros prev c r H IH Hc.
    rewrite (scan_keep always old new _ _ _ H), contains_cons.
    rewrite contains_cons in Hc. apply orb_false_iff in Hc as [_ Hc].
    rewrite (IH Hc), orb_false_r.
    destruct (is_prefix old (c :: sc (Some c) r)) eqn:E; [|reflexivity].
    simpl in E, H. apply andb_true_iff in E as [Hqc Hp].
    rewrite Hqc in H. simpl in H.
    now rewrite (shared_prefix_inv _ _ _
                   (suffixes_self body body_nonempty) Hp) in H.
Qed.

End SharedQuote.

(** ** Renamer B on a text *)

Module UpdateImportsFacts.

Import UpdateImports.

Local Abbreviation DOT := (lit "dot.").
Local Abbreviation DOMAIN := (lit "domain.").
Local Abbreviation full_stop := (46%N : char).

Lemma replace_import_settled (c : str) :
  contains chained_import c = false ->
  contains old_import (replace_import c) = false.
Proof.
  intros H. unfold replace_import.
  apply (replace_shared_gone dquote (tl old_import) new_import);
    [discriminate|vm_compute; reflexivity|vm_compute; reflexivity|exact H].
Qed.

Section WithUnicode.

Variable unicode_alnum : char -> bool.

Local Abbreviation wb := (word_boundary unicode_alnum).
Local Abbreviation rewrite := (rewrite_idents unicode_alnum).
Local Abbreviation update := (update_content unicode_alnum).

Lemma DOT_nonempty : DOT <> [].
Proof. discriminate. Qed.

Lemma update_content_gate (c : str) :
  update c = if contains new_marker (replace_import c)
             then rewrite (replace_import c) else replace_import c.
Proof. reflexivity. Qed.

(** The new import path survives both steps. *)
Lemma replace_import_marker (c : str) :
  contains new_marker c = true ->
  contains new_marker (replace_import c) = true.
Proof. intros H. apply replace_contains; side. Qed.

Lemma rewrite_idents_marker (c : str) :
  contains new_marker c = true -> contains new_marker (rewrite c) = true.
Proof.
  intros H. apply scan_contains; [discriminate|side|side|exact H].
Qed.

(** The rewrite does not bring the old import back. *)
Lemma rewrite_idents_no_old_import (c : str) :
  contains old_import c = false ->
  contains old_import (rewrite c) = false.
Proof.
  intros H. destruct (contains old_import (rewrite c)) eqn:E;
    [|reflexivity].
  apply scan_contains_inv in E; [congruence|discriminate|side|side].
Qed.

Lemma rewrite_idents_idempotent (c : str) :
  rewrite (rewrite c) = rewrite c.
Proof.
  apply scan_id; [discriminate|].
  apply scan_no_hit; [discriminate|side|side|reflexivity].
Qed.

Lemma update_content_settled (c : str) :
  contains old_import (replace_import c) = false ->
  update (update c) = update c.
Proof.
  intros H. rewrite (update_content_gate c).
  destruct (contains new_marker (replace_import c)) eqn:Hg.
  - rewrite update_content_gate.
    assert (Hr : replace_import (rewrite (replace_import c))
                 = rewrite (replace_import c)).
    { apply replace_id; [discriminate|].
      now apply rewrite_idents_no_old_import. }
    rewrite Hr, rewrite_idents_marker by exact Hg.
    apply rewrite_idents_idempotent.
  - rewrite update_content_gate.
    assert (Hr : replace_import (replace_import c) = replace_import c)
      by (apply replace_id; [discriminate|exact H]).
    now rewrite Hr, Hg.
Qed.

Lemma update_content_idempotent (c : str) :
  contains chained_import c = false ->
  update (update c) = update c.
Proof.
  intros H. now apply update_content_settled, replace_import_settled.
Qed.

(** *** An occurrence of [dot.] after a word character *)

Lemma replace_import_island (a b : str) :
  replace_import (a ++ DOT ++ b)
  = replace_import a ++ DOT ++ replace_import b.
Proof.
  unfold replace_import.
  rewrite !(replace_scan old_import new_import) by discriminate.
  rewrite scan_island; [|discriminate|side|side|discriminate].
  f_equal.
  change (scan always old_import new_import (last_seen None a) DOT)
    with DOT.
  f_equal. apply scan_always_prev.
Qed.

Lemma replace_import_last_seen (a : str) :
  last_seen None (replace_import a) = last_seen None a.
Proof.
  unfold replace_import.
  rewrite (replace_scan old_import new_import) by discriminate.
  apply scan_last_seen; [discriminate|reflexivity].
Qed.

Lemma rewrite_idents_last_seen (a : str) :
  last_seen None (rewrite a) = last_seen None a.
Proof. apply scan_last_seen; [discriminate|reflexivity]. Qed.

Lemma word_boundary_d (prev : option char) :
  wb prev 100%N = negb (is_word_opt unicode_alnum prev).
Proof.
  unfold word_boundary.
  now destruct (is_word_opt unicode_alnum prev).
Qed.

Lemma no_hit_after_word (prev : option char) :
  is_word_opt unicode_alnum prev = true ->
  has_hit wb DOT prev DOT = false.
Proof.
  intros Hw. cbn [has_hit hit lit map list_ascii_of_string].
  rewrite word_boundary_d, Hw. reflexivity.
Qed.

Lemma rewrite_idents_island (a b : str) :
  is_word_opt unicode_alnum (last_seen None a) = true ->
  rewrite (a ++ DOT ++ b)
  = rewrite a ++ DOT ++ scan wb DOT DOMAIN (Some full_stop) b.
Proof.
  intros Hw. unfold rewrite_idents, re_sub_wb.
  rewrite scan_island; [|discriminate|side|side|auto].
  f_equal. f_equal.
  apply scan_id; [discriminate|]. now apply no_hit_after_word.
Qed.

Lemma Replaced_weaken (ok ok' : option char -> char -> bool)
      (old new : str) (prev : option char) (s t : str) :
  (forall q r, hit ok old q (old ++ r) = true ->
               hit ok' old q (old ++ r) = true) ->
  Replaced ok old new prev s t -> Replaced ok' old new prev s t.
Proof.
  intros Hok H. induction H; constructor; auto.
Qed.

End WithUnicode.

End UpdateImportsFacts.

(** ** The file tree *)

Lemma node_nested_ind (P : node -> Prop) :
  (forall f, P (File f)) ->
  (forall es, Forall (fun e => P (snd e)) es -> P (Dir es)) ->
  forall n, P n.
Proof.
  intros Hf Hd. fix IH 1. intros [f|es]; [apply Hf|].
  apply Hd. revert es. fix IHes 1. intros [|[x m] es].
  - constructor.
  - constructor; [apply IH|apply IHes].
Qed.

Lemma assoc_In (x : string) (es : list (string * node)) (m : node) :
  assoc x es = Some m -> In (x, m) es.
Proof.
  induction es as [|[y k] es IH]; simpl; [discriminate|].
  destruct (String.eqb x y) eqn:E.
  - apply String.eqb_eq in E. intros [= ->]. left. now subst.
  - intros H. right. now apply IH.
Qed.

Lemma assoc_set_same (x : string) (m m' : node) (es : list (string * node)) :
  assoc x es = Some m -> assoc x (set_assoc x m' es) = Some m'.
Proof.
  induction es as [|[y k] es IH]; simpl; [discriminate|].
  destruct (String.eqb x y) eqn:E; simpl; rewrite E; auto.
Qed.

Lemma assoc_set_other (x y : string) (m' : node) (es : list (string * node)) :
  y <> x -> assoc y (set_assoc x m' es) = assoc y es.
Proof.
  intros Hne. induction es as [|[z k] es IH]; simpl; [reflexivity|].
  destruct (String.eqb x z) eqn:E; simpl.
  - apply String.eqb_eq in E. subst z.
    apply String.eqb_neq in Hne. now rewrite Hne.
  - now rewrite IH.
Qed.

Lemma assoc_app_other (x y : string) (m : node) (es : list (string * node)) :
  y <> x -> assoc y (es ++ [(x, m)]) = assoc y es.
Proof.
  intros Hne. induction es as [|[z k] es IH]; simpl.
  - apply String.eqb_neq in Hne. now rewrite Hne.
  - now rewrite IH.
Qed.

Lemma assoc_app_new (x : string) (m : node) (es : list (string * node)) :
  assoc x es = None -> assoc x (es ++ [(x, m)]) = Some m.
Proof.
  induction es as [|[z k] es IH]; simpl.
  - now rewrite String.eqb_refl.
  - destruct (String.eqb x z); [discriminate|exact IH].
Qed.

Lemma lookup_app (a b : path) (n : node) :
  lookup (a ++ b) n
  = match lookup a n with Some m => lookup b m | None => None end.
Proof.
  revert n; induction a as [|x a IH]; intros n; [reflexivity|].
  simpl. destruct n as [f|es]; [reflexivity|].
  destruct (assoc x es); [apply IH|reflexivity].
Qed.

Lemma file_at_cons (x : string) (p : path) (es : list (string * node)) :
  file_at (x :: p) (Dir es)
  = match assoc x es with Some m => file_at p m | None => None end.
Proof. unfold file_at. simpl. now destruct (assoc x es). Qed.

(** Writing to [p] leaves every other regular file as it was. *)
Lemma put_frame (p : path) (f : file) :
  forall n n' q, put p f n = Some n' -> q <> p ->
                 file_at q n' = file_at q n.
Proof.
  induction p as [|x p IH]; intros n n' q Hput Hne.
  - destruct n as [f0|es]; [|discriminate]. injection Hput as <-.
    destruct q; [congruence|reflexivity].
  - destruct n as [f0|es]; [discriminate|]. simpl in Hput.
    destruct q as [|y q]; [destruct (assoc x es) as [m|] eqn:Ea|].
    + destruct (put p f m); [|discriminate]. now injection Hput as <-.
    + destruct p; [|discriminate]. now injection Hput as <-.
    + destruct (String.eqb y x) eqn:Eyx.
      * apply String.eqb_eq in Eyx. subst y.
        destruct (assoc x es) as [m|] eqn:Ea.
        -- destruct (put p f m) as [m'|] eqn:Ep; [|discriminate].
           injection Hput as <-.
           rewrite !file_at_cons, (assoc_set_same _ _ _ _ Ea), Ea.
           apply (IH _ _ _ Ep). congruence.
        -- destruct p; [|discriminate]. injection Hput as <-.
           rewrite !file_at_cons, (assoc_app_new _ _ _ Ea), Ea.
           destruct q; [congruence|reflexivity].
      * apply String.eqb_neq in Eyx.
        destruct (assoc x es) as [m|] eqn:Ea.
        -- destruct (put p f m) as [m'|]; [|discriminate].
           injection Hput as <-.
           now rewrite !file_at_cons, assoc_set_other.
        -- destruct p; [|discriminate]. injection Hput as <-.
           now rewrite !file_at_cons, assoc_app_other.
Qed.

(** Writing to an existing regular file succeeds, stores the file, and
    neither creates nor removes a name. *)
Lemma put_existing (p : path) (f : file) :
  forall n f0, file_at p n = Some f0 ->
    exists n', put p f n = Some n'
               /\ file_at p n' = Some f
               /\ forall q, lookup q n' = None <-> lookup q n = None.
Proof.
  induction p as [|x p IH]; intros n f0 H.
  - destruct n as [g|es]; [|discriminate]. exists (File f).
    repeat split; destruct q; simpl; auto; discriminate.
  - destruct n as [g|es]; [discriminate|]. rewrite file_at_cons in H.
    destruct (assoc x es) as [m|] eqn:Ea; [|discriminate].
    destruct (IH _ _ H) as (m' & Hput & Hat & Hshape).
    exists (Dir (set_assoc x m' es)). simpl. rewrite Ea, Hput.
    split; [reflexivity|]. split.
    + now rewrite file_at_cons, (assoc_set_same _ _ _ _ Ea).
    + intros [|y q]; simpl; [split; discriminate|].
      destruct (String.eqb y x) eqn:Eyx.
      * apply String.eqb_eq in Eyx. subst y.
        rewrite (assoc_set_same _ _ _ _ Ea), Ea. apply Hshape.
      * apply String.eqb_neq in Eyx. rewrite assoc_set_other by exact Eyx.
        reflexivity.
Qed.

Lemma strip_prefix_app (r q : path) : strip_prefix r (r ++ q) = Some q.
Proof.
  induction r as [|a r IH]; [reflexivity|]. simpl.
  now rewrite String.eqb_refl.
Qed.

Lemma strip_prefix_inv (r p q : path) :
  strip_prefix r p = Some q -> p = r ++ q.
Proof.
  revert p; induction r as [|a r IH]; intros p H.
  - now injection H as ->.
  - destruct p as [|b p]; [discriminate|]. simpl in H.
    destruct (String.eqb a b) eqn:E; [|discriminate].
    apply String.eqb_eq in E. subst b. now rewrite (IH _ H).
Qed.

(** [rglob] lists only names that match, below the directory. *)
Lemma rglob_sound (ext : string) (n : node) :
  forall here p, In p (rglob ext here n) ->
    exists x rest, p = here ++ x :: rest
                   /\ ends_with ext (last (x :: rest) EmptyString) = true.
Proof.
  induction n as [f|es IH] using node_nested_ind; intros here p H;
    [contradiction|].
  simpl in H. apply in_app_or in H as [H|H].
  - apply in_map_iff in H as ([x m] & <- & Hin).
    apply filter_In in Hin as [_ Hext]. now exists x, [].
  - apply in_flat_map in H as ([x m] & Hin & Hp).
    rewrite Forall_forall in IH.
    destruct (IH _ Hin _ _ Hp) as (y & rest & -> & Hext).
    exists x, (y :: rest). simpl fst. rewrite <- app_assoc. split;
      [reflexivity|exact Hext].
Qed.

(** [rglob] lists every regular file whose name matches. *)
Lemma rglob_complete (ext : string) (rest : path) :
  forall n here x f,
    file_at (x :: rest) n = Some f ->
    ends_with ext (last (x :: rest) EmptyString) = true ->
    In (here ++ x :: rest) (rglob ext here n).
Proof.
  induction rest as [|y rest IH]; intros n here x f Hf Hext.
  - destruct n as [g|es]; [discriminate|]. rewrite file_at_cons in Hf.
    destruct (assoc x es) as [m|] eqn:Ea; [|discriminate].
    simpl. apply in_or_app. left.
    apply in_map_iff. exists (x, m). split; [reflexivity|].
    apply filter_In. split; [now apply assoc_In|exact Hext].
  - destruct n as [g|es]; [discriminate|]. rewrite file_at_cons in Hf.
    destruct (assoc x es) as [m|] eqn:Ea; [|discriminate].
    simpl. apply in_or_app. right.
    apply in_flat_map. exists (x, m). split; [now apply assoc_In|].
    simpl fst. simpl snd.
    replace (here ++ x :: y :: rest) with ((here ++ [x]) ++ y :: rest)
      by now rewrite <- app_assoc.
    now apply (IH m _ y f).
Qed.

(** *** The shape of the tree *)

Lemma assoc_shape (x : string) (es : list (string * node)) :
  assoc x (map (fun e => (fst e, shape (snd e))) es)
  = option_map shape (assoc x es).
Proof.
  induction es as [|[y m] es IH]; [reflexivity|]. simpl.
  now destruct (String.eqb x y).
Qed.

Lemma lookup_shape (p : path) :
  forall n, lookup p (shape n) = option_map shape (lookup p n).
Proof.
  induction p as [|x p IH]; intros n; [reflexivity|].
  destruct n as [f|es]; [reflexivity|]. simpl.
  rewrite assoc_shape. destruct (assoc x es) as [m|]; [apply IH|reflexivity].
Qed.

Lemma is_file_at_shape (p : path) (n : node) :
  is_file_at p (shape n) = is_file_at p n.
Proof.
  unfold is_file_at, file_at. rewrite lookup_shape.
  now destruct (lookup p n) as [[f|es]|].
Qed.

Lemma rglob_shape (ext : string) (n : node) :
  forall here, rglob ext here (shape n) = rglob ext here n.
Proof.
  induction n as [f|es IH] using node_nested_ind; intros here;
    [reflexivity|].
  simpl. f_equal.
  - clear IH. induction es as [|[x m] es IHes]; [reflexivity|].
    simpl. destruct (ends_with ext x); simpl; now rewrite IHes.
  - induction IH as [|[x m] es Hm _ IHes]; [reflexivity|].
    simpl in *. now rewrite Hm, IHes.
Qed.

Lemma set_assoc_shape (x : string) (m m' : node)
      (es : list (string * node)) :
  assoc x es = Some m -> shape m' = shape m ->
  map (fun e => (fst e, shape (snd e))) (set_assoc x m' es)
  = map (fun e => (fst e, shape (snd e))) es.
Proof.
  intros Ha Hs. induction es as [|[y k] es IH]; [reflexivity|].
  simpl in *. destruct (String.eqb x y).
  - injection Ha as ->. simpl. now rewrite Hs.
  - simpl. now rewrite IH.
Qed.

(** Overwriting a regular file keeps the shape. *)
Lemma put_shape (p : path) (f : file) :
  forall n n' f0, file_at p n = Some f0 -> put p f n = Some n' ->
                  shape n' = shape n.
Proof.
  induction p as [|x p IH]; intros n n' f0 Hf Hput.
  - destruct n as [g|es]; [|discriminate]. now injection Hput as <-.
  - destruct n as [g|es]; [discriminate|]. rewrite file_at_cons in Hf.
    simpl in Hput. destruct (assoc x es) as [m|] eqn:Ea; [|discriminate].
    destruct (put p f m) as [m'|] eqn:Ep; [|discriminate].
    injection Hput as <-. simpl. f_equal.
    apply (set_assoc_shape x m); [exact Ea|]. now apply (IH m m' f0).
Qed.

(** ** Loops *)

Lemma for_each_app {A} (a b : list A) (body : A -> M unit) (w : world) :
  for_each (a ++ b) body w
  = (for_each a body ;;; for_each b body) w.
Proof.
  revert w; induction a as [|x a IH]; intros w; [reflexivity|].
  simpl. unfold bind. destruct (body x w) as [[[]|e] w1]; [|reflexivity].
  rewrite IH. reflexivity.
Qed.

Lemma foldM_app {A B} (body : B -> A -> M B) (a b : list A) (acc : B)
      (w : world) :
  foldM body (a ++ b) acc w
  = (acc' <- foldM body a acc ;; foldM body b acc') w.
Proof.
  revert acc w; induction a as [|x a IH]; intros acc w; [reflexivity|].
  simpl. unfold bind. destruct (body acc x w) as [[acc1|e] w1];
    [|reflexivity].
  rewrite IH. reflexivity.
Qed.

(** An invariant of the loop, indexed by the elements still to visit;
    [E] holds of the world in which an exception escapes. *)
Lemma foldM_inv {A B} (body : B -> A -> M B)
      (I : list A -> B -> world -> Prop) (E : world -> Prop) :
  (forall x l b w, I (x :: l) b w ->
     match body b x w with
     | (Ok b', w') => I l b' w'
     | (Raise _, w') => E w'
     end) ->
  forall l b w, I l b w ->
    match foldM body l b w with
    | (Ok b', w') => I [] b' w'
    | (Raise _, w') => E w'
    end.
Proof.
  intros Hstep l. induction l as [|x l IH]; intros b w HI; [exact HI|].
  simpl. unfold bind. specialize (Hstep _ _ _ _ HI).
  destruct (body b x w) as [[b'|e] w']; [now apply IH|exact Hstep].
Qed.

Lemma for_each_inv {A} (body : A -> M unit) (I : world -> Prop) :
  (forall x w, I w -> I (snd (body x w))) ->
  forall l w, I w -> I (snd (for_each l body w)).
Proof.
  intros Hstep l. induction l as [|x l IH]; intros w HI; [exact HI|].
  simpl. unfold bind. specialize (Hstep x _ HI).
  destruct (body x w) as [[[]|e] w']; [now apply IH|exact Hstep].
Qed.

(** ** Comparing worlds *)

Lemma only_touches_refl (scope : path -> bool) (w : world) :
  only_touches scope w w.
Proof.
  split; [|reflexivity]. exists []. now rewrite app_nil_r.
Qed.

Lemma only_touches_trans (scope : path -> bool) (w1 w2 w3 : world) :
  only_touches scope w1 w2 -> only_touches scope w2 w3 ->
  only_touches scope w1 w3.
Proof.
  intros [(e1 & L1 & F1) K1] [(e2 & L2 & F2) K2]. split.
  - exists (e1 ++ e2). rewrite L2, L1, app_assoc. split; [reflexivity|].
    apply Forall_app. now split.
  - intros q Hq. now rewrite K2, K1.
Qed.

Lemma untouched_refl (p : path) (w : world) : untouched p w w.
Proof.
  split; [reflexivity|]. exists []. rewrite app_nil_r. now split.
Qed.

Lemma untouched_trans (p : path) (w1 w2 w3 : world) :
  untouched p w1 w2 -> untouched p w2 w3 -> untouched p w1 w3.
Proof.
  intros [K1 (e1 & L1 & N1)] [K2 (e2 & L2 & N2)]. split.
  - now rewrite K2, K1.
  - exists (e1 ++ e2). rewrite L2, L1, app_assoc. split; [reflexivity|].
    intros [H|H]%in_app_or; tauto.
Qed.

Lemma same_names_refl (w : world) : same_names w w.
Proof. intros q. reflexivity. Qed.

Lemma same_names_trans (w1 w2 w3 : world) :
  same_names w1 w2 -> same_names w2 w3 -> same_names w1 w3.
Proof.
  intros H1 H2 q. split; intros H.
  - now apply H1, H2.
  - now apply H2, H1.
Qed.

Lemma str_eqb_neq (a b : str) : str_eqb a b = false <-> a <> b.
Proof.
  split.
  - intros H E. apply str_eqb_eq in E. congruence.
  - intros H. destruct (str_eqb a b) eqn:E; [|reflexivity].
    now apply str_eqb_eq in E.
Qed.

Lemma file_at_lookup (p : path) (n : node) (f : file) :
  file_at p n = Some f -> lookup p n = Some (File f).
Proof.
  unfold file_at. destruct (lookup p n) as [[g|es]|]; congruence.
Qed.

(** ** One file of Renamer B *)

Section UpdateOneFile.

Import UpdateImports.

Variable unicode_alnum : char -> bool.

Local Abbreviation update := (update_content unicode_alnum).

(** The three ways a call of [update_imports_in_file] can go. *)
Lemma update_imports_in_file_cases (p : path) (w : world) :
  (file_at p (w_fs w) = None
   /\ update_imports_in_file unicode_alnum p w = (Raise (OSError p), w))
  \/ (exists f, file_at p (w_fs w) = Some f
        /\ update (file_text f) = file_text f
        /\ update_imports_in_file unicode_alnum p w
           = (Ok false,
              mkWorld (w_fs w) (w_clock w) (w_log w ++ [EvRead p])
                      (w_out w)))
  \/ (exists f fs', file_at p (w_fs w) = Some f
        /\ update (file_text f) <> file_text f
        /\ put p (mkFile (update (file_text f)) (w_clock w)) (w_fs w)
           = Some fs'
        /\ update_imports_in_file unicode_alnum p w
           = (Ok true,
              mkWorld fs' (S (w_clock w))
                      (w_log w ++ [EvRead p; EvWrite p]) (w_out w))).
Proof.
  unfold update_imports_in_file, bind, read_text.
  destruct (file_at p (w_fs w)) as [f|] eqn:Hf; [right|now left].
  fold (file_text f).
  destruct (str_eqb (update (file_text f)) (file_text f)) eqn:E.
  - left. exists f. apply str_eqb_eq in E. now repeat split.
  - right. apply str_eqb_neq in E.
    destruct (put_existing p (mkFile (update (file_text f)) (w_clock w))
                _ _ Hf) as (fs' & Hput & _).
    exists f, fs'. repeat split; [exact E|exact Hput|].
    simpl. unfold write_text. simpl. rewrite Hput.
    now rewrite <- app_assoc.
Qed.

(** A call opens its file and nothing else. *)
Lemma update_imports_in_file_frame (p : path) (w : world) :
  let w' := snd (update_imports_in_file unicode_alnum p w) in
  (exists evs, w_log w' = w_log w ++ evs
               /\ Forall (fun e => event_path e = p) evs)
  /\ (forall q, q <> p -> file_at q (w_fs w') = file_at q (w_fs w))
  /\ same_names w w'.
Proof.
  destruct (update_imports_in_file_cases p w)
    as [[_ ->]|[(f & _ & _ & ->)|(f & fs' & Hf & _ & Hput & ->)]];
    simpl.
  - split; [exists []; now rewrite app_nil_r|].
    split; [reflexivity|apply same_names_refl].
  - split; [exists [EvRead p]; split; [reflexivity|now repeat constructor]|].
    split; [reflexivity|intros q; reflexivity].
  - split;
      [exists [EvRead p; EvWrite p];
       split; [reflexivity|now repeat constructor]|].
    split; [intros q Hq; now apply (put_frame _ _ _ _ _ Hput)|].
    destruct (put_existing p (mkFile (update (file_text f)) (w_clock w))
                _ _ Hf) as (fs'' & Hput' & _ & Hnames).
    intros q. simpl. now replace fs' with fs'' by congruence.
Qed.

End UpdateOneFile.

Lemma foldM_world {A B} (body : B -> A -> M B) (I : world -> Prop)
      (l : list A) :
  (forall x b w, In x l -> I w -> I (snd (body b x w))) ->
  forall b w, I w -> I (snd (foldM body l b w)).
Proof.
  induction l as [|x l IH]; intros Hstep b w HI; [exact HI|].
  simpl. unfold bind.
  pose proof (Hstep x b w (or_introl eq_refl) HI) as H1.
  destruct (body b x w) as [[b'|e] w']; [|exact H1].
  apply IH; [|exact H1]. intros y c v Hy. apply Hstep. now right.
Qed.

Lemma for_each_print {A} (g : A -> string) (l : list A) (w : world) :
  for_each l (fun x => print (g x)) w
  = (Ok tt,
     mkWorld (w_fs w) (w_clock w) (w_log w) (w_out w ++ map g l)).
Proof.
  revert w; induction l as [|x l IH]; intros w.
  - simpl. unfold ret. rewrite app_nil_r. now destruct w.
  - simpl. unfold bind, print. rewrite IH. simpl.
    now rewrite <- app_assoc.
Qed.

(** ** A run of Renamer B *)

Section UpdateRun.

Import UpdateImports.

Variable unicode_alnum : char -> bool.

Local Abbreviation update := (update_content unicode_alnum).
Local Abbreviation visit1 := (visit unicode_alnum).
Local Abbreviation visit_pkg := (visit_package unicode_alnum).

Lemma main_on_run (pkgs : list string) (w : world) :
  main_on unicode_alnum pkgs w
  = match foldM visit_pkg pkgs [] w with
    | (Ok l, w1) =>
        (Ok l, mkWorld (w_fs w1) (w_clock w1) (w_log w1)
                       (w_out w1 ++ report l))
    | (Raise e, w1) => (Raise e, w1)
    end.
Proof.
  unfold main_on, bind.
  destruct (foldM visit_pkg pkgs [] w) as [[l|e] w1]; [|reflexivity].
  unfold print at 1. rewrite for_each_print. unfold report. simpl.
  now rewrite <- app_assoc.
Qed.

Lemma visit_world (acc : list path) (x : path) (w : world) :
  snd (visit1 acc x w)
  = snd (update_imports_in_file unicode_alnum x w).
Proof.
  unfold visit, bind.
  destruct (update_imports_in_file unicode_alnum x w) as [[[]|e] w'];
    try reflexivity.
  unfold relative_to. now destruct (strip_prefix root x).
Qed.

(** What a visit returns. *)
Lemma visit_result (acc : list path) (x : path) (w : world) :
  forall acc', fst (visit1 acc x w) = Ok acc' ->
    (acc' = acc
     /\ exists f, file_at x (w_fs w) = Some f
                  /\ update (file_text f) = file_text f)
    \/ (exists rel f,
          acc' = acc ++ [rel] /\ x = root ++ rel
          /\ file_at x (w_fs w) = Some f
          /\ update (file_text f) <> file_text f
          /\ file_at x (w_fs (snd (visit1 acc x w)))
             = Some (mkFile (update (file_text f)) (w_clock w))).
Proof.
  intros acc'. unfold visit, bind.
  destruct (update_imports_in_file_cases unicode_alnum x w)
    as [[_ ->]|[(f & Hf & Hu & ->)|(f & fs' & Hf & Hu & Hput & ->)]];
    simpl.
  - discriminate.
  - intros [= <-]. left. split; [reflexivity|now exists f].
  - unfold relative_to.
    destruct (strip_prefix root x) as [rel|] eqn:Hrel; simpl;
      [|discriminate].
    intros [= <-]. right. exists rel, f.
    repeat split; try assumption.
    + exact (strip_prefix_inv root x rel Hrel).
    + destruct (put_existing x
                  (mkFile (update (file_text f)) (w_clock w))
                  _ _ Hf) as (fs'' & Hput' & Hat & _).
      now replace fs' with fs'' by congruence.
Qed.

Lemma in_scope_of_rglob (pkgs : list string) (pkg : string) (n : node)
      (x : path) :
  In pkg pkgs ->
  In x (rglob ".go" (joinpath internal_dir [pkg]) n) ->
  in_scope_of pkgs x = true.
Proof.
  intros Hpkg Hx.
  destruct (rglob_sound _ _ _ _ Hx) as (y & rest & -> & Hext).
  unfold in_scope_of, joinpath. rewrite <- app_assoc.
  rewrite strip_prefix_app. simpl app.
  apply andb_true_iff. split; [|exact Hext].
  apply existsb_exists. exists pkg. split; [exact Hpkg|].
  apply String.eqb_refl.
Qed.

(** The shape of a package visit. *)
Lemma visit_package_run (acc : list path) (pkg : string) (w : world) :
  visit_pkg acc pkg w
  = match lookup (joinpath internal_dir [pkg]) (w_fs w) with
    | None => (Ok acc, w)
    | Some n =>
        foldM visit1 (rglob ".go" (joinpath internal_dir [pkg]) n) acc w
    end.
Proof.
  unfold visit_package, bind, path_exists, rglob_at. cbv zeta.
  destruct (lookup (joinpath internal_dir [pkg]) (w_fs w)) eqn:E;
    cbn [negb]; [rewrite E|]; reflexivity.
Qed.

(** Nothing is printed before the loops end. *)
Lemma visit_out (acc : list path) (x : path) (w : world) :
  w_out (snd (visit1 acc x w)) = w_out w.
Proof.
  rewrite visit_world.
  destruct (update_imports_in_file_cases unicode_alnum x w)
    as [[_ ->]|[(f & _ & _ & ->)|(f & fs' & _ & _ & _ & ->)]];
    reflexivity.
Qed.

Lemma visit_package_out (acc : list path) (pkg : string) (w : world) :
  w_out (snd (visit_pkg acc pkg w)) = w_out w.
Proof.
  rewrite visit_package_run.
  destruct (lookup (joinpath internal_dir [pkg]) (w_fs w)) as [n|];
    [|reflexivity].
  apply (foldM_world visit1 (fun v => w_out v = w_out w));
    [|reflexivity].
  intros x b v _ Hv. now rewrite visit_out.
Qed.

(** *** Only files in scope are opened *)

Lemma visit_only_touches (scope : path -> bool) (acc : list path)
      (x : path) (w : world) :
  scope x = true -> only_touches scope w (snd (visit1 acc x w)).
Proof.
  intros Hx. rewrite visit_world.
  destruct (update_imports_in_file_frame unicode_alnum x w)
    as ((evs & Hlog & Hev) & Hframe & _).
  split.
  - exists evs. split; [exact Hlog|].
    eapply Forall_impl; [|exact Hev]. now intros e ->.
  - intros q Hq. apply Hframe. congruence.
Qed.

Lemma visit_package_only_touches (pkgs : list string) (acc : list path)
      (pkg : string) (w : world) :
  In pkg pkgs ->
  only_touches (in_scope_of pkgs) w (snd (visit_pkg acc pkg w)).
Proof.
  intros Hpkg. rewrite visit_package_run.
  destruct (lookup (joinpath internal_dir [pkg]) (w_fs w)) as [n|];
    [|apply only_touches_refl].
  apply (foldM_world visit1 (only_touches (in_scope_of pkgs) w));
    [|apply only_touches_refl].
  intros x b v Hx Hv.
  apply (only_touches_trans _ _ _ _ Hv), visit_only_touches.
  now apply (in_scope_of_rglob pkgs pkg n).
Qed.

Lemma main_on_only_touches (pkgs : list string) (w : world) :
  only_touches (in_scope_of pkgs) w (snd (main_on unicode_alnum pkgs w)).
Proof.
  rewrite main_on_run.
  pose proof (foldM_world visit_pkg (only_touches (in_scope_of pkgs) w)
                pkgs) as H.
  specialize (H (fun x b v Hx Hv =>
    only_touches_trans _ _ _ _ Hv
      (visit_package_only_touches pkgs b x v Hx)) [] w
    (only_touches_refl _ w)).
  destruct (foldM visit_pkg pkgs [] w) as [[l|e] w1]; exact H.
Qed.

End UpdateRun.

Lemma foldM_guarded {A B} (body : B -> A -> M B) (W : world -> Prop)
      (P : B -> Prop) (l : list A) :
  (forall x b v, In x l -> W v -> P b ->
     W (snd (body b x v))
     /\ forall b', fst (body b x v) = Ok b' -> P b') ->
  forall b v, W v -> P b ->
    W (snd (foldM body l b v))
    /\ forall b', fst (foldM body l b v) = Ok b' -> P b'.
Proof.
  induction l as [|x l IH]; intros Hstep b v HW HP.
  - simpl. split; [exact HW|]. now intros b' [= <-].
  - simpl. unfold bind.
    destruct (Hstep x b v (or_introl eq_refl) HW HP) as [HW1 HP1].
    destruct (body b x v) as [[b1|e] v1]; simpl in *.
    + apply IH; [|exact HW1|now apply HP1].
      intros y c u Hy. apply Hstep. now right.
    + split; [exact HW1|discriminate].
Qed.

Section UpdateRunFile.

Import UpdateImports.

Variable unicode_alnum : char -> bool.

Local Abbreviation update := (update_content unicode_alnum).
Local Abbreviation visit1 := (visit unicode_alnum).
Local Abbreviation visit_pkg := (visit_package unicode_alnum).

(** *** A file that the substitutions leave as it is *)

Section Unchanged.

Variables (p rel : path) (f0 : file).
Hypothesis p_rel : p = root ++ rel.
Hypothesis f0_fixed : update (file_text f0) = file_text f0.

Lemma visit_untouched (acc : list path) (x : path) (w : world) :
  file_at p (w_fs w) = Some f0 ->
  untouched p w (snd (visit1 acc x w)).
Proof.
  intros Hf. rewrite visit_world.
  destruct (list_eq_dec string_dec x p) as [->|Hne].
  - destruct (update_imports_in_file_cases unicode_alnum p w)
      as [[_ ->]|[(f & _ & _ & ->)|(f & fs' & Hf' & Hu & _)]]; simpl.
    + apply untouched_refl.
    + split; [reflexivity|]. exists [EvRead p].
      split; [reflexivity|]. now intros [H|[]].
    + exfalso. apply Hu. congruence.
  - destruct (update_imports_in_file_frame unicode_alnum x w)
      as ((evs & Hlog & Hev) & Hframe & _).
    split; [apply Hframe; congruence|].
    exists evs. split; [exact Hlog|]. intros Hin.
    rewrite Forall_forall in Hev. specialize (Hev _ Hin).
    simpl in Hev. congruence.
Qed.

Lemma visit_not_recorded (acc : list path) (x : path) (w : world) :
  file_at p (w_fs w) = Some f0 -> ~ In rel acc ->
  forall acc', fst (visit1 acc x w) = Ok acc' -> ~ In rel acc'.
Proof.
  intros Hf Hacc acc' Hres.
  destruct (visit_result unicode_alnum acc x w acc' Hres)
    as [[-> _]|(rel' & f & -> & Hx & Hf' & Hu & _)]; [exact Hacc|].
  intros [H|[H|[]]]%in_app_or; [tauto|]. subst rel'.
  apply Hu. rewrite <- p_rel in Hx. subst x. congruence.
Qed.

Lemma foldM_visit_unchanged (l : list path) (acc : list path)
      (w : world) :
  file_at p (w_fs w) = Some f0 -> ~ In rel acc ->
  untouched p w (snd (foldM visit1 l acc w))
  /\ forall acc', fst (foldM visit1 l acc w) = Ok acc' ->
                  ~ In rel acc'.
Proof.
  intros Hf Hacc.
  apply (foldM_guarded visit1 (untouched p w) (fun b => ~ In rel b));
    [|apply untouched_refl|exact Hacc].
  intros x b v _ Hv Hb.
  assert (Hfv : file_at p (w_fs v) = Some f0)
    by (destruct Hv as [-> _]; exact Hf).
  split.
  - apply (untouched_trans _ _ _ _ Hv). now apply visit_untouched.
  - now apply visit_not_recorded.
Qed.

Lemma visit_package_unchanged (acc : list path) (pkg : string)
      (w : world) :
  file_at p (w_fs w) = Some f0 -> ~ In rel acc ->
  untouched p w (snd (visit_pkg acc pkg w))
  /\ forall acc', fst (visit_pkg acc pkg w) = Ok acc' ->
                  ~ In rel acc'.
Proof.
  intros Hf Hacc. rewrite visit_package_run.
  destruct (lookup (joinpath internal_dir [pkg]) (w_fs w)) as [n|].
  - now apply foldM_visit_unchanged.
  - simpl. split; [apply untouched_refl|]. now intros acc' [= <-].
Qed.

Lemma main_on_unchanged (pkgs : list string) (w : world) :
  file_at p (w_fs w) = Some f0 ->
  untouched p w (snd (main_on unicode_alnum pkgs w))
  /\ forall l, fst (main_on unicode_alnum pkgs w) = Ok l -> ~ In rel l.
Proof.
  intros Hf. rewrite main_on_run.
  destruct (foldM_guarded visit_pkg (untouched p w)
              (fun b => ~ In rel b) pkgs) with (b := @nil path) (v := w)
    as [HW HP]; [|apply untouched_refl|now intros []|].
  - intros x b v _ Hv Hb.
    assert (Hfv : file_at p (w_fs v) = Some f0)
      by (destruct Hv as [-> _]; exact Hf).
    destruct (visit_package_unchanged b x v Hfv Hb) as [H1 H2].
    split; [exact (untouched_trans _ _ _ _ Hv H1)|exact H2].
  - destruct (foldM visit_pkg pkgs [] w) as [[l|e] w1]; simpl in *.
    + split; [exact HW|]. intros l' [= <-]. now apply HP.
    + split; [exact HW|discriminate].
Qed.

End Unchanged.

End UpdateRunFile.

Section UpdateRunTarget.

Import UpdateImports.

Variable unicode_alnum : char -> bool.

Local Abbreviation update := (update_content unicode_alnum).
Local Abbreviation visit1 := (visit unicode_alnum).
Local Abbreviation visit_pkg := (visit_package unicode_alnum).

(** *** A file that the substitutions change, once

    The file at [p] reads as [X]; the run turns [X] into [Y], and [Y]
    is read back and updated to itself. *)

Variables (X Y : str).
Hypothesis X_to_Y : update X = Y.
Hypothesis Y_new : Y <> X.
Hypothesis Y_read : universal_newlines Y = Y.
Hypothesis Y_fixed : update Y = Y.

Variables (pkg name : string) (more : path).
Hypothesis name_go :
  ends_with ".go" (last (name :: more) EmptyString) = true.

Local Abbreviation rel := (Path "internal" ++ pkg :: name :: more).
Local Abbreviation p := (root ++ rel).

Local Abbreviation before v :=
  (exists f, file_at p (w_fs v) = Some f /\ file_text f = X).
Local Abbreviation after v acc :=
  (exists t, file_at p (w_fs v) = Some (mkFile Y t) /\ In rel acc).

Lemma visit_other (acc : list path) (x : path) (v : world) :
  x <> p ->
  file_at p (w_fs (snd (visit1 acc x v))) = file_at p (w_fs v).
Proof.
  intros Hne. rewrite visit_world.
  destruct (update_imports_in_file_frame unicode_alnum x v)
    as (_ & Hframe & _).
  apply Hframe. congruence.
Qed.

Lemma visit_grows (acc : list path) (x : path) (v : world) :
  forall acc', fst (visit1 acc x v) = Ok acc' ->
               In rel acc -> In rel acc'.
Proof.
  intros acc' Hres Hin.
  destruct (visit_result unicode_alnum acc x v acc' Hres)
    as [[-> _]|(rel' & f & -> & _)]; [exact Hin|].
  apply in_or_app. now left.
Qed.

Lemma visit_after (acc : list path) (x : path) (v : world) :
  after v acc ->
  forall acc', fst (visit1 acc x v) = Ok acc' ->
               after (snd (visit1 acc x v)) acc'.
Proof.
  intros (t & Hf & Hin) acc' Hres.
  exists t. split; [|now apply (visit_grows acc x v)].
  assert (Hfix : update (file_text (mkFile Y t)) = file_text (mkFile Y t))
    by (unfold file_text; simpl; now rewrite Y_read).
  destruct (visit_untouched unicode_alnum p (mkFile Y t) Hfix acc x v Hf)
    as [-> _].
  exact Hf.
Qed.

Lemma visit_target_step (x : path) (l acc : list path) (v : world) :
  (before v /\ In p (x :: l)) \/ after v acc ->
  match visit1 acc x v with
  | (Ok acc', v') => (before v' /\ In p l) \/ after v' acc'
  | (Raise _, _) => True
  end.
Proof.
  intros H.
  pose proof (visit_result unicode_alnum acc x v) as Hres.
  pose proof (visit_after acc x v) as Haft.
  pose proof (visit_other acc x v) as Hoth.
  destruct (visit1 acc x v) as [[acc'|e] v'] eqn:E; [|exact I].
  cbn [fst snd] in *. specialize (Hres acc' eq_refl).
  destruct H as [[(f & Hf & Hx) Hin]|H]; [|right; now apply Haft].
  destruct (list_eq_dec string_dec x p) as [->|Hne].
  - right.
    destruct Hres as [[_ (f' & Hf' & Hu)]|(rel' & f' & -> & Hp & Hf' & _ & Hw)].
    + exfalso. apply Y_new. rewrite <- X_to_Y.
      replace f' with f in Hu by congruence. now rewrite Hx in Hu.
    + apply app_inv_head in Hp. subst rel'.
      replace f' with f in Hw by congruence.
      rewrite Hx, X_to_Y in Hw.
      exists (w_clock v). split; [exact Hw|].
      apply in_or_app. right. now left.
  - left. split.
    + exists f. rewrite (Hoth Hne). now split.
    + destruct Hin as [Hin|Hin]; [congruence|exact Hin].
Qed.

Lemma foldM_visit_target (l acc : list path) (v : world) :
  (before v /\ In p l) \/ after v acc ->
  match foldM visit1 l acc v with
  | (Ok acc', v') => after v' acc'
  | (Raise _, _) => True
  end.
Proof.
  intros H.
  pose proof (foldM_inv visit1
    (fun rest acc v => (before v /\ In p rest) \/ after v acc)
    (fun _ => True) visit_target_step l acc v H) as Hend.
  destruct (foldM visit1 l acc v) as [[acc'|e] v']; [|exact I].
  destruct Hend as [[_ []]|Hend]. exact Hend.
Qed.

Lemma package_dir_of_target :
  p = joinpath internal_dir [pkg] ++ name :: more.
Proof.
  unfold joinpath, internal_dir, joinpath.
  now rewrite <- !app_assoc.
Qed.

Lemma rglob_other_package (k : string) (n : node) (x : path) :
  k <> pkg -> In x (rglob ".go" (joinpath internal_dir [k]) n) -> x <> p.
Proof.
  intros Hne Hx E.
  destruct (rglob_sound _ _ _ _ Hx) as (y & rest & Hxy & _).
  rewrite E, package_dir_of_target in Hxy. unfold joinpath in Hxy.
  rewrite <- !app_assoc in Hxy. apply app_inv_head in Hxy.
  simpl in Hxy. congruence.
Qed.

Lemma visit_package_target_step (k : string) (ks : list string)
      (acc : list path) (v : world) :
  (before v /\ In pkg (k :: ks)) \/ after v acc ->
  match visit_pkg acc k v with
  | (Ok acc', v') => (before v' /\ In pkg ks) \/ after v' acc'
  | (Raise _, _) => True
  end.
Proof.
  intros H. rewrite visit_package_run.
  destruct (lookup (joinpath internal_dir [k]) (w_fs v)) as [n|] eqn:El.
  - destruct H as [[(f & Hf & Hx) Hin]|H].
    + destruct (string_dec k pkg) as [->|Hne].
      * pose proof (foldM_visit_target
          (rglob ".go" (joinpath internal_dir [pkg]) n) acc v) as Hend.
        destruct (foldM visit1 _ acc v) as [[acc'|e] v']; [|exact I].
        right. apply Hend. left. split; [now exists f|].
        rewrite package_dir_of_target at 1.
        apply (rglob_complete ".go" more n _ name f); [|exact name_go].
        rewrite package_dir_of_target in Hf.
        unfold file_at in *. rewrite lookup_app, El in Hf. exact Hf.
      * pose proof (foldM_world visit1
          (fun v' => file_at p (w_fs v') = file_at p (w_fs v))
          (rglob ".go" (joinpath internal_dir [k]) n)) as Hsame.
        specialize (Hsame (fun x b u Hx' Hu =>
          eq_trans (visit_other b x u (rglob_other_package k n x Hne Hx'))
                   Hu) acc v eq_refl).
        destruct (foldM visit1 _ acc v) as [[acc'|e] v']; [|exact I].
        left. cbn [snd] in Hsame. cbv beta in Hsame. split.
        -- exists f. now rewrite Hsame.
        -- destruct Hin as [Hin|Hin]; [congruence|exact Hin].
    + pose proof (foldM_visit_target
          (rglob ".go" (joinpath internal_dir [k]) n) acc v
          (or_intror H)) as Hend.
      destruct (foldM visit1 _ acc v) as [[acc'|e] v']; [|exact I].
      now right.
  - destruct H as [[(f & Hf & Hx) Hin]|H]; [left|now right].
    split; [now exists f|].
    destruct Hin as [Hin|Hin]; [|exact Hin]. subst k. exfalso.
    rewrite package_dir_of_target in Hf.
    unfold file_at in Hf. rewrite lookup_app, El in Hf. discriminate.
Qed.

(** The changed file is written and reported. *)
Lemma main_on_target (pkgs : list string) (w : world) (f : file) :
  In pkg pkgs ->
  file_at p (w_fs w) = Some f -> file_text f = X ->
  forall l w', main_on unicode_alnum pkgs w = (Ok l, w') ->
    In rel l
    /\ (exists t, file_at p (w_fs w') = Some (mkFile Y t))
    /\ w_out w' = w_out w ++ report l.
Proof.
  intros Hpkg Hf Hx l w'. rewrite main_on_run.
  pose proof (foldM_inv visit_pkg
    (fun rest acc v => (before v /\ In pkg rest) \/ after v acc)
    (fun _ => True) visit_package_target_step pkgs [] w) as Hend.
  pose proof (foldM_world visit_pkg (fun v => w_out v = w_out w) pkgs
    (fun x b v _ Hv =>
       eq_trans (visit_package_out unicode_alnum b x v) Hv)
    [] w eq_refl) as Hout.
  destruct (foldM visit_pkg pkgs [] w) as [[l1|e] w1]; [|discriminate].
  intros [= <- <-]. cbn [snd w_fs w_out] in *.
  destruct Hend as [[_ []]|(t & Ht & Hin)];
    [left; split; [now exists f|exact Hpkg]|].
  split; [exact Hin|]. split; [now exists t|].
  now rewrite Hout.
Qed.

End UpdateRunTarget.

(** *** Missing packages *)

Section UpdateRunMissing.

Import UpdateImports.

Variable unicode_alnum : char -> bool.

Local Abbreviation visit1 := (visit unicode_alnum).
Local Abbreviation visit_pkg := (visit_package unicode_alnum).

Lemma visit_same_names (acc : list path) (x : path) (w : world) :
  same_names w (snd (visit1 acc x w)).
Proof.
  rewrite visit_world.
  now destruct (update_imports_in_file_frame unicode_alnum x w)
    as (_ & _ & H).
Qed.

Lemma visit_package_same_names (acc : list path) (pkg : string)
      (w : world) :
  same_names w (snd (visit_pkg acc pkg w)).
Proof.
  rewrite visit_package_run.
  destruct (lookup (joinpath internal_dir [pkg]) (w_fs w)) as [n|];
    [|apply same_names_refl].
  apply (foldM_world visit1 (same_names w)); [|apply same_names_refl].
  intros x b v _ Hv.
  exact (same_names_trans _ _ _ Hv (visit_same_names b x v)).
Qed.

Lemma visit_package_missing (acc : list path) (pkg : string) (w : world) :
  lookup (joinpath internal_dir [pkg]) (w_fs w) = None ->
  visit_pkg acc pkg w = (Ok acc, w).
Proof. intros H. now rewrite visit_package_run, H. Qed.

Lemma foldM_skip_missing (l1 l2 : list string) (pkg : string)
      (acc : list path) (w : world) :
  lookup (joinpath internal_dir [pkg]) (w_fs w) = None ->
  foldM visit_pkg (l1 ++ pkg :: l2) acc w
  = foldM visit_pkg (l1 ++ l2) acc w.
Proof.
  intros H. rewrite !foldM_app. unfold bind.
  pose proof (foldM_world visit_pkg (same_names w) l1
    (fun x b v _ Hv =>
       same_names_trans _ _ _ Hv (visit_package_same_names b x v))
    acc w (same_names_refl w)) as Hn.
  destruct (foldM visit_pkg l1 acc w) as [[acc1|e] w1]; [|reflexivity].
  cbn [snd] in Hn. cbn [foldM]. unfold bind.
  now rewrite visit_package_missing by (now apply Hn).
Qed.

Lemma main_on_skip_missing (l1 l2 : list string) (pkg : string)
      (w : world) :
  lookup (joinpath internal_dir [pkg]) (w_fs w) = None ->
  main_on unicode_alnum (l1 ++ pkg :: l2) w
  = main_on unicode_alnum (l1 ++ l2) w.
Proof.
  intros H. now rewrite !main_on_run, foldM_skip_missing.
Qed.

End UpdateRunMissing.

(** *** Runs that end without an exception *)

Lemma foldM_ok {A B} (body : B -> A -> M B) (I : world -> Prop)
(l : list A) :
(forall x b v, In x l -> I v ->
   exists b' v', body b x v = (Ok b', v') /\ I v') ->
forall b w, I w -> exists b' w', foldM body l b w = (Ok b', w') /\ I w'.
Proof.
induction l as [|x l IH]; intros Hstep b w HI.
- now exists b, w.
- destruct (Hstep x b w (or_introl eq_refl) HI) as (b1 & w1 & E & H1).
  simpl. unfold bind. rewrite E. apply IH; [|exact H1].
  intros y c v Hy. apply Hstep. now right.
Qed.

Lemma listed_regular_shape (pkgs : list string) (n n' : node) :
shape n' = shape n ->
UpdateImports.listed_regular pkgs n' = UpdateImports.listed_regular pkgs n.
Proof.
intros Hs. unfold UpdateImports.listed_regular.
induction pkgs as [|pkg pkgs IH]; [reflexivity|].
cbn [forallb]. rewrite IH. f_equal.
pose proof (lookup_shape (joinpath UpdateImports.internal_dir [pkg]) n')
  as H'.
rewrite Hs, lookup_shape in H'.
destruct (lookup _ n') as [m'|], (lookup _ n) as [m|];
  try discriminate; [|reflexivity].
injection H' as Hm.
rewrite <- (rglob_shape _ m'), <- (rglob_shape _ m), Hm.
generalize (rglob ".go" (joinpath UpdateImports.internal_dir [pkg])
              (shape m')).
intros xs. induction xs as [|x xs IHx]; [reflexivity|].
cbn [forallb]. rewrite IHx. f_equal.
now rewrite <- (is_file_at_shape x n'), <- (is_file_at_shape x n), Hs.
Qed.

Section UpdateRunOk.

Import UpdateImports.

Variable unicode_alnum : char -> bool.

Local Abbreviation visit1 := (visit unicode_alnum).
Local Abbreviation visit_pkg := (visit_package unicode_alnum).

Lemma visit_ok (acc : list path) (rel : path) (v : world) :
  is_file_at (root ++ rel) (w_fs v) = true ->
  exists acc' v',
    visit1 acc (root ++ rel) v = (Ok acc', v')
    /\ shape (w_fs v') = shape (w_fs v).
Proof.
  unfold is_file_at. intros Hf. unfold visit, bind.
  destruct (update_imports_in_file_cases unicode_alnum (root ++ rel) v)
    as [[Hn _]|[(f & _ & _ & ->)|(f & fs' & Hg & _ & Hput & ->)]].
  - now rewrite Hn in Hf.
  - now exists acc, (mkWorld (w_fs v) (w_clock v)
                       (w_log v ++ [EvRead (root ++ rel)]) (w_out v)).
  - unfold relative_to. rewrite strip_prefix_app.
    eexists _, _. split; [reflexivity|].
    exact (put_shape _ _ _ _ _ Hg Hput).
Qed.

Lemma visit_package_ok (pkgs : list string) (acc : list path)
      (pkg : string) (v : world) :
  In pkg pkgs -> listed_regular pkgs (w_fs v) = true ->
  exists acc' v',
    visit_pkg acc pkg v = (Ok acc', v')
    /\ shape (w_fs v') = shape (w_fs v).
Proof.
  intros Hpkg Hreg. rewrite visit_package_run.
  unfold listed_regular in Hreg. rewrite forallb_forall in Hreg.
  specialize (Hreg _ Hpkg).
  destruct (lookup (joinpath internal_dir [pkg]) (w_fs v)) as [n|];
    [|now exists acc, v].
  rewrite forallb_forall in Hreg.
  apply (foldM_ok visit1 (fun u => shape (w_fs u) = shape (w_fs v)));
    [|reflexivity].
  intros x b u Hx Hu.
  destruct (rglob_sound _ _ _ _ Hx) as (y & rest & -> & _).
  unfold joinpath, internal_dir, joinpath in *.
  rewrite <- !app_assoc in *.
  destruct (visit_ok b (Path "internal" ++ [pkg] ++ y :: rest) u)
    as (b' & u' & E & Hs).
  - rewrite <- is_file_at_shape, Hu, is_file_at_shape. now apply Hreg.
  - exists b', u'. split; [exact E|]. now rewrite Hs.
Qed.

Lemma main_on_ok (pkgs : list string) (w : world) :
  listed_regular pkgs (w_fs w) = true ->
  exists l w', main_on unicode_alnum pkgs w = (Ok l, w').
Proof.
  intros Hreg. rewrite main_on_run.
  destruct (foldM_ok visit_pkg (fun v => shape (w_fs v) = shape (w_fs w))
              pkgs) with (b := @nil path) (w := w)
    as (l & w1 & E & _); [|reflexivity|].
  - intros x b v Hx Hv.
    destruct (visit_package_ok pkgs b x v Hx) as (b' & v' & E & Hs).
    + now rewrite (listed_regular_shape pkgs _ _ Hv).
    + exists b', v'. split; [exact E|]. now rewrite Hs.
  - rewrite E. now eexists _, _.
Qed.

End UpdateRunOk.

(** ** A run of Renamer A *)

Section FixRun.

Import FixRenderer.

Local Abbreviation full fp := (joinpath root (Path fp)).

Lemma fix_file_missing (fp : string) (w : world) :
  lookup (full fp) (w_fs w) = None -> fix_file fp w = (Ok tt, w).
Proof.
  intros H. unfold fix_file, bind, path_exists. cbv zeta.
  now rewrite H.
Qed.

(** An entry that is a regular file is read and written back. *)
Lemma fix_file_existing (fp : string) (w : world) (f : file) :
  file_at (full fp) (w_fs w) = Some f ->
  exists fs',
    put (full fp) (mkFile (fix_content (file_text f)) (w_clock w))
        (w_fs w) = Some fs'
    /\ fix_file fp w
       = (Ok tt,
          mkWorld fs' (S (w_clock w))
                  (w_log w ++ [EvRead (full fp); EvWrite (full fp)])
                  (w_out w)).
Proof.
  intros Hf.
  destruct (put_existing (full fp)
              (mkFile (fix_content (file_text f)) (w_clock w)) _ _ Hf)
    as (fs' & Hput & _).
  exists fs'. split; [exact Hput|].
  unfold fix_file, bind, path_exists. cbv zeta.
  rewrite (file_at_lookup _ _ _ Hf). cbn [negb]. cbv beta iota.
  unfold read_text. rewrite Hf. cbv beta iota.
  unfold write_text. cbn [w_fs w_clock w_log w_out].
  fold (file_text f). rewrite Hput. now rewrite <- app_assoc.
Qed.

Lemma fix_file_same_names (fp : string) (w : world) :
  same_names w (snd (fix_file fp w)).
Proof.
  destruct (file_at (full fp) (w_fs w)) as [f|] eqn:Hf.
  - destruct (fix_file_existing fp w f Hf) as (fs' & Hput & ->).
    destruct (put_existing (full fp)
                (mkFile (fix_content (file_text f)) (w_clock w)) _ _ Hf)
      as (fs'' & Hput' & _ & Hn).
    intros q. cbn [snd w_fs]. now replace fs' with fs'' by congruence.
  - unfold fix_file, bind, path_exists. cbv zeta.
    destruct (lookup (full fp) (w_fs w)); cbn [negb]; cbv beta iota;
      [unfold read_text; rewrite Hf|]; apply same_names_refl.
Qed.

Lemma script_on_skip_missing (l1 l2 : list string) (fp : string)
      (w : world) :
  lookup (full fp) (w_fs w) = None ->
  script_on (l1 ++ fp :: l2) w = script_on (l1 ++ l2) w.
Proof.
  intros H. unfold script_on, bind. rewrite !for_each_app. unfold bind.
  pose proof (for_each_inv fix_file (same_names w)
    (fun x v Hv => same_names_trans _ _ _ Hv (fix_file_same_names x v))
    l1 w (same_names_refl w)) as Hn.
  destruct (for_each l1 fix_file w) as [[[]|e] w1]; [|reflexivity].
  cbn [snd] in Hn. cbn [for_each]. unfold bind.
  now rewrite fix_file_missing by (now apply Hn).
Qed.

End FixRun.

(** ** Links *)

Lemma path_eqb_refl (p : path) : path_eqb p p = true.
Proof. unfold path_eqb. now destruct (list_eq_dec string_dec p p). Qed.

Lemma path_eqb_eq (p q : path) : path_eqb p q = true -> p = q.
Proof.
unfold path_eqb. now destruct (list_eq_dec string_dec p q).
Qed.

Lemma target_of_In (ls : links) (p t : path) :
target_of ls p = Some t -> In (p, t) ls.
Proof.
induction ls as [|[a u] ls IH]; [discriminate|]. simpl.
destruct (path_eqb a p) eqn:E.
- intros [= ->]. apply path_eqb_eq in E. subst a. now left.
- intros H. right. now apply IH.
Qed.

(** A name that is not a link leads to itself. *)
Lemma resolve_no_link (ls : links) (p : path) :
target_of ls p = None -> resolve ls p = Some p.
Proof.
intros H. unfold resolve. destruct (length ls); simpl; now rewrite H.
Qed.

Lemma resolve_nil (p : path) : resolve [] p = Some p.
Proof. reflexivity. Qed.

(** Links that do not cross the boundary of [scope] lead from a name in
    scope to a file in scope, and from a name out of scope to a file out
    of scope. *)
Lemma resolve_within (scope : path -> bool) (ls : links) :
links_within scope ls = true ->
forall p q, resolve ls p = Some q -> scope q = scope p.
Proof.
intros Hw. unfold resolve. generalize (length ls) as fuel.
unfold links_within in Hw. rewrite forallb_forall in Hw.
induction fuel as [|k IH]; intros p q; simpl;
  destruct (target_of ls p) as [t|] eqn:E; try discriminate;
  try (now intros [= ->]).
intros H. rewrite (IH t q H).
specialize (Hw (p, t) (target_of_In ls p t E)). cbn [fst snd] in Hw.
symmetry. now apply Bool.eqb_prop.
Qed.

Lemma reached_within (scope : path -> bool) (ls : links) (fs fs' : node) :
links_within scope ls = true ->
(forall q, scope q = false -> file_at q fs' = file_at q fs) ->
forall q, scope q = false -> reached ls q fs' = reached ls q fs.
Proof.
intros Hw Hframe q Hq. unfold reached.
destruct (resolve ls q) as [t|] eqn:E; [|reflexivity].
apply Hframe. now rewrite (resolve_within scope ls Hw q t E).
Qed.

Section LinkedUpdateRun.

Import UpdateImports.

Variable unicode_alnum : char -> bool.
Variable ls : links.

Local Abbreviation lupdate :=
  (LinkedUpdateImports.update_imports_in_file unicode_alnum ls).
Local Abbreviation lvisit := (LinkedUpdateImports.visit unicode_alnum ls).
Local Abbreviation lvisit_pkg :=
  (LinkedUpdateImports.visit_package unicode_alnum ls).

(** Without links the run is the run of [UpdateImports.main_on]. *)
Lemma linked_main_on_nil (pkgs : list string) (w : world) :
  LinkedUpdateImports.main_on unicode_alnum [] pkgs w
  = main_on unicode_alnum pkgs w.
Proof. reflexivity. Qed.

Lemma linked_main_on_run (pkgs : list string) (w : world) :
  LinkedUpdateImports.main_on unicode_alnum ls pkgs w
  = match foldM lvisit_pkg pkgs [] w with
    | (Ok l, w1) =>
        (Ok l, mkWorld (w_fs w1) (w_clock w1) (w_log w1)
                       (w_out w1 ++ report l))
    | (Raise e, w1) => (Raise e, w1)
    end.
Proof.
  unfold LinkedUpdateImports.main_on, bind.
  destruct (foldM lvisit_pkg pkgs [] w) as [[l|e] w1]; [|reflexivity].
  unfold print at 1. rewrite for_each_print. unfold report. simpl.
  now rewrite <- app_assoc.
Qed.

Lemma linked_visit_world (acc : list path) (x : path) (w : world) :
  snd (lvisit acc x w) = snd (lupdate x w).
Proof.
  unfold LinkedUpdateImports.visit, bind.
  destruct (lupdate x w) as [[[]|e] w']; try reflexivity.
  unfold relative_to. now destruct (strip_prefix root x).
Qed.

(** A call opens the file its path leads to and nothing else. *)
Lemma linked_update_only_touches (scope : path -> bool) (x : path)
      (w : world) :
  (forall q, resolve ls x = Some q -> scope q = true) ->
  only_touches scope w (snd (lupdate x w)).
Proof.
  intros Hx. unfold LinkedUpdateImports.update_imports_in_file.
  destruct (resolve ls x) as [q|]; [|apply only_touches_refl].
  specialize (Hx q eq_refl).
  destruct (update_imports_in_file_frame unicode_alnum q w)
    as ((evs & Hlog & Hev) & Hframe & _).
  split.
  - exists evs. split; [exact Hlog|].
    eapply Forall_impl; [|exact Hev]. now intros e ->.
  - intros p Hp. apply Hframe. congruence.
Qed.

Lemma linked_visit_package_run (acc : list path) (pkg : string)
      (w : world) :
  lvisit_pkg acc pkg w
  = match lookup (joinpath internal_dir [pkg]) (w_fs w) with
    | None => (Ok acc, w)
    | Some n =>
        foldM lvisit (rglob ".go" (joinpath internal_dir [pkg]) n) acc w
    end.
Proof.
  unfold LinkedUpdateImports.visit_package, bind, path_exists, rglob_at.
  cbv zeta.
  destruct (lookup (joinpath internal_dir [pkg]) (w_fs w)) eqn:E;
    cbn [negb]; [rewrite E|]; reflexivity.
Qed.

Lemma linked_visit_package_only_touches (pkgs : list string)
      (acc : list path) (pkg : string) (w : world) :
  links_within (in_scope_of pkgs) ls = true ->
  In pkg pkgs ->
  only_touches (in_scope_of pkgs) w (snd (lvisit_pkg acc pkg w)).
Proof.
  intros Hw Hpkg. rewrite linked_visit_package_run.
  destruct (lookup (joinpath internal_dir [pkg]) (w_fs w)) as [n|];
    [|apply only_touches_refl].
  apply (foldM_world lvisit (only_touches (in_scope_of pkgs) w));
    [|apply only_touches_refl].
  intros x b v Hx Hv.
  apply (only_touches_trans _ _ _ _ Hv). rewrite linked_visit_world.
  apply linked_update_only_touches. intros q Hq.
  rewrite (resolve_within _ ls Hw x q Hq).
  now apply (in_scope_of_rglob pkgs pkg n).
Qed.

(** With links that stay within the scope, only files in scope are
    opened. *)
Lemma linked_main_on_only_touches (pkgs : list string) (w : world) :
  links_within (in_scope_of pkgs) ls = true ->
  only_touches (in_scope_of pkgs) w
    (snd (LinkedUpdateImports.main_on unicode_alnum ls pkgs w)).
Proof.
  intros Hw. rewrite linked_main_on_run.
  pose proof (foldM_world lvisit_pkg (only_touches (in_scope_of pkgs) w)
                pkgs) as H.
  specialize (H (fun x b v Hx Hv =>
    only_touches_trans _ _ _ _ Hv
      (linked_visit_package_only_touches pkgs b x v Hw Hx)) [] w
    (only_touches_refl _ w)).
  destruct (foldM lvisit_pkg pkgs [] w) as [[l|e] w1]; exact H.
Qed.

End LinkedUpdateRun.

(** * The claims *)

Section Claims.

Import Examples.

(** ** C1 *)




(** ** C2 *)

(** C2, as stated, fails for Renamer B: on two old import strings that
    share a double quote the second application changes the text
    again. *)
Lemma chained_import_not_idempotent :
  UpdateImports.update_content no_unicode
    (UpdateImports.update_content no_unicode UpdateImports.chained_import)
  <> UpdateImports.update_content no_unicode UpdateImports.chained_import.
Proof. intros H. vm_compute in H. discriminate. Qed.

(** C2, amended: applying Renamer A's transformation of a text twice
    gives the same text as applying it once, for every text; the same
    holds for Renamer B's transformation of every text that does not
    contain two old import strings sharing a double quote (the string
    ["github.com/jamesainslie/dot/pkg/dot"] directly followed by a copy
    of itself without its opening quote). *)
Theorem renamers_idempotent (unicode_alnum : char -> bool) (c : str) :
  FixRenderer.fix_content (FixRenderer.fix_content c)
  = FixRenderer.fix_content c
  /\ (contains UpdateImports.chained_import c = false ->
      UpdateImports.update_content unicode_alnum
        (UpdateImports.update_content unicode_alnum c)
      = UpdateImports.update_content unicode_alnum c).
Proof.
  split.
  - apply FixRendererFacts.fix_content_idempotent.
  - apply UpdateImportsFacts.update_content_idempotent.
Qed.

Lemma renamers_idempotent_witness :
  FixRenderer.fix_content (FixRenderer.fix_content both_imports)
  = FixRenderer.fix_content both_imports
  /\ UpdateImports.update_content no_unicode
       (UpdateImports.update_content no_unicode full_in)
     = UpdateImports.update_content no_unicode full_in.
Proof.
  split.
  - exact (proj1 (renamers_idempotent no_unicode both_imports)).
  - exact (proj2 (renamers_idempotent no_unicode full_in)
             ltac:(vm_compute; reflexivity)).
Defined.

(** ** C3 *)

(** C3: in a text [a ++ "dot." ++ b] whose part [a] ends with a word
    character, Renamer B keeps that occurrence of [dot.] and the
    character before it: the text it writes is the image of [a], then
    [dot.], then the image of [b], whether or not the identifier rewrite
    runs.  And every occurrence the rewrite exchanges for [domain.] has
    no word character before it. *)
Theorem inner_dot_kept (unicode_alnum : char -> bool) (a b : str) :
  is_word_opt unicode_alnum (last_seen None a) = true ->
  UpdateImports.update_content unicode_alnum (a ++ lit "dot." ++ b)
  = (if contains UpdateImports.new_marker
          (UpdateImports.replace_import (a ++ lit "dot." ++ b))
     then UpdateImports.rewrite_idents unicode_alnum
            (UpdateImports.replace_import a)
          ++ lit "dot."
          ++ scan (word_boundary unicode_alnum) (lit "dot.")
               (lit "domain.") (Some 46%N)
               (UpdateImports.replace_import b)
     else UpdateImports.replace_import a ++ lit "dot."
          ++ UpdateImports.replace_import b)
  /\ last_seen None (UpdateImports.replace_import a) = last_seen None a
  /\ last_seen None (UpdateImports.rewrite_idents unicode_alnum
                       (UpdateImports.replace_import a))
     = last_seen None a
  /\ forall s,
       Replaced (fun prev _ => negb (is_word_opt unicode_alnum prev))
                (lit "dot.") (lit "domain.") None s
                (UpdateImports.rewrite_idents unicode_alnum s).
Proof.
  intros Hw.
  pose proof (UpdateImportsFacts.replace_import_last_seen a) as Hl.
  split; [|split; [exact Hl|split]].
  - rewrite UpdateImportsFacts.update_content_gate.
    rewrite UpdateImportsFacts.replace_import_island.
    destruct (contains _ _); [|reflexivity].
    apply UpdateImportsFacts.rewrite_idents_island. now rewrite Hl.
  - now rewrite UpdateImportsFacts.rewrite_idents_last_seen.
  - intros s.
    apply (UpdateImportsFacts.Replaced_weaken
             (word_boundary unicode_alnum)).
    + intros q r H. cbn [hit lit map list_ascii_of_string app] in *.
      now rewrite <- UpdateImportsFacts.word_boundary_d.
    + apply scan_Replaced. discriminate.
Qed.

Lemma inner_dot_kept_witness :
  UpdateImports.update_content no_unicode
    (UpdateImports.old_import ++ lit " my" ++ lit "dot." ++ lit "Status")
  = UpdateImports.new_import ++ lit " my" ++ lit "dot." ++ lit "Status".
Proof.
  pose proof (proj1 (inner_dot_kept no_unicode
                       (UpdateImports.old_import ++ lit " my")
                       (lit "Status") eq_refl)) as H.
  rewrite <- app_assoc in H. rewrite H. vm_compute. reflexivity.
Defined.

(** ** C4 *)

(** C4: Renamer B rewrites the identifiers exactly when the text holds
    the new import path after the import replacement; a text that held
    the new import path from the start gets its identifiers rewritten,
    also when the import replacement had nothing to replace. *)
Theorem rewrite_gated_by_new_import (unicode_alnum : char -> bool)
        (c : str) :
  (contains UpdateImports.new_marker (UpdateImports.replace_import c)
   = true ->
   UpdateImports.update_content unicode_alnum c
   = UpdateImports.rewrite_idents unicode_alnum
       (UpdateImports.replace_import c))
  /\ (contains UpdateImports.new_marker (UpdateImports.replace_import c)
      = false ->
      UpdateImports.update_content unicode_alnum c
      = UpdateImports.replace_import c)
  /\ (contains UpdateImports.new_marker c = true ->
      UpdateImports.update_content unicode_alnum c
      = UpdateImports.rewrite_idents unicode_alnum
          (UpdateImports.replace_import c))
  /\ (contains UpdateImports.new_marker c = true ->
      contains UpdateImports.old_import c = false ->
      UpdateImports.replace_import c = c
      /\ UpdateImports.update_content unicode_alnum c
         = UpdateImports.rewrite_idents unicode_alnum c).
Proof.
  rewrite UpdateImportsFacts.update_content_gate.
  split; [now intros ->|]. split; [now intros ->|].
  split.
  - intros H.
    now rewrite (UpdateImportsFacts.replace_import_marker c H).
  - intros H Hold.
    assert (Hid : UpdateImports.replace_import c = c)
      by (apply replace_id; [discriminate|exact Hold]).
    rewrite Hid, H. now split.
Qed.

Lemma rewrite_gated_by_new_import_witness :
  UpdateImports.replace_import migrated = migrated
  /\ UpdateImports.update_content no_unicode migrated
     = lit "import " ++ UpdateImports.new_import ++ [newline]
       ++ lit "var s domain.Status".
Proof.
  destruct (proj2 (proj2 (proj2
    (rewrite_gated_by_new_import no_unicode migrated)))
    ltac:(vm_compute; reflexivity) ltac:(vm_compute; reflexivity))
    as [H1 H2].
  split; [exact H1|]. rewrite H2. vm_compute. reflexivity.
Defined.

(** ** C5 *)

(** C5, as stated, fails: a file with both imports and a comment that
    names [pkg/dot] holds both markers, and is left with two
    occurrences of the marker [pkg/dot], not one. *)
Lemma both_markers_not_one_each :
  contains FixRenderer.domain_marker both_imports = true
  /\ contains FixRenderer.dot_marker both_imports = true
  /\ occurrences FixRenderer.dot_marker
       (FixRenderer.fix_content both_imports) <> 1.
Proof.
  repeat split; try (vm_compute; reflexivity).
  vm_compute. discriminate.
Qed.

(** C5, amended: on a text that holds both markers Renamer A inserts no
    import line: the insertion step returns the text as it is, only the
    two identifier replacements apply, and each quoted import string
    occurs in the result exactly as often as in the text (once where it
    occurred once). *)
Theorem both_markers_no_insertion (c : str) :
  contains FixRenderer.domain_marker c = true ->
  contains FixRenderer.dot_marker c = true ->
  FixRenderer.add_import c = c
  /\ FixRenderer.fix_content c = FixRenderer.rename_idents c
  /\ occurrences FixRenderer.domain_import (FixRenderer.fix_content c)
     = occurrences FixRenderer.domain_import c
  /\ occurrences FixRenderer.dot_import (FixRenderer.fix_content c)
     = occurrences FixRenderer.dot_import c.
Proof.
  intros Hd Ht.
  assert (Hadd : FixRenderer.add_import c = c)
    by (unfold FixRenderer.add_import; now rewrite Hd, Ht).
  unfold FixRenderer.fix_content. rewrite Hadd.
  repeat split;
    apply FixRendererFacts.rename_idents_occurrences; side.
Qed.

Lemma both_markers_no_insertion_witness :
  FixRenderer.add_import both_imports = both_imports
  /\ occurrences FixRenderer.domain_import
       (FixRenderer.fix_content both_imports) = 1
  /\ occurrences FixRenderer.dot_import
       (FixRenderer.fix_content both_imports) = 1.
Proof.
  destruct (both_markers_no_insertion both_imports
              ltac:(vm_compute; reflexivity)
              ltac:(vm_compute; reflexivity))
    as (H1 & _ & H3 & H4).
  split; [exact H1|]. rewrite H3, H4. split; vm_compute; reflexivity.
Defined.

(** ** C9 *)

(** C9: on a text that holds [internal/domain] but neither [pkg/dot]
    nor the quoted import string of [internal/domain], the insertion
    condition of Renamer A holds and yet nothing is inserted: the
    insertion step returns the text as it is, and the result holds no
    [pkg/dot] import string and no [internal/domain] import string.
    The two identifier replacements still apply: the result is the text
    with every [domain.Status] exchanged for [dot.Status] and then
    every [domain.PackageInfo] for [dot.PackageInfo], from left to
    right and nothing else changed, and neither [domain.Status] nor
    [domain.PackageInfo] occurs in it. *)
Theorem bare_marker_no_insertion (c : str) :
  contains FixRenderer.domain_marker c = true ->
  contains FixRenderer.dot_marker c = false ->
  contains FixRenderer.domain_import c = false ->
  let c1 := replace (lit "domain.Status") (lit "dot.Status") c in
  let c2 := replace (lit "domain.PackageInfo") (lit "dot.PackageInfo") c1 in
  contains FixRenderer.domain_marker c
    && negb (contains FixRenderer.dot_marker c) = true
  /\ FixRenderer.add_import c = c
  /\ FixRenderer.fix_content c = FixRenderer.rename_idents c
  /\ contains FixRenderer.dot_import (FixRenderer.fix_content c) = false
  /\ occurrences FixRenderer.domain_import (FixRenderer.fix_content c)
     = 0
  /\ FixRenderer.fix_content c = c2
  /\ Replaced always (lit "domain.Status") (lit "dot.Status") None c c1
  /\ Replaced always (lit "domain.PackageInfo") (lit "dot.PackageInfo")
               None c1 c2
  /\ occurrences (lit "domain.PackageInfo") c1
     = occurrences (lit "domain.PackageInfo") c
  /\ contains (lit "domain.Status") (FixRenderer.fix_content c) = false
  /\ contains (lit "domain.PackageInfo") (FixRenderer.fix_content c)
     = false.
Proof.
  intros Hd Ht Hq c1 c2.
  assert (Hadd : FixRenderer.add_import c = c).
  { unfold FixRenderer.add_import. rewrite Hd, Ht. cbn [negb andb].
    apply replace_id; [discriminate|exact Hq]. }
  split; [now rewrite Hd, Ht|]. split; [exact Hadd|].
  unfold FixRenderer.fix_content. rewrite Hadd.
  split; [reflexivity|]. split.
  { apply FixRendererFacts.rename_idents_absent; [side|side|].
    apply (contains_absent_trans FixRenderer.dot_marker); side. }
  split.
  { apply occurrences_contains.
    apply FixRendererFacts.rename_idents_absent; side. }
  split; [reflexivity|].
  split; [apply replace_Replaced; discriminate|].
  split; [apply replace_Replaced; discriminate|].
  split; [apply replace_occurrences; side|].
  apply (FixRendererFacts.rename_idents_gone c).
Qed.

Lemma bare_marker_no_insertion_witness :
  FixRenderer.add_import comment_only = comment_only
  /\ FixRenderer.fix_content comment_only
     = lit "// moved to internal/domain" ++ [newline]
       ++ lit "var s dot.Status"
  /\ contains (lit "domain.Status") comment_only = true
  /\ contains (lit "domain.Status") (FixRenderer.fix_content comment_only)
     = false.
Proof.
  destruct (bare_marker_no_insertion comment_only
              ltac:(vm_compute; reflexivity)
              ltac:(vm_compute; reflexivity)
              ltac:(vm_compute; reflexivity))
    as (_ & H1 & _ & _ & _ & H2 & _ & _ & _ & H3 & _).
  split; [exact H1|]. split; [rewrite H2; vm_compute; reflexivity|].
  split; [vm_compute; reflexivity|exact H3].
Defined.

(** ** C6 *)

(** C6: when both substitutions of Renamer B leave the text of a file
    as it was read, the call for that file returns [False] after
    reading it and writes nothing; over a whole run the file keeps its
    text and its time stamp, no write to it is logged, and its relative
    path is not in the list of updated files. *)
Theorem unchanged_file_untouched (unicode_alnum : char -> bool)
        (w : world) (rel : path) (f : file) :
  let p := UpdateImports.root ++ rel in
  file_at p (w_fs w) = Some f ->
  UpdateImports.update_content unicode_alnum (file_text f)
  = file_text f ->
  UpdateImports.update_imports_in_file unicode_alnum p w
  = (Ok false,
     mkWorld (w_fs w) (w_clock w) (w_log w ++ [EvRead p]) (w_out w))
  /\ (let r := UpdateImports.main unicode_alnum w in
      file_at p (w_fs (snd r)) = Some f
      /\ (exists evs, w_log (snd r) = w_log w ++ evs
                      /\ ~ In (EvWrite p) evs)
      /\ forall l, fst r = Ok l -> ~ In rel l).
Proof.
  intros p Hf Hfix. split.
  - destruct (update_imports_in_file_cases unicode_alnum p w)
      as [[Hn _]|[(g & _ & _ & ->)|(g & fs' & Hg & Hu & _)]].
    + congruence.
    + reflexivity.
    + exfalso. apply Hu. congruence.
  - destruct (main_on_unchanged unicode_alnum p rel f eq_refl Hfix
                UpdateImports.packages w Hf) as [[Hsame Hlog] Hl].
    cbv zeta. unfold UpdateImports.main.
    split; [now rewrite Hsame|]. split; [exact Hlog|exact Hl].
Qed.

Lemma unchanged_file_untouched_witness :
  let w := world_of (project full_in plain plain plain) in
  let w' := snd (UpdateImports.main no_unicode w) in
  file_at b_go (w_fs w') = Some (mkFile plain 0)
  /\ fst (UpdateImports.main no_unicode w)
     = Ok [Path "internal/cli/a.go"].
Proof.
  destruct (unchanged_file_untouched no_unicode
              (world_of (project full_in plain plain plain))
              (Path "internal/cli/b.go") (mkFile plain 0)
              ltac:(vm_compute; reflexivity)
              ltac:(vm_compute; reflexivity))
    as (_ & H & _).
  split; [exact H|]. vm_compute. reflexivity.
Defined.

(** ** C7 *)

(** C7: an entry of Renamer A's list that does not exist, and a package
    of Renamer B's list whose directory does not exist, is passed over:
    its iteration returns without an exception in an unchanged world
    (nothing read, written or printed), and the whole run is the run
    over the list without that entry. *)
Theorem missing_entries_skipped :
  (forall l1 fp l2 w,
      lookup (joinpath FixRenderer.root (Path fp)) (w_fs w) = None ->
      FixRenderer.fix_file fp w = (Ok tt, w)
      /\ FixRenderer.script_on (l1 ++ fp :: l2) w
         = FixRenderer.script_on (l1 ++ l2) w)
  /\ (forall unicode_alnum l1 pkg l2 acc w,
        lookup (joinpath UpdateImports.internal_dir [pkg]) (w_fs w)
        = None ->
        UpdateImports.visit_package unicode_alnum acc pkg w = (Ok acc, w)
        /\ UpdateImports.main_on unicode_alnum (l1 ++ pkg :: l2) w
           = UpdateImports.main_on unicode_alnum (l1 ++ l2) w).
Proof.
  split.
  - intros l1 fp l2 w H. split.
    + now apply fix_file_missing.
    + now apply script_on_skip_missing.
  - intros u l1 pkg l2 acc w H. split.
    + now apply visit_package_missing.
    + now apply main_on_skip_missing.
Qed.

Lemma missing_entries_skipped_witness :
  let w := world_of (project full_in plain both_imports plain) in
  FixRenderer.script_on
    ("internal/cli/renderer/json.go"%string
     :: "internal/cli/renderer/table.go"%string :: []) w
  = FixRenderer.script_on ["internal/cli/renderer/json.go"%string] w
  /\ UpdateImports.main_on no_unicode
       ("executor"%string :: "cli"%string :: []) w
     = UpdateImports.main_on no_unicode ["cli"%string] w.
Proof.
  split.
  - exact (proj2 (proj1 missing_entries_skipped
             ["internal/cli/renderer/json.go"%string]
             "internal/cli/renderer/table.go"%string []
             (world_of (project full_in plain both_imports plain))
             ltac:(vm_compute; reflexivity))).
  - exact (proj2 (proj2 missing_entries_skipped no_unicode
             [] "executor"%string ["cli"%string] []
             (world_of (project full_in plain both_imports plain))
             ltac:(vm_compute; reflexivity))).
Defined.

(** ** C8 *)

(** C8: for an entry of Renamer A that is a regular file, the iteration
    reads it and writes it back, whatever the text: the file then holds
    the text after the insertion step with [domain.Status] exchanged
    for [dot.Status] and then [domain.PackageInfo] for
    [dot.PackageInfo], stamped with the time of the write.  The
    exchanges need no word boundary, the first one leaves the
    occurrences of [domain.PackageInfo] in place for the second, and
    no occurrence of either is left.  No other file changes. *)
Theorem existing_entry_rewritten (fp : string) (w : world) (f : file) :
  let full := joinpath FixRenderer.root (Path fp) in
  file_at full (w_fs w) = Some f ->
  let c := FixRenderer.add_import (file_text f) in
  let c1 := replace (lit "domain.Status") (lit "dot.Status") c in
  let c2 := replace (lit "domain.PackageInfo") (lit "dot.PackageInfo") c1 in
  exists fs',
    FixRenderer.fix_file fp w
    = (Ok tt,
       mkWorld fs' (S (w_clock w))
               (w_log w ++ [EvRead full; EvWrite full]) (w_out w))
    /\ file_at full fs' = Some (mkFile c2 (w_clock w))
    /\ (forall q, q <> full -> file_at q fs' = file_at q (w_fs w))
    /\ Replaced always (lit "domain.Status") (lit "dot.Status") None c c1
    /\ Replaced always (lit "domain.PackageInfo") (lit "dot.PackageInfo")
                 None c1 c2
    /\ occurrences (lit "domain.PackageInfo") c1
       = occurrences (lit "domain.PackageInfo") c
    /\ contains (lit "domain.Status") c2 = false
    /\ contains (lit "domain.PackageInfo") c2 = false.
Proof.
  intros full Hf c c1 c2.
  destruct (fix_file_existing fp w f Hf) as (fs' & Hput & Hrun).
  destruct (put_existing full
              (mkFile (FixRenderer.fix_content (file_text f)) (w_clock w))
              _ _ Hf) as (fs'' & Hput' & Hat & _).
  fold full in Hput, Hrun.
  replace fs'' with fs' in Hat by congruence.
  exists fs'. split; [exact Hrun|]. split; [exact Hat|]. split.
  { intros q Hq. exact (put_frame _ _ _ _ _ Hput Hq). }
  split; [apply replace_Replaced; discriminate|].
  split; [apply replace_Replaced; discriminate|].
  split; [apply replace_occurrences; side|].
  apply (FixRendererFacts.rename_idents_gone c).
Qed.

Lemma existing_entry_rewritten_witness :
  let w := world_of (project plain plain both_imports plain) in
  exists fs',
    FixRenderer.fix_file "internal/cli/renderer/json.go" w
    = (Ok tt,
       mkWorld fs' 2
         [EvRead (Path "/Volumes/Development/dot/internal/cli/renderer/json.go");
          EvWrite (Path "/Volumes/Development/dot/internal/cli/renderer/json.go")]
         []).
Proof.
  destruct (existing_entry_rewritten "internal/cli/renderer/json.go"
              (world_of (project plain plain both_imports plain))
              (mkFile both_imports 0) ltac:(vm_compute; reflexivity))
    as (fs' & H & _).
  exists fs'. exact H.
Defined.

(** ** C10 *)

Lemma in_scope_of_iff (pkgs : list string) (p : path) :
  UpdateImports.in_scope_of pkgs p = true <->
  exists pkg name more,
    In pkg pkgs
    /\ p = UpdateImports.internal_dir ++ pkg :: name :: more
    /\ ends_with ".go" (last (name :: more) EmptyString) = true.
Proof.
  unfold UpdateImports.in_scope_of. split.
  - destruct (strip_prefix UpdateImports.internal_dir p)
      as [[|pkg [|name more]]|] eqn:E; try discriminate.
    + rewrite andb_false_r. discriminate.
    + intros [Hp Hext]%andb_true_iff.
      apply existsb_exists in Hp as (k & Hk & Heq).
      apply String.eqb_eq in Heq. subst k.
      exists pkg, name, more. split; [exact Hk|].
      split; [now apply strip_prefix_inv|exact Hext].
  - intros (pkg & name & more & Hk & -> & Hext).
    rewrite strip_prefix_app. apply andb_true_iff. split; [|exact Hext].
    apply existsb_exists. exists pkg. split; [exact Hk|].
    apply String.eqb_refl.
Qed.

(** C10, as stated, fails: when [internal/cli/a.go] is a link to
    [internal/domain/d.go], the run lists the link, follows it, and
    rewrites the file under [internal/domain]; it reports the name of
    the link. *)
Lemma link_leads_out_of_scope :
  let w := world_of (project plain plain plain full_in) in
  let r := LinkedUpdateImports.main no_unicode MoreExamples.a_to_d w in
  UpdateImports.in_scope a_go = true
  /\ UpdateImports.in_scope MoreExamples.d_go = false
  /\ file_at MoreExamples.d_go (w_fs w) = Some (mkFile full_in 0)
  /\ fst r = Ok [Path "internal/cli/a.go"]
  /\ file_at MoreExamples.d_go (w_fs (snd r)) = Some (mkFile full_out 1)
  /\ In (EvRead MoreExamples.d_go) (w_log (snd r))
  /\ In (EvWrite MoreExamples.d_go) (w_log (snd r))
  /\ full_out <> full_in.
Proof.
  cbv zeta. repeat split; try (vm_compute; reflexivity).
  - vm_compute. tauto.
  - vm_compute. tauto.
  - intros H. vm_compute in H. discriminate.
Qed.

(** C10, amended: when no link joins a name [*.go] below one of the
    nine listed packages with a name outside them, a run of Renamer B
    opens, for reading or writing, only files
    [internal/<package>/.../<name>.go] below the root with [<package>]
    one of the nine listed; every other file has the same text and time
    stamp after the run, under its own name and under every name that
    leads to it, whether the run ends or raises; no path below
    [internal/domain] or [internal/api] is among the paths it may
    open. *)
Theorem main_opens_only_scope (unicode_alnum : char -> bool) (ls : links)
        (w : world) :
  links_within UpdateImports.in_scope ls = true ->
  let w' := snd (LinkedUpdateImports.main unicode_alnum ls w) in
  (exists evs,
      w_log w' = w_log w ++ evs
      /\ Forall (fun e =>
             exists pkg name more,
               In pkg UpdateImports.packages
               /\ event_path e
                  = UpdateImports.internal_dir ++ pkg :: name :: more
               /\ ends_with ".go" (last (name :: more) EmptyString)
                  = true) evs)
  /\ (forall q, UpdateImports.in_scope q = false ->
                file_at q (w_fs w') = file_at q (w_fs w)
                /\ reached ls q (w_fs w') = reached ls q (w_fs w))
  /\ (forall rest,
        UpdateImports.in_scope
          (UpdateImports.internal_dir ++ "domain"%string :: rest) = false
        /\ UpdateImports.in_scope
             (UpdateImports.internal_dir ++ "api"%string :: rest) = false)
  /\ length UpdateImports.packages = 9.
Proof.
  intros Hw.
  destruct (linked_main_on_only_touches unicode_alnum ls
              UpdateImports.packages w Hw)
    as [(evs & Hlog & Hev) Hframe].
  cbv zeta. split; [|split; [|split; [|reflexivity]]].
  - exists evs. split; [exact Hlog|].
    eapply Forall_impl; [|exact Hev].
    intros e He. now apply in_scope_of_iff.
  - intros q Hq. split; [now apply Hframe|].
    now apply (reached_within UpdateImports.in_scope ls _ _ Hw Hframe).
  - intros rest. unfold UpdateImports.in_scope, UpdateImports.in_scope_of.
    rewrite !strip_prefix_app. now split.
Qed.

Lemma main_opens_only_scope_witness :
  let w := world_of (project plain full_in plain plain) in
  let w' := snd (LinkedUpdateImports.main no_unicode MoreExamples.b_to_a w) in
  links_within UpdateImports.in_scope MoreExamples.b_to_a = true
  /\ file_at MoreExamples.d_go (w_fs w') = Some (mkFile plain 0)
  /\ file_at b_go (w_fs w') = Some (mkFile full_in 0)
  /\ w_log w' = [EvRead a_go; EvRead a_go; EvRead MoreExamples.json_go].
Proof.
  cbv zeta. split; [vm_compute; reflexivity|].
  split; [|split; vm_compute; reflexivity].
  destruct (main_opens_only_scope no_unicode MoreExamples.b_to_a
              (world_of (project plain full_in plain plain))
              ltac:(vm_compute; reflexivity)) as (_ & H & _).
  rewrite (proj1 (H MoreExamples.d_go ltac:(vm_compute; reflexivity))).
  vm_compute. reflexivity.
Defined.

End Claims.

(** * Further properties of the two scripts *)

(** ** Lengths under substitution *)

Section ScanLength.

Variable guard : option char -> char -> bool.
Variables old new : str.
Hypothesis old_nonempty : old <> [].

Local Abbreviation sc := (scan guard old new).

Lemma scan_length_le (prev : option char) (s : str) :
  length old <= length new -> length s <= length (sc prev s).
Proof.
  intros Hlen. revert prev s.
  apply (scan_ind guard old old_nonempty (fun prev s =>
    length s <= length (sc prev s))).
  - intros prev. apply Nat.le_refl.
  - intros prev r H IH.
    rewrite (scan_hit guard old new old_nonempty _ _ H), !length_app. lia.
  - intros prev c r H IH. rewrite (scan_keep guard old new _ _ _ H).
    simpl. lia.
Qed.

Lemma scan_length_lt (prev : option char) (s : str) :
  length old < length new -> has_hit guard old prev s = true ->
  length s < length (sc prev s).
Proof.
  intros Hlen. revert prev s.
  apply (scan_ind guard old old_nonempty (fun prev s =>
    has_hit guard old prev s = true -> length s < length (sc prev s))).
  - discriminate.
  - intros prev r H _ _.
    rewrite (scan_hit guard old new old_nonempty _ _ H), !length_app.
    pose proof (scan_length_le (last_seen prev old) r). lia.
  - intros prev c r H IH Hh. rewrite (scan_keep guard old new _ _ _ H).
    cbn [has_hit] in Hh. rewrite H in Hh. simpl in *.
    specialize (IH Hh). lia.
Qed.

(** A longer replacement: the text is kept exactly when nothing is
    accepted. *)
Lemma scan_fixed_iff (prev : option char) (s : str) :
  length old < length new ->
  sc prev s = s <-> has_hit guard old prev s = false.
Proof.
  intros Hlen. split.
  - intros E. destruct (has_hit guard old prev s) eqn:Hh; [|reflexivity].
    pose proof (scan_length_lt prev s Hlen Hh) as Hlt.
    rewrite E in Hlt. lia.
  - now apply scan_id.
Qed.

End ScanLength.

(** ** Renamer B: when a text changes, and what holds afterwards *)

Section UpdateContentMore.

Import UpdateImports.

Variable unicode_alnum : char -> bool.

Local Abbreviation update := (update_content unicode_alnum).
Local Abbreviation rewrite := (rewrite_idents unicode_alnum).
Local Abbreviation wb := (word_boundary unicode_alnum).

Lemma replace_import_length (c : str) :
  length c <= length (replace_import c)
  /\ (contains old_import c = true -> length c < length (replace_import c)).
Proof.
  unfold replace_import.
  rewrite (replace_scan old_import new_import) by discriminate. split.
  - apply scan_length_le; [discriminate|vm_compute; lia].
  - intros H. apply scan_length_lt; [discriminate|vm_compute; lia|].
    now rewrite has_hit_always by discriminate.
Qed.

Lemma rewrite_idents_length (c : str) :
  length c <= length (rewrite c)
  /\ (has_word_dot unicode_alnum c = true -> length c < length (rewrite c)).
Proof.
  split.
  - apply scan_length_le; [discriminate|vm_compute; lia].
  - intros H. apply scan_length_lt; [discriminate|vm_compute; lia|exact H].
Qed.

Lemma needs_update_false (c : str) :
  needs_update unicode_alnum c = false ->
  contains old_import c = false
  /\ (contains new_marker c = true ->
      has_word_dot unicode_alnum c = false).
Proof.
  unfold needs_update. intros [H1 H2]%orb_false_iff.
  split; [exact H1|]. intros Hm. now rewrite Hm in H2.
Qed.

Lemma update_content_length (c : str) :
  length c <= length (update c)
  /\ (needs_update unicode_alnum c = true -> length c < length (update c)).
Proof.
  destruct (replace_import_length c) as [Hle Hlt].
  rewrite UpdateImportsFacts.update_content_gate.
  destruct (contains old_import c) eqn:Hold.
  - specialize (Hlt eq_refl).
    destruct (contains new_marker (replace_import c)).
    + destruct (rewrite_idents_length (replace_import c)) as [Hle' _].
      split; [lia|intros _; lia].
    + split; [lia|intros _; lia].
  - rewrite (replace_id old_import new_import) in * by side.
    fold (replace_import c).
    replace (replace_import c) with c
      by (symmetry; apply replace_id; side).
    unfold needs_update. rewrite Hold. cbn [orb].
    destruct (contains new_marker c); cbn [andb].
    + apply rewrite_idents_length.
    + split; [apply Nat.le_refl|discriminate].
Qed.

Lemma update_content_fixed_iff (c : str) :
  update c = c <-> needs_update unicode_alnum c = false.
Proof.
  split.
  - intros E. destruct (needs_update unicode_alnum c) eqn:Hn; [|reflexivity].
    destruct (update_content_length c) as [_ Hlt].
    specialize (Hlt Hn). rewrite E in Hlt. lia.
  - intros Hn. destruct (needs_update_false c Hn) as [Hold Hdot].
    rewrite UpdateImportsFacts.update_content_gate.
    replace (replace_import c) with c
      by (symmetry; apply replace_id; side).
    destruct (contains new_marker c); [|reflexivity].
    apply scan_id; [discriminate|]. now apply Hdot.
Qed.

End UpdateContentMore.

Section UpdateContentExtras.

Import UpdateImports Examples.

(** X1: [update_imports_in_file] on a regular file returns whether the
    text read holds the old import string, or the new import path and a
    [dot.] at a word boundary.  If not, the call only logs the read; if
    so, the file holds the updated text, stamped with the time of the
    call, and a read and a write are logged. *)
Theorem file_written_iff_needs_update (unicode_alnum : char -> bool)
        (p : path) (w : world) (f : file) :
  file_at p (w_fs w) = Some f ->
  let t := file_text f in
  let r := update_imports_in_file unicode_alnum p w in
  fst r = Ok (needs_update unicode_alnum t)
  /\ (needs_update unicode_alnum t = false ->
      snd r = mkWorld (w_fs w) (w_clock w) (w_log w ++ [EvRead p])
                      (w_out w))
  /\ (needs_update unicode_alnum t = true ->
      file_at p (w_fs (snd r))
      = Some (mkFile (update_content unicode_alnum t) (w_clock w))
      /\ w_clock (snd r) = S (w_clock w)
      /\ w_log (snd r) = w_log w ++ [EvRead p; EvWrite p]).
Proof.
  intros Hf t r. subst t r.
  destruct (update_imports_in_file_cases unicode_alnum p w)
    as [[Hn _]|[(g & Hg & Hu & ->)|(g & fs' & Hg & Hu & Hput & ->)]].
  - congruence.
  - replace g with f in * by congruence.
    rewrite (proj1 (update_content_fixed_iff unicode_alnum _) Hu).
    split; [reflexivity|]. split; [reflexivity|discriminate].
  - replace g with f in * by congruence.
    assert (Hn : needs_update unicode_alnum (file_text f) = true).
    { destruct (needs_update unicode_alnum (file_text f)) eqn:E;
        [reflexivity|].
      now apply (proj2 (update_content_fixed_iff unicode_alnum _)) in E. }
    rewrite Hn. split; [reflexivity|]. split; [discriminate|].
    intros _. cbn [snd w_fs w_clock w_log]. split; [|now split].
    destruct (put_existing p
                (mkFile (update_content unicode_alnum (file_text f))
                        (w_clock w)) _ _ Hf) as (fs'' & Hput' & Hat & _).
    now replace fs' with fs'' by congruence.
Qed.

Lemma file_written_iff_needs_update_witness :
  let w := world_of (project full_in plain plain plain) in
  fst (update_imports_in_file no_unicode a_go w) = Ok true
  /\ fst (update_imports_in_file no_unicode b_go w) = Ok false.
Proof.
  split.
  - exact (proj1 (file_written_iff_needs_update no_unicode a_go
             (world_of (project full_in plain plain plain))
             (mkFile full_in 0) ltac:(vm_compute; reflexivity))).
  - exact (proj1 (file_written_iff_needs_update no_unicode b_go
             (world_of (project full_in plain plain plain))
             (mkFile plain 0) ltac:(vm_compute; reflexivity))).
Defined.

(** X2: Renamer B never shortens a text, and a text it changes becomes
    strictly longer. *)
Theorem update_content_never_shrinks (unicode_alnum : char -> bool)
        (c : str) :
  length c <= length (update_content unicode_alnum c)
  /\ (update_content unicode_alnum c <> c ->
      length c < length (update_content unicode_alnum c)).
Proof.
  destruct (update_content_length unicode_alnum c) as [Hle Hlt].
  split; [exact Hle|]. intros Hne. apply Hlt.
  destruct (needs_update unicode_alnum c) eqn:E; [reflexivity|].
  now apply (proj2 (update_content_fixed_iff unicode_alnum _)) in E.
Qed.

Lemma update_content_never_shrinks_witness :
  length full_in < length (update_content no_unicode full_in).
Proof.
  apply (proj2 (update_content_never_shrinks no_unicode full_in)).
  intros H. vm_compute in H. discriminate.
Defined.

(** X3: a text that held the old import string or the new import path
    holds the new import path after Renamer B, and no [dot.] at a word
    boundary; a text without two old import strings sharing a quote
    holds no old import string afterwards. *)
Theorem update_content_post (unicode_alnum : char -> bool) (c : str) :
  (contains old_import c = true \/ contains new_marker c = true ->
   contains new_marker (update_content unicode_alnum c) = true
   /\ has_word_dot unicode_alnum (update_content unicode_alnum c) = false)
  /\ (contains chained_import c = false ->
      contains old_import (update_content unicode_alnum c) = false).
Proof.
  rewrite UpdateImportsFacts.update_content_gate. split.
  - intros H.
    assert (Hm : contains new_marker (replace_import c) = true).
    { destruct H as [H|H].
      - apply replace_contains_new; side.
      - now apply UpdateImportsFacts.replace_import_marker. }
    rewrite Hm. split.
    + now apply UpdateImportsFacts.rewrite_idents_marker.
    + apply scan_no_hit; [discriminate|side|side|reflexivity].
  - intros H. apply UpdateImportsFacts.replace_import_settled in H.
    destruct (contains new_marker (replace_import c)); [|exact H].
    now apply UpdateImportsFacts.rewrite_idents_no_old_import.
Qed.

Lemma update_content_post_witness :
  contains new_marker (update_content no_unicode full_in) = true
  /\ has_word_dot no_unicode (update_content no_unicode full_in) = false
  /\ contains old_import (update_content no_unicode full_in) = false.
Proof.
  destruct (update_content_post no_unicode full_in) as [H1 H2].
  assert (Hold : contains old_import full_in = true)
    by (vm_compute; reflexivity).
  destruct (H1 (or_introl Hold)) as [Ha Hb].
  split; [exact Ha|]. split; [exact Hb|].
  exact (H2 ltac:(vm_compute; reflexivity)).
Defined.

End UpdateContentExtras.

(** ** Renamer B: whole runs *)

Lemma written_app (a b : list event) : written (a ++ b) = written a ++ written b.
Proof. unfold written. apply flat_map_app. Qed.

Lemma foldM_raise {A B} (body : B -> A -> M B) (I : world -> Prop)
(Q : exn -> Prop) (l : list A) :
(forall x b v, In x l -> I v -> I (snd (body b x v))) ->
(forall x b v e, In x l -> I v -> fst (body b x v) = Raise e -> Q e) ->
forall b w e, I w -> fst (foldM body l b w) = Raise e -> Q e.
Proof.
induction l as [|x l IH]; intros Hstep Hraise b w e HI; [discriminate|].
simpl. unfold bind.
pose proof (Hstep x b w (or_introl eq_refl) HI) as H1.
pose proof (Hraise x b w e (or_introl eq_refl) HI) as H2.
destruct (body b x w) as [[b1|e1] w1]; cbn [fst snd] in *.
- apply IH; [| |exact H1].
  + intros y c v Hy. apply Hstep. now right.
  + intros y c v e' Hy. apply Hraise. now right.
- exact H2.
Qed.

Section UpdateRunMore.

Import UpdateImports.

Variable unicode_alnum : char -> bool.

Local Abbreviation update := (update_content unicode_alnum).
Local Abbreviation visit1 := (visit unicode_alnum).
Local Abbreviation visit_pkg := (visit_package unicode_alnum).

(** The three ways a visit can go, with the world it leaves. *)
Lemma visit_cases (acc : list path) (x : path) (v : world) :
  (file_at x (w_fs v) = None
   /\ visit1 acc x v = (Raise (OSError x), v))
  \/ (exists f, file_at x (w_fs v) = Some f
        /\ update (file_text f) = file_text f
        /\ visit1 acc x v
           = (Ok acc,
              mkWorld (w_fs v) (w_clock v) (w_log v ++ [EvRead x])
                      (w_out v)))
  \/ (exists f fs', file_at x (w_fs v) = Some f
        /\ update (file_text f) <> file_text f
        /\ put x (mkFile (update (file_text f)) (w_clock v)) (w_fs v)
           = Some fs'
        /\ visit1 acc x v
           = (match strip_prefix root x with
              | Some rel => Ok (acc ++ [rel])
              | None => Raise ValueError
              end,
              mkWorld fs' (S (w_clock v))
                      (w_log v ++ [EvRead x; EvWrite x]) (w_out v))).
Proof.
  unfold visit, bind.
  destruct (update_imports_in_file_cases unicode_alnum x v)
    as [[Hn ->]|[(f & Hf & Hu & ->)|(f & fs' & Hf & Hu & Hput & ->)]].
  - now left.
  - right. left. now exists f.
  - right. right. exists f, fs'. repeat split; try assumption.
    unfold relative_to. now destruct (strip_prefix root x).
Qed.

Lemma visit_shape (acc : list path) (x : path) (v : world) :
  shape (w_fs (snd (visit1 acc x v))) = shape (w_fs v).
Proof.
  destruct (visit_cases acc x v)
    as [[_ ->]|[(f & _ & _ & ->)|(f & fs' & Hf & _ & Hput & ->)]];
    try reflexivity.
  exact (put_shape _ _ _ _ _ Hf Hput).
Qed.

Lemma visit_package_shape (acc : list path) (pkg : string) (v : world) :
  shape (w_fs (snd (visit_pkg acc pkg v))) = shape (w_fs v).
Proof.
  rewrite visit_package_run.
  destruct (lookup (joinpath internal_dir [pkg]) (w_fs v)) as [n|];
    [|reflexivity].
  apply (foldM_world visit1 (fun u => shape (w_fs u) = shape (w_fs v)));
    [|reflexivity].
  intros x b u _ Hu. now rewrite visit_shape.
Qed.

Lemma main_on_shape (pkgs : list string) (w : world) :
  shape (w_fs (snd (main_on unicode_alnum pkgs w))) = shape (w_fs w).
Proof.
  rewrite main_on_run.
  pose proof (foldM_world visit_pkg
    (fun v => shape (w_fs v) = shape (w_fs w)) pkgs
    (fun x b v _ Hv => eq_trans (visit_package_shape b x v) Hv)
    [] w eq_refl) as H.
  now destruct (foldM visit_pkg pkgs [] w) as [[l|e] w1].
Qed.

(** *** The report and the writes *)

Local Abbreviation reported w acc v :=
  (exists evs, w_log v = w_log w ++ evs
               /\ map (joinpath root) acc = written evs).

Lemma visit_reported (w : world) (x : path) (l acc : list path)
      (v : world) :
  reported w acc v ->
  match visit1 acc x v with
  | (Ok acc', v') => reported w acc' v'
  | (Raise _, _) => True
  end.
Proof.
  intros (evs & Hlog & Hacc).
  destruct (visit_cases acc x v)
    as [[_ ->]|[(f & _ & _ & ->)|(f & fs' & _ & _ & _ & ->)]];
    [exact I| |].
  - exists (evs ++ [EvRead x]). cbn [w_log].
    rewrite Hlog, app_assoc, written_app, Hacc. cbn.
    now rewrite app_nil_r.
  - destruct (strip_prefix root x) as [rel|] eqn:E; [|exact I].
    exists (evs ++ [EvRead x; EvWrite x]). cbn [w_log].
    rewrite Hlog, app_assoc, written_app, map_app, Hacc.
    split; [reflexivity|]. f_equal. cbn. unfold joinpath.
    now rewrite (strip_prefix_inv root x rel E).
Qed.

Lemma visit_package_reported (w : world) (pkg : string)
      (l : list string) (acc : list path) (v : world) :
  reported w acc v ->
  match visit_pkg acc pkg v with
  | (Ok acc', v') => reported w acc' v'
  | (Raise _, _) => True
  end.
Proof.
  intros H. rewrite visit_package_run.
  destruct (lookup (joinpath internal_dir [pkg]) (w_fs v)) as [n|];
    [|exact H].
  exact (foldM_inv visit1 (fun _ acc v => reported w acc v)
           (fun _ => True)
           (fun x l0 b u Hb => visit_reported w x l0 b u Hb) _ acc v H).
Qed.

Lemma main_on_reported (pkgs : list string) (w : world) (l : list path)
      (w' : world) :
  main_on unicode_alnum pkgs w = (Ok l, w') ->
  exists evs, w_log w' = w_log w ++ evs
              /\ map (joinpath root) l = written evs
              /\ w_out w' = w_out w ++ report l.
Proof.
  rewrite main_on_run.
  pose proof (foldM_inv visit_pkg (fun _ acc v => reported w acc v)
    (fun _ => True)
    (fun x l0 b u Hb => visit_package_reported w x l0 b u Hb) pkgs [] w)
    as Hrep.
  pose proof (foldM_world visit_pkg (fun v => w_out v = w_out w) pkgs
    (fun x b v _ Hv =>
       eq_trans (visit_package_out unicode_alnum b x v) Hv)
    [] w eq_refl) as Hout.
  destruct (foldM visit_pkg pkgs [] w) as [[l1|e] w1]; [|discriminate].
  intros [= <- <-]. cbn [snd w_log w_out] in *.
  destruct Hrep as (evs & Hlog & Hacc).
  - exists []. now rewrite app_nil_r.
  - exists evs. now rewrite Hout.
Qed.

End UpdateRunMore.

Section UpdateRunErrors.

Import UpdateImports.

Variable unicode_alnum : char -> bool.

Local Abbreviation update := (update_content unicode_alnum).
Local Abbreviation visit1 := (visit unicode_alnum).
Local Abbreviation visit_pkg := (visit_package unicode_alnum).

Lemma is_file_at_same_shape (p : path) (n n' : node) :
  shape n' = shape n -> is_file_at p n' = is_file_at p n.
Proof.
  intros H. now rewrite <- (is_file_at_shape p n'), H, is_file_at_shape.
Qed.

(** *** Runs that end list only regular files *)

Lemma foldM_visit_ok_files (xs : list path) :
  forall acc u l u',
    foldM visit1 xs acc u = (Ok l, u') ->
    forallb (fun x => is_file_at x (w_fs u)) xs = true.
Proof.
  induction xs as [|x xs IH]; intros acc u l u' H; [reflexivity|].
  simpl in H. unfold bind in H.
  pose proof (visit_shape unicode_alnum acc x u) as Hs.
  pose proof (visit_result unicode_alnum acc x u) as Hres.
  destruct (visit1 acc x u) as [[acc1|e] u1]; [|discriminate].
  cbn [fst snd] in *. cbn [forallb]. apply andb_true_iff. split.
  - unfold is_file_at.
    destruct (Hres acc1 eq_refl) as [[_ (f & -> & _)]|(r & f & _ & _ & -> & _)];
      reflexivity.
  - specialize (IH _ _ _ _ H).
    rewrite forallb_forall in *. intros y Hy.
    rewrite <- (is_file_at_same_shape y _ _ Hs). now apply IH.
Qed.

Lemma foldM_visit_package_ok_regular (pkgs : list string) :
  forall acc v l v',
    foldM visit_pkg pkgs acc v = (Ok l, v') ->
    listed_regular pkgs (w_fs v) = true.
Proof.
  induction pkgs as [|pkg pkgs IH]; intros acc v l v' H; [reflexivity|].
  simpl in H. unfold bind in H.
  pose proof (visit_package_shape unicode_alnum acc pkg v) as Hs.
  pose proof (visit_package_run unicode_alnum acc pkg v) as Hrun.
  destruct (visit_pkg acc pkg v) as [[acc1|e] v1]; [|discriminate].
  cbn [snd] in Hs. unfold listed_regular. cbn [forallb].
  apply andb_true_iff. split.
  - destruct (lookup (joinpath internal_dir [pkg]) (w_fs v)) as [n|];
      [|reflexivity].
    exact (foldM_visit_ok_files _ _ _ _ _ (eq_sym Hrun)).
  - fold (listed_regular pkgs (w_fs v)).
    rewrite <- (listed_regular_shape pkgs _ _ Hs).
    exact (IH _ _ _ _ H).
Qed.

Lemma main_on_ok_iff (pkgs : list string) (w : world) :
  (exists l w', main_on unicode_alnum pkgs w = (Ok l, w'))
  <-> listed_regular pkgs (w_fs w) = true.
Proof.
  split; [|apply main_on_ok].
  intros (l & w' & H). rewrite main_on_run in H.
  destruct (foldM visit_pkg pkgs [] w) as [[l1|e] w1] eqn:E;
    [|discriminate].
  exact (foldM_visit_package_ok_regular pkgs _ _ _ _ E).
Qed.

(** *** Runs that raise *)

Local Abbreviation blamed pkgs w e :=
  (exists p, e = OSError p
             /\ in_scope_of pkgs p = true
             /\ is_file_at p (w_fs w) = false).

Lemma visit_package_raise (pkgs : list string) (w : world)
      (acc : list path) (pkg : string) (v : world) (e : exn) :
  In pkg pkgs -> shape (w_fs v) = shape (w_fs w) ->
  fst (visit_pkg acc pkg v) = Raise e -> blamed pkgs w e.
Proof.
  intros Hpkg Hv. rewrite visit_package_run.
  destruct (lookup (joinpath internal_dir [pkg]) (w_fs v)) as [n|];
    [|discriminate].
  intros Hraise.
  refine (foldM_raise visit1 (fun u => shape (w_fs u) = shape (w_fs w))
            (fun e => blamed pkgs w e) _ _ _ acc v e Hv Hraise).
  - intros x b u _ Hu. now rewrite visit_shape.
  - intros x b u e' Hx Hu Hr.
    pose proof (in_scope_of_rglob pkgs pkg n x Hpkg Hx) as Hscope.
    destruct (visit_cases unicode_alnum b x u)
      as [[Hn E]|[(f & _ & _ & E)|(f & fs' & _ & _ & _ & E)]];
      rewrite E in Hr; cbn [fst] in Hr.
    + injection Hr as <-. exists x. split; [reflexivity|].
      split; [exact Hscope|].
      rewrite <- (is_file_at_same_shape x _ _ Hu).
      unfold is_file_at. now rewrite Hn.
    + discriminate.
    + destruct (rglob_sound _ _ _ _ Hx) as (y & rest & -> & _).
      unfold joinpath, internal_dir, joinpath in Hr.
      rewrite <- !app_assoc, strip_prefix_app in Hr. discriminate.
Qed.

Lemma main_on_raise (pkgs : list string) (w : world) (e : exn)
      (w' : world) :
  main_on unicode_alnum pkgs w = (Raise e, w') ->
  w_out w' = w_out w /\ blamed pkgs w e.
Proof.
  rewrite main_on_run.
  pose proof (foldM_world visit_pkg (fun v => w_out v = w_out w) pkgs
    (fun x b v _ Hv =>
       eq_trans (visit_package_out unicode_alnum b x v) Hv)
    [] w eq_refl) as Hout.
  pose proof (foldM_raise visit_pkg
    (fun v => shape (w_fs v) = shape (w_fs w))
    (fun e => blamed pkgs w e) pkgs
    (fun x b v _ Hv =>
       eq_trans (visit_package_shape unicode_alnum b x v) Hv)
    (fun x b v e Hx Hv Hr => visit_package_raise pkgs w b x v e Hx Hv Hr)
    [] w e eq_refl) as Hblame.
  destruct (foldM visit_pkg pkgs [] w) as [[l1|e1] w1]; [discriminate|].
  intros [= <- <-]. split; [exact Hout|now apply Hblame].
Qed.

End UpdateRunErrors.

(** ** Carriage returns *)

Lemma contains_single (c : char) (s : str) :
  contains [c] s = existsb (N.eqb c) s.
Proof.
  induction s as [|d s IH]; [reflexivity|].
  rewrite contains_cons, IH. simpl. now rewrite andb_true_r.
Qed.

Lemma universal_newlines_fixed (s : str) :
  contains [cr] s = false -> universal_newlines s = s.
Proof.
  rewrite contains_single.
  induction s as [|c s IH]; [reflexivity|].
  cbn [existsb]. intros [Hc Hs]%orb_false_iff.
  cbn [universal_newlines]. rewrite N.eqb_sym, Hc. now rewrite IH.
Qed.

Lemma universal_newlines_no_cr (s : str) :
  contains [cr] (universal_newlines s) = false.
Proof.
  rewrite contains_single.
  remember (length s) as n eqn:En. revert s En.
  induction n as [n IH] using lt_wf_ind. intros s En.
  destruct s as [|c s]; [reflexivity|].
  cbn [universal_newlines].
  destruct (N.eqb c cr) eqn:Ec.
  - destruct s as [|d s]; [reflexivity|].
    destruct (N.eqb d newline); cbn [existsb];
      change (N.eqb cr newline) with false; cbn [orb].
    + apply (IH (length s)); [simpl in En; lia|reflexivity].
    + apply (IH (length (d :: s))); [simpl in *; lia|reflexivity].
  - cbn [existsb]. rewrite N.eqb_sym, Ec. cbn [orb].
    apply (IH (length s)); [simpl in En; lia|reflexivity].
Qed.

Lemma update_content_no_cr (unicode_alnum : char -> bool) (c : str) :
  contains [cr] c = false ->
  contains [cr] (UpdateImports.update_content unicode_alnum c) = false.
Proof.
  intros H. rewrite UpdateImportsFacts.update_content_gate.
  assert (Hr : contains [cr] (UpdateImports.replace_import c) = false)
    by (apply replace_absent; side).
  destruct (contains UpdateImports.new_marker
              (UpdateImports.replace_import c)); [|exact Hr].
  destruct (contains [cr] (UpdateImports.rewrite_idents unicode_alnum
                             (UpdateImports.replace_import c))) eqn:E;
    [|reflexivity].
  apply scan_contains_inv in E; [congruence|discriminate|side|side].
Qed.

(** What a script wrote reads back as written. *)
Lemma update_content_reads_back (unicode_alnum : char -> bool) (f : file) :
  universal_newlines
    (UpdateImports.update_content unicode_alnum (file_text f))
  = UpdateImports.update_content unicode_alnum (file_text f).
Proof.
  apply universal_newlines_fixed, update_content_no_cr.
  apply universal_newlines_no_cr.
Qed.

Section UpdateRunCoverage.

Import UpdateImports.

Variable unicode_alnum : char -> bool.

Local Abbreviation update := (update_content unicode_alnum).
Local Abbreviation visit1 := (visit unicode_alnum).
Local Abbreviation visit_pkg := (visit_package unicode_alnum).

(** *** Every regular file in scope is read *)

Variable w : world.
Variables (pkg name : string) (more : path).
Hypothesis name_go :
  ends_with ".go" (last (name :: more) EmptyString) = true.

Local Abbreviation p := (joinpath internal_dir [pkg] ++ name :: more).

Hypothesis p_regular : is_file_at p (w_fs w) = true.

Local Abbreviation pending todo v :=
  (shape (w_fs v) = shape (w_fs w)
   /\ exists evs, w_log v = w_log w ++ evs
                  /\ (todo \/ In (EvRead p) evs)).

Lemma visit_reads (x : path) (l acc : list path) (v : world) :
  pending (In p (x :: l)) v ->
  match visit1 acc x v with
  | (Ok acc', v') => pending (In p l) v'
  | (Raise _, _) => True
  end.
Proof.
  intros (Hs & evs & Hlog & Hp).
  pose proof (visit_shape unicode_alnum acc x v) as Hs'.
  assert (Hread : In p l \/ In (EvRead p) (evs ++ [EvRead x])).
  { destruct Hp as [[->|Hp]|Hp]; [right|now left|right];
      apply in_or_app; [right; now left|now left]. }
  pose proof (visit_cases unicode_alnum acc x v) as Hc.
  destruct (visit1 acc x v) as [[acc'|e] v'] eqn:Ev; [|exact I].
  cbn [snd] in Hs'. split; [now rewrite Hs'|].
  destruct Hc as [[_ E]|[(f & _ & _ & E)|(f & fs' & _ & _ & _ & E)]];
    [discriminate| |].
  - injection E as _ ->. exists (evs ++ [EvRead x]). cbn [w_log].
    split; [now rewrite Hlog, app_assoc|exact Hread].
  - injection E as _ ->. exists (evs ++ [EvRead x; EvWrite x]).
    cbn [w_log]. split; [now rewrite Hlog, app_assoc|].
    destruct Hread as [H|H]; [now left|right].
    apply in_app_or in H as [H|H]; apply in_or_app; [now left|right].
    destruct H as [H|[]]. now left.
Qed.

Lemma visit_package_reads (k : string) (ks : list string)
      (acc : list path) (v : world) :
  pending (In pkg (k :: ks)) v ->
  match visit_pkg acc k v with
  | (Ok acc', v') => pending (In pkg ks) v'
  | (Raise _, _) => True
  end.
Proof.
  intros (Hs & evs & Hlog & Hp).
  pose proof (visit_package_shape unicode_alnum acc k v) as Hs'.
  destruct (visit_package_only_touches unicode_alnum [k] acc k v
              (or_introl eq_refl)) as [(evs' & Hlog' & _) _].
  pose proof (visit_package_run unicode_alnum acc k v) as Hrun.
  assert (Hfile : is_file_at p (w_fs v) = true)
    by now rewrite (is_file_at_same_shape p _ _ Hs).
  destruct (string_dec k pkg) as [->|Hne].
  - unfold is_file_at, file_at in Hfile. rewrite lookup_app in Hfile.
    destruct (lookup (joinpath internal_dir [pkg]) (w_fs v)) as [n|] eqn:El;
      [|discriminate].
    pose proof (foldM_inv visit1
      (fun rest _ u => pending (In p rest) u) (fun _ => True)
      (fun x l0 b u Hb => visit_reads x l0 b u Hb)
      (rglob ".go" (joinpath internal_dir [pkg]) n) acc v) as Hend.
    rewrite Hrun.
    destruct (foldM visit1 _ acc v) as [[acc'|e] v']; [|exact I].
    destruct Hend as (Hs2 & evs2 & Hlog2 & Hp2).
    + split; [exact Hs|]. exists evs. split; [exact Hlog|].
      destruct Hp as [_|Hp]; [left|now right].
      destruct (lookup (name :: more) n) as [[f|es]|] eqn:Ef;
        try discriminate.
      apply (rglob_complete ".go" more n _ name f); [|exact name_go].
      unfold file_at. now rewrite Ef.
    + split; [exact Hs2|]. exists evs2. split; [exact Hlog2|].
      destruct Hp2 as [[]|Hp2]. now right.
  - destruct (visit_pkg acc k v) as [[acc'|e] v']; [|exact I].
    cbn [snd] in *. split; [now rewrite Hs'|].
    exists (evs ++ evs'). split; [now rewrite Hlog', Hlog, app_assoc|].
    destruct Hp as [[Hp|Hp]|Hp]; [congruence|now left|right].
    apply in_or_app. now left.
Qed.

Lemma main_on_reads (pkgs : list string) (l : list path) (w' : world) :
  In pkg pkgs ->
  main_on unicode_alnum pkgs w = (Ok l, w') ->
  exists evs, w_log w' = w_log w ++ evs /\ In (EvRead p) evs.
Proof.
  intros Hpkg. rewrite main_on_run.
  pose proof (foldM_inv visit_pkg
    (fun rest _ v => pending (In pkg rest) v) (fun _ => True)
    (fun k ks b v Hb => visit_package_reads k ks b v Hb) pkgs [] w)
    as Hend.
  destruct (foldM visit_pkg pkgs [] w) as [[l1|e] w1]; [|discriminate].
  intros [= <- <-]. cbn [w_log].
  destruct Hend as (_ & evs & Hlog & [[]|Hp]).
  - split; [reflexivity|]. exists []. rewrite app_nil_r. now split; [|left].
  - now exists evs.
Qed.

End UpdateRunCoverage.

Section UpdateRunAgain.

Import UpdateImports.

Variable unicode_alnum : char -> bool.

Local Abbreviation update := (update_content unicode_alnum).
Local Abbreviation visit1 := (visit unicode_alnum).
Local Abbreviation visit_pkg := (visit_package unicode_alnum).

(** Every regular file in scope reads as a text that Renamer B keeps. *)
Local Abbreviation settled pkgs w :=
  (forall p f, in_scope_of pkgs p = true ->
               file_at p (w_fs w) = Some f ->
               update (file_text f) = file_text f).

Lemma in_scope_of_inv (pkgs : list string) (p : path) :
  in_scope_of pkgs p = true ->
  exists pkg name more,
    In pkg pkgs
    /\ p = root ++ Path "internal" ++ pkg :: name :: more
    /\ ends_with ".go" (last (name :: more) EmptyString) = true.
Proof.
  unfold in_scope_of.
  destruct (strip_prefix internal_dir p) as [[|pkg [|name more]]|] eqn:E;
    try discriminate.
  - rewrite andb_false_r. discriminate.
  - intros [Hp Hext]%andb_true_iff.
    apply existsb_exists in Hp as (k & Hk & Heq).
    apply String.eqb_eq in Heq. subst k.
    exists pkg, name, more. split; [exact Hk|]. split; [|exact Hext].
    apply strip_prefix_inv in E. rewrite E.
    unfold internal_dir, joinpath. now rewrite <- app_assoc.
Qed.

(** After a run that ends, every regular file in scope is settled, when
    no file in scope held two old imports sharing a quote. *)
Lemma main_on_settles (pkgs : list string) (w : world) (l : list path)
      (w1 : world) :
  (forall p f, in_scope_of pkgs p = true ->
               file_at p (w_fs w) = Some f ->
               contains chained_import (file_text f) = false) ->
  main_on unicode_alnum pkgs w = (Ok l, w1) ->
  settled pkgs w1.
Proof.
  intros Hch Hrun p f1 Hscope Hf1.
  pose proof (main_on_shape unicode_alnum pkgs w) as Hs.
  rewrite Hrun in Hs. cbn [snd] in Hs.
  pose proof (is_file_at_same_shape p _ _ Hs) as Hfile.
  unfold is_file_at in Hfile. rewrite Hf1 in Hfile.
  destruct (file_at p (w_fs w)) as [f|] eqn:Hf; [|discriminate].
  destruct (in_scope_of_inv pkgs p Hscope)
    as (pkg & name & more & Hpkg & Hp & Hgo).
  destruct (list_eq_dec N.eq_dec (update (file_text f)) (file_text f))
    as [Hfix|Hne].
  - destruct (main_on_unchanged unicode_alnum p _ f Hp Hfix pkgs w Hf)
      as [[Hsame _] _].
    rewrite Hrun in Hsame. cbn [snd] in Hsame.
    replace f1 with f by congruence. exact Hfix.
  - subst p.
    destruct (main_on_target unicode_alnum (file_text f)
                (update (file_text f)) eq_refl Hne
                (update_content_reads_back unicode_alnum f)
                (UpdateImportsFacts.update_content_idempotent
                   unicode_alnum _ (Hch _ f Hscope Hf))
                pkg name more Hgo pkgs w f Hpkg Hf eq_refl l w1 Hrun)
      as (_ & (t & Ht) & _).
    replace f1 with (mkFile (update (file_text f)) t) by congruence.
    unfold file_text at 1 3. cbn [f_content].
    rewrite (update_content_reads_back unicode_alnum f).
    apply UpdateImportsFacts.update_content_idempotent.
    exact (Hch _ f Hscope Hf).
Qed.

(** A run over settled files writes nothing and lists nothing. *)
Lemma main_on_settled_noop (pkgs : list string) (w1 : world) :
  settled pkgs w1 ->
  let r := main_on unicode_alnum pkgs w1 in
  w_fs (snd r) = w_fs w1
  /\ w_clock (snd r) = w_clock w1
  /\ forall l, fst r = Ok l -> l = [].
Proof.
  intros Hset. cbv zeta. rewrite main_on_run.
  destruct (foldM_guarded visit_pkg
              (fun u => w_fs u = w_fs w1 /\ w_clock u = w_clock w1)
              (fun acc => acc = []) pkgs) with (b := @nil path) (v := w1)
    as [[Hfs Hclk] Hacc]; [|now split|reflexivity|].
  - intros k b v Hk [Hfs Hclk] ->. rewrite visit_package_run.
    destruct (lookup (joinpath internal_dir [k]) (w_fs v)) as [n|];
      [|split; [now split|now intros b' [= <-]]].
    apply (foldM_guarded visit1
             (fun u => w_fs u = w_fs w1 /\ w_clock u = w_clock w1)
             (fun acc => acc = [])); [|now split|reflexivity].
    intros x b u Hx [Hfs' Hclk'] ->.
    destruct (visit_cases unicode_alnum [] x u)
      as [[_ ->]|[(f & _ & _ & ->)|(f & fs' & Hf & Hu & _)]].
    + split; [now split|discriminate].
    + split; [now split|now intros b' [= <-]].
    + exfalso. apply Hu. rewrite Hfs' in Hf.
      apply (Hset x f); [|exact Hf].
      exact (in_scope_of_rglob pkgs k n x Hk Hx).
  - destruct (foldM visit_pkg pkgs [] w1) as [[l1|e] v1];
      cbn [fst snd w_fs w_clock] in *.
    + split; [exact Hfs|]. split; [exact Hclk|].
      intros l [= <-]. now apply Hacc.
    + split; [exact Hfs|]. split; [exact Hclk|discriminate].
Qed.

End UpdateRunAgain.

Lemma file_at_all_files (p : path) :
forall n f, file_at p n = Some f -> In f (all_files n).
Proof.
induction p as [|x p IH]; intros n f H.
- destruct n as [g|es]; [|discriminate]. injection H as ->. now left.
- destruct n as [g|es]; [discriminate|]. rewrite file_at_cons in H.
  destruct (assoc x es) as [m|] eqn:Ea; [|discriminate].
  simpl. apply in_flat_map. exists (x, m).
  split; [now apply assoc_In|now apply IH].
Qed.

Section UpdateRunExtras.

Import UpdateImports Examples MoreExamples.

(** X4: when [main] ends, the list it reports is, in order, the list of
    the files it wrote (each relative to the root), and what it prints is
    the count line followed by one line per reported file. *)
Theorem report_lists_writes (unicode_alnum : char -> bool) (w : world)
        (l : list path) (w' : world) :
  main unicode_alnum w = (Ok l, w') ->
  exists evs,
    w_log w' = w_log w ++ evs
    /\ map (joinpath root) l = written evs
    /\ w_out w' = w_out w ++ report l.
Proof. apply main_on_reported. Qed.

Lemma report_lists_writes_witness :
  exists evs,
    w_log (snd (main no_unicode
                  (world_of (project full_in plain migrated plain))))
    = [] ++ evs
    /\ map (joinpath root) [Path "internal/cli/a.go";
                            Path "internal/cli/renderer/json.go"]
       = written evs.
Proof.
  destruct (report_lists_writes no_unicode
              (world_of (project full_in plain migrated plain))
              [Path "internal/cli/a.go";
               Path "internal/cli/renderer/json.go"]
              (snd (main no_unicode
                      (world_of (project full_in plain migrated plain))))
              ltac:(vm_compute; reflexivity)) as (evs & H1 & H2 & _).
  exists evs. now split.
Defined.

(** X5: when [main] ends without an exception, no name that [rglob]
    lists below the existing packages is a directory: each is a regular
    file. *)
Theorem main_ends_only_if_listed_regular (unicode_alnum : char -> bool)
        (w : world) (l : list path) (w' : world) :
  main unicode_alnum w = (Ok l, w') ->
  listed_regular packages (w_fs w) = true.
Proof.
  intros Hrun.
  apply (proj1 (main_on_ok_iff unicode_alnum packages w)).
  now exists l, w'.
Qed.

Lemma main_ends_only_if_listed_regular_witness :
  listed_regular packages
    (w_fs (world_of (project full_in plain migrated plain))) = true
  /\ listed_regular packages (w_fs (world_of with_go_directory)) = false
  /\ forall l, fst (main no_unicode (world_of with_go_directory)) <> Ok l.
Proof.
  split; [|split; [vm_compute; reflexivity|]].
  - exact (main_ends_only_if_listed_regular no_unicode
             (world_of (project full_in plain migrated plain))
             [Path "internal/cli/a.go";
              Path "internal/cli/renderer/json.go"]
             (snd (main no_unicode
                     (world_of (project full_in plain migrated plain))))
             ltac:(vm_compute; reflexivity)).
  - intros l H. vm_compute in H. discriminate.
Defined.

(** X6: when [main] raises, nothing has been printed: the report is
    written only after both loops have ended. *)
Theorem main_raise_prints_nothing (unicode_alnum : char -> bool)
        (w : world) (e : exn) (w' : world) :
  main unicode_alnum w = (Raise e, w') ->
  w_out w' = w_out w.
Proof.
  intros Hrun.
  exact (proj1 (main_on_raise unicode_alnum packages w e w' Hrun)).
Qed.

Lemma main_raise_prints_nothing_witness :
  let w := world_of with_go_directory in
  fst (main no_unicode w)
  = Raise (OSError (Path "/Volumes/Development/dot/internal/cli/gen.go"))
  /\ w_out (snd (main no_unicode w)) = []
  /\ file_at a_go (w_fs (snd (main no_unicode w)))
     = Some (mkFile full_out 1).
Proof.
  cbv zeta.
  pose proof (main_raise_prints_nothing no_unicode
                (world_of with_go_directory)
                (OSError (Path "/Volumes/Development/dot/internal/cli/gen.go"))
                (snd (main no_unicode (world_of with_go_directory)))
                ltac:(vm_compute; reflexivity)) as Hout.
  split; [vm_compute; reflexivity|].
  split; [exact Hout|vm_compute; reflexivity].
Defined.

(** X7: when [main] ends, it has read every regular file in scope. *)
Theorem main_reads_every_file_in_scope (unicode_alnum : char -> bool)
        (w : world) (l : list path) (w' : world) (p : path) :
  main unicode_alnum w = (Ok l, w') ->
  in_scope p = true ->
  is_file_at p (w_fs w) = true ->
  exists evs, w_log w' = w_log w ++ evs /\ In (EvRead p) evs.
Proof.
  intros Hrun Hscope Hfile.
  destruct (in_scope_of_inv packages p Hscope)
    as (pkg & name & more & Hpkg & -> & Hgo).
  exact (main_on_reads unicode_alnum w pkg name more Hgo Hfile
           packages l w' Hpkg Hrun).
Qed.

Lemma main_reads_every_file_in_scope_witness :
  exists evs,
    w_log (snd (main no_unicode
                  (world_of (project full_in plain plain plain))))
    = [] ++ evs
    /\ In (EvRead b_go) evs.
Proof.
  exact (main_reads_every_file_in_scope no_unicode
           (world_of (project full_in plain plain plain))
           [Path "internal/cli/a.go"]
           (snd (main no_unicode
                   (world_of (project full_in plain plain plain))))
           b_go
           ltac:(vm_compute; reflexivity)
           ltac:(vm_compute; reflexivity)
           ltac:(vm_compute; reflexivity)).
Defined.

(** X8: after a run of [main] that ends, on files none of which held two
    old import strings sharing a quote, a second run ends too, writes no
    file (tree and clock are the same) and reports zero files. *)
Theorem second_run_changes_nothing (unicode_alnum : char -> bool)
        (w : world) (l : list path) (w1 : world) :
  (forall p f, in_scope p = true -> file_at p (w_fs w) = Some f ->
               contains chained_import (file_text f) = false) ->
  main unicode_alnum w = (Ok l, w1) ->
  exists w2,
    main unicode_alnum w1 = (Ok [], w2)
    /\ w_fs w2 = w_fs w1
    /\ w_clock w2 = w_clock w1
    /\ w_out w2 = w_out w1 ++ ["Updated 0 files:"%string].
Proof.
  intros Hch Hrun.
  pose proof (main_on_settles unicode_alnum packages w l w1 Hch Hrun)
    as Hset.
  assert (Hreg : listed_regular packages (w_fs w1) = true).
  { pose proof (main_on_shape unicode_alnum packages w) as Hs.
    fold (main unicode_alnum w) in Hs. rewrite Hrun in Hs.
    cbn [snd] in Hs.
    rewrite (listed_regular_shape packages _ _ Hs).
    apply (proj1 (main_on_ok_iff unicode_alnum packages w)).
    now exists l, w1. }
  destruct (main_on_ok unicode_alnum packages w1 Hreg) as (l2 & w2 & E).
  destruct (main_on_settled_noop unicode_alnum packages w1 Hset)
    as (Hfs & Hclk & Hl).
  rewrite E in Hfs, Hclk, Hl. cbn [fst snd] in *.
  rewrite (Hl l2 eq_refl) in E.
  exists w2. split; [exact E|]. split; [exact Hfs|]. split; [exact Hclk|].
  destruct (main_on_reported unicode_alnum packages w1 [] w2 E)
    as (_ & _ & _ & Hout).
  exact Hout.
Qed.

Lemma second_run_changes_nothing_witness :
  let w1 := snd (main no_unicode
                   (world_of (project full_in plain migrated plain))) in
  exists w2,
    main no_unicode w1 = (Ok [], w2) /\ w_fs w2 = w_fs w1.
Proof.
  destruct (second_run_changes_nothing no_unicode
              (world_of (project full_in plain migrated plain))
              [Path "internal/cli/a.go";
               Path "internal/cli/renderer/json.go"]
              (snd (main no_unicode
                      (world_of (project full_in plain migrated plain)))))
    as (w2 & H1 & H2 & _).
  - intros p f _ Hf. apply file_at_all_files in Hf.
    assert (Hall : forallb (fun f =>
                     negb (contains chained_import (file_text f)))
                     (all_files (w_fs (world_of
                        (project full_in plain migrated plain)))) = true)
      by (vm_compute; reflexivity).
    rewrite forallb_forall in Hall. specialize (Hall f Hf).
    now apply negb_true_iff in Hall.
  - vm_compute. reflexivity.
  - now exists w2.
Defined.

End UpdateRunExtras.

(** ** Renamer A: when a text changes, and what holds afterwards *)

Section FixContentMore.

Import FixRenderer.

Local Abbreviation DS := (lit "domain.Status").
Local Abbreviation DP := (lit "domain.PackageInfo").
Local Abbreviation import_lines :=
  (domain_import ++ [newline; tab] ++ dot_import).

Lemma add_import_inserts (c : str) :
  contains domain_import c = true -> contains dot_marker c = false ->
  add_import c = replace domain_import import_lines c.
Proof.
  intros Hi Hd. unfold add_import.
  now rewrite Hd, (contains_trans domain_marker domain_import c) by side.
Qed.

Lemma add_import_fixed_iff (c : str) :
  add_import c = c
  <-> contains domain_import c && negb (contains dot_marker c) = false.
Proof.
  split.
  - intros E.
    destruct (contains domain_import c) eqn:Hi; [|reflexivity].
    destruct (contains dot_marker c) eqn:Hd; [reflexivity|exfalso].
    rewrite (add_import_inserts c Hi Hd) in E.
    assert (H : contains dot_marker (replace domain_import import_lines c)
                = true) by (apply replace_contains_new; side).
    rewrite E in H. congruence.
  - intros H. unfold add_import.
    destruct (contains dot_marker c); [now rewrite andb_false_r|].
    rewrite andb_true_r in *. cbn [negb].
    destruct (contains domain_marker c); [|reflexivity].
    apply replace_id; side.
Qed.

Lemma fix_content_fixed_iff (c : str) :
  fix_content c = c
  <-> contains DS c = false
      /\ contains DP c = false
      /\ contains domain_import c && negb (contains dot_marker c) = false.
Proof.
  split.
  - intros E.
    assert (Hadd : contains domain_import c && negb (contains dot_marker c)
                   = false).
    { destruct (contains domain_import c) eqn:Hi; [|reflexivity].
      destruct (contains dot_marker c) eqn:Hd; [reflexivity|exfalso].
      assert (H : contains dot_marker (fix_content c) = true).
      { unfold fix_content.
        apply FixRendererFacts.rename_idents_contains; [side|side|].
        rewrite (add_import_inserts c Hi Hd).
        apply replace_contains_new; side. }
      rewrite E in H. congruence. }
    destruct (FixRendererFacts.rename_idents_gone (add_import c))
      as [H1 H2].
    fold (fix_content c) in H1, H2. rewrite E in H1, H2. now repeat split.
  - intros (H1 & H2 & H3). unfold fix_content.
    rewrite (proj2 (add_import_fixed_iff c) H3).
    now apply FixRendererFacts.rename_idents_fixed.
Qed.

Lemma fix_content_no_cr (c : str) :
  contains [cr] c = false -> contains [cr] (fix_content c) = false.
Proof.
  intros H. unfold fix_content.
  apply FixRendererFacts.rename_idents_absent; [side|side|].
  unfold add_import.
  destruct (contains domain_marker c && negb (contains dot_marker c));
    [|exact H].
  apply replace_absent; side.
Qed.

(** What Renamer A wrote reads back as written, and is kept by a second
    pass. *)
Lemma fix_content_settled (f : file) :
  let T := fix_content (file_text f) in
  universal_newlines T = T /\ fix_content T = T.
Proof.
  split.
  - apply universal_newlines_fixed, fix_content_no_cr.
    apply universal_newlines_no_cr.
  - apply FixRendererFacts.fix_content_idempotent.
Qed.

End FixContentMore.

(** ** Renamer A: whole runs *)

Lemma for_each_foldM {A} (body : A -> M unit) (l : list A) (w : world) :
for_each l body w = foldM (fun _ x => body x) l tt w.
Proof.
revert w; induction l as [|x l IH]; intros w; [reflexivity|].
simpl. unfold bind. destruct (body x w) as [[[]|e] w1]; [apply IH|reflexivity].
Qed.

Lemma is_entry_iff (fl : list string) (q : path) :
is_entry fl q = true <-> exists fp, In fp fl /\ q = entry_path fp.
Proof.
unfold is_entry. rewrite existsb_exists. split.
- intros (p & Hin & Heq). apply path_eqb_eq in Heq. subst p.
  apply in_map_iff in Hin as (fp & <- & Hfp). now exists fp.
- intros (fp & Hfp & ->). exists (entry_path fp).
  split; [now apply in_map|apply path_eqb_refl].
Qed.

Section FixRunMore.

Import FixRenderer.

(** The three ways an iteration can go. *)
Lemma fix_file_cases (fp : string) (w : world) :
  (lookup (entry_path fp) (w_fs w) = None /\ fix_file fp w = (Ok tt, w))
  \/ (exists es, lookup (entry_path fp) (w_fs w) = Some (Dir es)
                 /\ fix_file fp w = (Raise (OSError (entry_path fp)), w))
  \/ (exists f fs',
        file_at (entry_path fp) (w_fs w) = Some f
        /\ put (entry_path fp)
               (mkFile (fix_content (file_text f)) (w_clock w)) (w_fs w)
           = Some fs'
        /\ file_at (entry_path fp) fs'
           = Some (mkFile (fix_content (file_text f)) (w_clock w))
        /\ fix_file fp w
           = (Ok tt,
              mkWorld fs' (S (w_clock w))
                (w_log w ++ [EvRead (entry_path fp); EvWrite (entry_path fp)])
                (w_out w))).
Proof.
  destruct (lookup (entry_path fp) (w_fs w)) as [[f|es]|] eqn:El.
  - right. right.
    assert (Hf : file_at (entry_path fp) (w_fs w) = Some f)
      by (unfold file_at; now rewrite El).
    destruct (fix_file_existing fp w f Hf) as (fs' & Hput & Hrun).
    destruct (put_existing (entry_path fp)
                (mkFile (fix_content (file_text f)) (w_clock w)) _ _ Hf)
      as (fs'' & Hput' & Hat & _).
    unfold entry_path in *.
    replace fs'' with fs' in Hat by congruence.
    now exists f, fs'.
  - right. left. exists es. split; [reflexivity|].
    unfold fix_file, bind, path_exists. cbv zeta.
    unfold entry_path in El. rewrite El. cbn [negb]. cbv beta iota.
    unfold read_text, file_at. now rewrite El.
  - left. split; [reflexivity|]. now apply fix_file_missing.
Qed.

Lemma fix_file_shape (fp : string) (w : world) :
  shape (w_fs (snd (fix_file fp w))) = shape (w_fs w).
Proof.
  destruct (fix_file_cases fp w)
    as [[_ ->]|[(es & _ & ->)|(f & fs' & Hf & Hput & _ & ->)]];
    try reflexivity.
  exact (put_shape _ _ _ _ _ Hf Hput).
Qed.

Lemma fix_file_out (fp : string) (w : world) :
  w_out (snd (fix_file fp w)) = w_out w.
Proof.
  now destruct (fix_file_cases fp w)
    as [[_ ->]|[(es & _ & ->)|(f & fs' & _ & _ & _ & ->)]].
Qed.

Lemma fix_file_other (fp : string) (w : world) (q : path) :
  q <> entry_path fp ->
  file_at q (w_fs (snd (fix_file fp w))) = file_at q (w_fs w).
Proof.
  intros Hq.
  destruct (fix_file_cases fp w)
    as [[_ ->]|[(es & _ & ->)|(f & fs' & _ & Hput & _ & ->)]];
    try reflexivity.
  exact (put_frame _ _ _ _ _ Hput Hq).
Qed.

Lemma fix_file_only_touches (fl : list string) (fp : string) (w : world) :
  In fp fl -> only_touches (is_entry fl) w (snd (fix_file fp w)).
Proof.
  intros Hfp.
  assert (Hin : is_entry fl (entry_path fp) = true)
    by (apply is_entry_iff; now exists fp).
  split.
  - destruct (fix_file_cases fp w)
      as [[_ ->]|[(es & _ & ->)|(f & fs' & _ & _ & _ & ->)]]; cbn [snd w_log].
    + exists []. now rewrite app_nil_r.
    + exists []. now rewrite app_nil_r.
    + eexists. split; [reflexivity|]. now repeat constructor.
  - intros q Hq. apply fix_file_other. intros ->. congruence.
Qed.

Local Abbreviation loop fl := (foldM (fun (_ : unit) x => fix_file x) fl tt).

Lemma script_on_run (fl : list string) (w : world) :
  script_on fl w
  = match loop fl w with
    | (Ok _, w1) =>
        (Ok tt, mkWorld (w_fs w1) (w_clock w1) (w_log w1)
                        (w_out w1 ++ ["Fixed renderer files"%string]))
    | (Raise e, w1) => (Raise e, w1)
    end.
Proof.
  unfold script_on, bind. rewrite for_each_foldM.
  now destruct (loop fl w) as [[[]|e] w1].
Qed.

Lemma loop_world (I : world -> Prop) (fl : list string) (w : world) :
  (forall fp v, In fp fl -> I v -> I (snd (fix_file fp v))) ->
  I w -> I (snd (loop fl w)).
Proof.
  intros Hstep. apply foldM_world. intros x b v. apply Hstep.
Qed.

Lemma script_on_only_touches (fl : list string) (w : world) :
  only_touches (is_entry fl) w (snd (script_on fl w)).
Proof.
  rewrite script_on_run.
  pose proof (loop_world (only_touches (is_entry fl) w) fl w
    (fun fp v Hfp Hv =>
       only_touches_trans _ _ _ _ Hv (fix_file_only_touches fl fp v Hfp))
    (only_touches_refl _ w)) as H.
  now destruct (loop fl w) as [[[]|e] w1].
Qed.

Lemma script_on_shape (fl : list string) (w : world) :
  shape (w_fs (snd (script_on fl w))) = shape (w_fs w).
Proof.
  rewrite script_on_run.
  pose proof (loop_world (fun v => shape (w_fs v) = shape (w_fs w)) fl w
    (fun fp v _ Hv => eq_trans (fix_file_shape fp v) Hv) eq_refl) as H.
  now destruct (loop fl w) as [[[]|e] w1].
Qed.

End FixRunMore.

Section LinkedFixRun.

Import FixRenderer.

Variable ls : links.

(** Without links an iteration is the iteration of
    [FixRenderer.fix_file], and the run is [FixRenderer.script_on]. *)
Lemma linked_fix_file_nil (fp : string) (w : world) :
  LinkedFixRenderer.fix_file [] fp w = fix_file fp w.
Proof. reflexivity. Qed.

Lemma linked_script_on_nil (fl : list string) (w : world) :
  LinkedFixRenderer.script_on [] fl w = script_on fl w.
Proof. reflexivity. Qed.

(** Lines 20-40 open the file they are given and nothing else. *)
Lemma fix_path_frame (q : path) (w : world) :
  let w' := snd (LinkedFixRenderer.fix_path q w) in
  (exists evs, w_log w' = w_log w ++ evs
               /\ Forall (fun e => event_path e = q) evs)
  /\ forall p, p <> q -> file_at p (w_fs w') = file_at p (w_fs w).
Proof.
  assert (Hnone : forall v : world,
             (exists evs, w_log v = w_log v ++ evs
                          /\ Forall (fun e => event_path e = q) evs)
             /\ forall p, p <> q -> file_at p (w_fs v) = file_at p (w_fs v)).
  { intros v. split; [|reflexivity]. exists []. now rewrite app_nil_r. }
  unfold LinkedFixRenderer.fix_path, bind, path_exists. cbv beta zeta.
  destruct (lookup q (w_fs w)) as [[f|es]|] eqn:El; cbn [negb];
    cbv beta iota; [| |apply Hnone].
  - unfold read_text, file_at. rewrite El. cbv beta iota.
    unfold write_text. cbn [w_fs w_clock w_log w_out].
    destruct (put q (mkFile (fix_content (universal_newlines (f_content f)))
                            (w_clock w)) (w_fs w)) as [fs'|] eqn:Hput;
      cbn [snd w_fs w_log].
    + split.
      * exists [EvRead q; EvWrite q].
        split; [now rewrite <- app_assoc|now repeat constructor].
      * intros p Hp. exact (put_frame _ _ _ _ _ Hput Hp).
    + split; [|reflexivity].
      exists [EvRead q]. split; [reflexivity|now repeat constructor].
  - unfold read_text, file_at. rewrite El. apply Hnone.
Qed.

Lemma linked_fix_file_only_touches (fl : list string) (fp : string)
      (w : world) :
  links_within (is_entry fl) ls = true ->
  In fp fl ->
  only_touches (is_entry fl) w (snd (LinkedFixRenderer.fix_file ls fp w)).
Proof.
  intros Hw Hfp. unfold LinkedFixRenderer.fix_file. cbv zeta.
  fold (entry_path fp).
  destruct (resolve ls (entry_path fp)) as [q|] eqn:E;
    [|apply only_touches_refl].
  assert (Hq : is_entry fl q = true).
  { rewrite (resolve_within _ ls Hw _ _ E).
    apply is_entry_iff. now exists fp. }
  destruct (fix_path_frame q w) as ((evs & Hlog & Hev) & Hframe).
  split.
  - exists evs. split; [exact Hlog|].
    eapply Forall_impl; [|exact Hev]. now intros e ->.
  - intros p Hp. apply Hframe. congruence.
Qed.

(** With links that stay among the entries, only the entries are
    opened. *)
Lemma linked_script_on_only_touches (fl : list string) (w : world) :
  links_within (is_entry fl) ls = true ->
  only_touches (is_entry fl) w
    (snd (LinkedFixRenderer.script_on ls fl w)).
Proof.
  intros Hw. unfold LinkedFixRenderer.script_on, bind.
  rewrite for_each_foldM.
  pose proof (foldM_world
    (fun (_ : unit) x => LinkedFixRenderer.fix_file ls x)
    (only_touches (is_entry fl) w) fl
    (fun fp _ v Hfp Hv =>
       only_touches_trans _ _ _ _ Hv
         (linked_fix_file_only_touches fl fp v Hw Hfp))
    tt w (only_touches_refl _ w)) as H.
  destruct (foldM _ fl tt w) as [[[]|e] w1]; [|exact H].
  cbn [snd] in *. destruct H as [Hlog Hframe]. split; assumption.
Qed.

End LinkedFixRun.

(** When the entry [json.go] is a link to [internal/domain/d.go], the
    run rewrites the file under [internal/domain]. *)
Lemma entry_link_leads_out :
let w := Examples.world_of
           (Examples.project Examples.plain Examples.plain Examples.plain
                             MoreExamples.domain_only) in
let w' := snd (LinkedFixRenderer.script MoreExamples.json_to_d w) in
is_entry FixRenderer.files MoreExamples.d_go = false
/\ file_at MoreExamples.d_go (w_fs w)
   = Some (mkFile MoreExamples.domain_only 0)
/\ file_at MoreExamples.d_go (w_fs w')
   = Some (mkFile (FixRenderer.fix_content MoreExamples.domain_only) 1)
/\ FixRenderer.fix_content MoreExamples.domain_only
   <> MoreExamples.domain_only.
Proof.
cbv zeta. repeat split; try (vm_compute; reflexivity).
intros H. vm_compute in H. discriminate.
Qed.

Lemma is_dir_shape (n : node) : is_dir (shape n) = is_dir n.
Proof. now destruct n. Qed.

Lemma lookup_is_dir_shape (p : path) (n n' : node) :
shape n' = shape n ->
option_map is_dir (lookup p n') = option_map is_dir (lookup p n).
Proof.
intros H. pose proof (lookup_shape p n') as H'.
rewrite H, lookup_shape in H'.
destruct (lookup p n') as [m'|], (lookup p n) as [m|]; try discriminate;
  [|reflexivity].
injection H' as Hm. simpl.
now rewrite <- (is_dir_shape m'), <- Hm, is_dir_shape.
Qed.

Lemma entries_regular_shape (fl : list string) (n n' : node) :
shape n' = shape n -> entries_regular fl n' = entries_regular fl n.
Proof.
intros H. unfold entries_regular.
induction fl as [|fp fl IH]; [reflexivity|].
cbn [forallb]. rewrite IH. f_equal.
pose proof (lookup_is_dir_shape (entry_path fp) n n' H) as Hd.
destruct (lookup (entry_path fp) n'), (lookup (entry_path fp) n);
  try discriminate; [|reflexivity].
simpl in Hd. now injection Hd as ->.
Qed.

Section FixRunEnds.

Import FixRenderer.

Local Abbreviation loop fl := (foldM (fun (_ : unit) x => fix_file x) fl tt).

Lemma loop_ok (fl : list string) (w : world) :
  entries_regular fl (w_fs w) = true ->
  exists w', loop fl w = (Ok tt, w').
Proof.
  intros Hreg.
  destruct (foldM_ok (fun (_ : unit) x => fix_file x)
              (fun v => shape (w_fs v) = shape (w_fs w)) fl)
    with (b := tt) (w := w) as ([] & w' & E & _); [|reflexivity|].
  - intros fp [] v Hfp Hv.
    pose proof (fix_file_shape fp v) as Hs.
    rewrite <- (entries_regular_shape fl _ _ Hv) in Hreg.
    unfold entries_regular in Hreg. rewrite forallb_forall in Hreg.
    specialize (Hreg fp Hfp).
    destruct (fix_file_cases fp v)
      as [[_ E]|[(es & El & _)|(f & fs' & _ & _ & _ & E)]].
    + rewrite E in *. exists tt, v. now split.
    + now rewrite El in Hreg.
    + rewrite E in *. eexists tt, _. split; [reflexivity|].
      exact (eq_trans Hs Hv).
  - now exists w'.
Qed.

Lemma loop_ok_regular (fl : list string) :
  forall w u w', loop fl w = (Ok u, w') ->
                 entries_regular fl (w_fs w) = true.
Proof.
  induction fl as [|fp fl IH]; intros w u w' H; [reflexivity|].
  simpl in H. unfold bind in H.
  pose proof (fix_file_shape fp w) as Hs.
  pose proof (fix_file_cases fp w) as Hc.
  destruct (fix_file fp w) as [[[]|e] w1]; [|discriminate].
  cbn [snd] in Hs. unfold entries_regular. cbn [forallb].
  apply andb_true_iff. split.
  - destruct Hc as [[-> _]|[(es & _ & E)|(f & fs' & Hf & _)]];
      [reflexivity|discriminate|].
    now rewrite (file_at_lookup _ _ _ Hf).
  - fold (entries_regular fl (w_fs w)).
    rewrite <- (entries_regular_shape fl _ _ Hs). exact (IH _ _ _ H).
Qed.

Lemma script_on_ok_iff (fl : list string) (w : world) :
  (exists w', script_on fl w = (Ok tt, w'))
  <-> entries_regular fl (w_fs w) = true.
Proof.
  rewrite script_on_run. split.
  - intros (w' & H).
    destruct (loop fl w) as [[u|e] w1] eqn:E; [|discriminate].
    exact (loop_ok_regular fl _ _ _ E).
  - intros H. destruct (loop_ok fl w H) as (w1 & ->). now eexists.
Qed.

Lemma script_on_raise (fl : list string) (w : world) (e : exn)
      (w' : world) :
  script_on fl w = (Raise e, w') ->
  w_out w' = w_out w
  /\ exists fp, In fp fl
                /\ e = OSError (entry_path fp)
                /\ option_map is_dir (lookup (entry_path fp) (w_fs w))
                   = Some true.
Proof.
  rewrite script_on_run.
  pose proof (loop_world (fun v => w_out v = w_out w) fl w
    (fun fp v _ Hv => eq_trans (fix_file_out fp v) Hv) eq_refl) as Hout.
  pose proof (foldM_raise (fun (_ : unit) x => fix_file x)
    (fun v => shape (w_fs v) = shape (w_fs w))
    (fun e => exists fp, In fp fl /\ e = OSError (entry_path fp)
                /\ option_map is_dir (lookup (entry_path fp) (w_fs w))
                   = Some true) fl
    (fun fp _ v _ Hv => eq_trans (fix_file_shape fp v) Hv)) as Hblame.
  destruct (loop fl w) as [[u|e1] w1] eqn:E; [discriminate|].
  intros [= <- <-]. split; [exact Hout|].
  apply (Hblame) with (b := tt) (w := w); [|reflexivity|now rewrite E].
  intros fp [] v e' Hfp Hv Hr.
  destruct (fix_file_cases fp v)
    as [[_ E']|[(es & El & E')|(f & fs' & _ & _ & _ & E')]];
    rewrite E' in Hr; try discriminate.
  injection Hr as <-. exists fp. split; [exact Hfp|].
  split; [reflexivity|].
  rewrite <- (lookup_is_dir_shape _ _ _ Hv), El. reflexivity.
Qed.

(** *** What a listed file holds after the run *)

Variables (P : path) (f : file).

Local Abbreviation T := (fix_content (file_text f)).

Local Abbreviation todo rest v :=
  (file_at P (w_fs v) = Some f
   /\ exists fp, In fp rest /\ entry_path fp = P).
Local Abbreviation done v :=
  (exists t, file_at P (w_fs v) = Some (mkFile T t)).

Lemma fix_file_step (fp : string) (rest : list string) (u : unit)
      (v : world) :
  todo (fp :: rest) v \/ done v ->
  match fix_file fp v with
  | (Ok _, v') => todo rest v' \/ done v'
  | (Raise _, _) => True
  end.
Proof.
  intros H.
  pose proof (fix_file_other fp v P) as Hoth.
  destruct (fix_content_settled f) as [Hread Hfix].
  destruct (list_eq_dec string_dec (entry_path fp) P) as [HP|HP].
  - destruct (fix_file_cases fp v)
      as [[Hn _]|[(es & El & _)|(g & fs' & Hg & _ & Hat & ->)]].
    + exfalso. rewrite HP in Hn.
      destruct H as [[Hf _]|(t & Hf)];
        apply file_at_lookup in Hf; congruence.
    + exfalso. rewrite HP in El.
      destruct H as [[Hf _]|(t & Hf)];
        apply file_at_lookup in Hf; congruence.
    + right. rewrite HP in *. exists (w_clock v). cbn [w_fs].
      rewrite Hat. f_equal. f_equal.
      destruct H as [[Hf _]|(t & Hf)].
      * congruence.
      * replace g with (mkFile T t) by congruence.
        unfold file_text at 1. cbn [f_content]. now rewrite Hread.
  - assert (Hsame : file_at P (w_fs (snd (fix_file fp v)))
                    = file_at P (w_fs v)) by (apply Hoth; congruence).
    destruct (fix_file fp v) as [[[]|e] v']; [|exact I].
    cbn [snd] in Hsame. rewrite Hsame.
    destruct H as [[Hf (x & [<-|Hx] & Hp)]|H]; [congruence| |now right].
    left. split; [exact Hf|]. now exists x.
Qed.

Lemma script_on_result (fl : list string) (fp : string) (w w' : world) :
  In fp fl -> entry_path fp = P ->
  file_at P (w_fs w) = Some f ->
  script_on fl w = (Ok tt, w') ->
  exists t, file_at P (w_fs w') = Some (mkFile T t).
Proof.
  intros Hfp HP Hf. rewrite script_on_run.
  pose proof (foldM_inv (fun (_ : unit) x => fix_file x)
    (fun rest _ v => todo rest v \/ done v) (fun _ => True)
    (fun x l0 b u Hb => fix_file_step x l0 b u Hb) fl tt w) as Hend.
  destruct (loop fl w) as [[u|e] w1]; [|discriminate].
  intros [= <-]. cbn [w_fs].
  destruct Hend as [[_ (x & [] & _)]|Hd]; [|exact Hd].
  left. split; [exact Hf|]. now exists fp.
Qed.

End FixRunEnds.

Section FixExtras.

Import FixRenderer Examples MoreExamples.

(** X9: Renamer A returns a text as it is exactly when the text holds
    neither [domain.Status] nor [domain.PackageInfo] and does not hold
    the quoted [internal/domain] import without the marker [pkg/dot]. *)
Theorem fix_content_kept_iff (c : str) :
  fix_content c = c
  <-> contains (lit "domain.Status") c = false
      /\ contains (lit "domain.PackageInfo") c = false
      /\ contains domain_import c && negb (contains dot_marker c) = false.
Proof. apply fix_content_fixed_iff. Qed.

(** X10: a text that holds the quoted [internal/domain] import still
    holds it after Renamer A and then names [pkg/dot]; if it did not name
    [pkg/dot] before, it now holds the import line of [internal/domain]
    followed by a line feed, a tab and the import of [pkg/dot]. *)
Theorem fix_content_post (c : str) :
  contains domain_import c = true ->
  contains domain_import (fix_content c) = true
  /\ contains dot_marker (fix_content c) = true
  /\ (contains dot_marker c = false ->
      contains (domain_import ++ [newline; tab] ++ dot_import)
               (fix_content c) = true).
Proof.
  intros Hi. unfold fix_content.
  destruct (contains dot_marker c) eqn:Hd.
  - rewrite (proj2 (add_import_fixed_iff c))
      by (now rewrite Hd, andb_false_r).
    split; [|split; [|discriminate]];
      apply FixRendererFacts.rename_idents_contains; side.
  - rewrite (add_import_inserts c Hi Hd).
    split; [|split; [|intros _]];
      (apply FixRendererFacts.rename_idents_contains; [side|side|]);
      apply replace_contains_new; side.
Qed.

Lemma fix_content_post_witness :
  contains (domain_import ++ [newline; tab] ++ dot_import)
           (fix_content domain_only) = true.
Proof.
  exact (proj2 (proj2 (fix_content_post domain_only
                         ltac:(vm_compute; reflexivity)))
           ltac:(vm_compute; reflexivity)).
Defined.

(** X11: when no link joins a listed entry with another name, a run of
    Renamer A opens only the six listed files below the root; every
    other file has the same text and time stamp afterwards, under its
    own name and under every name that leads to it, whether the run
    ends or raises. *)
Theorem script_opens_only_entries (ls : links) (w : world) :
  links_within (is_entry files) ls = true ->
  let w' := snd (LinkedFixRenderer.script ls w) in
  (exists evs,
      w_log w' = w_log w ++ evs
      /\ Forall (fun e => exists fp, In fp files
                                     /\ event_path e = entry_path fp) evs)
  /\ forall q, (forall fp, In fp files -> q <> entry_path fp) ->
               file_at q (w_fs w') = file_at q (w_fs w)
               /\ reached ls q (w_fs w') = reached ls q (w_fs w).
Proof.
  intros Hw.
  destruct (linked_script_on_only_touches ls files w Hw)
    as [(evs & Hlog & Hev) Hframe].
  cbv zeta. split.
  - exists evs. split; [exact Hlog|].
    eapply Forall_impl; [|exact Hev]. intros e He.
    now apply is_entry_iff.
  - intros q Hq.
    assert (E : is_entry files q = false).
    { destruct (is_entry files q) eqn:E; [|reflexivity].
      apply is_entry_iff in E as (fp & Hfp & ->).
      now destruct (Hq fp Hfp). }
    split; [now apply Hframe|].
    now apply (reached_within (is_entry files) ls _ _ Hw Hframe).
Qed.

Lemma script_opens_only_entries_witness :
  let w := world_of (project plain domain_only domain_only plain) in
  let w' := snd (LinkedFixRenderer.script b_to_a w) in
  links_within (is_entry files) b_to_a = true
  /\ file_at b_go (w_fs w') = Some (mkFile domain_only 0)
  /\ w_log w' = [EvRead json_go; EvWrite json_go].
Proof.
  cbv zeta. split; [vm_compute; reflexivity|].
  split; [|vm_compute; reflexivity].
  destruct (script_opens_only_entries b_to_a
              (world_of (project plain domain_only domain_only plain))
              ltac:(vm_compute; reflexivity)) as (_ & H).
  rewrite (proj1 (H b_go ltac:(intros fp Hfp E; vm_compute in Hfp;
                               repeat (destruct Hfp as [<-|Hfp];
                                       [vm_compute in E; discriminate|]);
                               exact Hfp))).
  vm_compute. reflexivity.
Defined.

(** X12: when Renamer A ends without an exception, no listed entry is a
    directory, and its message is the last line printed. *)
Theorem script_ends_only_if_entries_regular (w w' : world) :
  script w = (Ok tt, w') ->
  entries_regular files (w_fs w) = true
  /\ w_out w' = w_out w ++ ["Fixed renderer files"%string].
Proof.
  intros Hrun. split.
  - apply (proj1 (script_on_ok_iff files w)). now exists w'.
  - revert Hrun. unfold script. rewrite script_on_run.
    pose proof (foldM_world (fun (_ : unit) x => fix_file x)
      (fun v => w_out v = w_out w) files
      (fun fp _ v _ Hv => eq_trans (fix_file_out fp v) Hv) tt w eq_refl)
      as Hout.
    destruct (foldM _ files tt w) as [[u|e] w1]; [|discriminate].
    intros [= <-]. cbn [w_out snd] in *. now rewrite Hout.
Qed.

Lemma script_ends_only_if_entries_regular_witness :
  let w := world_of (project plain plain domain_only plain) in
  entries_regular files (w_fs w) = true
  /\ w_out (snd (script w)) = ["Fixed renderer files"%string]
  /\ entries_regular files (w_fs (world_of with_entry_directory)) = false.
Proof.
  cbv zeta. split; [|split; [|vm_compute; reflexivity]];
    apply (script_ends_only_if_entries_regular
             (world_of (project plain plain domain_only plain))
             (snd (script
                     (world_of (project plain plain domain_only plain))))
             ltac:(vm_compute; reflexivity)).
Defined.

(** X13: when Renamer A raises, nothing has been printed. *)
Theorem script_raise_prints_nothing (w : world) (e : exn) (w' : world) :
  script w = (Raise e, w') -> w_out w' = w_out w.
Proof.
  intros Hrun. exact (proj1 (script_on_raise files w e w' Hrun)).
Qed.

Lemma script_raise_prints_nothing_witness :
  let w := world_of with_entry_directory in
  fst (script w) = Raise (OSError json_go)
  /\ w_out (snd (script w)) = [].
Proof.
  cbv zeta. split; [vm_compute; reflexivity|].
  exact (script_raise_prints_nothing
           (world_of with_entry_directory) (OSError json_go)
           (snd (script (world_of with_entry_directory)))
           ltac:(vm_compute; reflexivity)).
Defined.

(** X14: after a run of Renamer A that ends, every listed entry that was
    a regular file holds the fixed text of what it held. *)
Theorem script_result (w w' : world) (fp : string) (f : file) :
  script w = (Ok tt, w') ->
  In fp files ->
  file_at (entry_path fp) (w_fs w) = Some f ->
  exists t,
    file_at (entry_path fp) (w_fs w')
    = Some (mkFile (fix_content (file_text f)) t).
Proof.
  intros Hrun Hfp Hf.
  exact (script_on_result (entry_path fp) f files fp w w' Hfp eq_refl
           Hf Hrun).
Qed.

Lemma script_result_witness :
  exists t,
    file_at json_go
      (w_fs (snd (script
                    (world_of (project plain plain domain_only plain)))))
    = Some (mkFile (fix_content domain_only) t).
Proof.
  exact (script_result
           (world_of (project plain plain domain_only plain))
           (snd (script (world_of (project plain plain domain_only plain))))
           "internal/cli/renderer/json.go" (mkFile domain_only 0)
           ltac:(vm_compute; reflexivity)
           ltac:(vm_compute; tauto)
           ltac:(vm_compute; reflexivity)).
Defined.

(** X15: after a run of Renamer A that ends, a second run ends too and
    leaves every regular file with the text it had. *)
Theorem script_second_run_same_texts (w w1 : world) :
  script w = (Ok tt, w1) ->
  exists w2,
    script w1 = (Ok tt, w2)
    /\ forall q, option_map f_content (file_at q (w_fs w2))
                 = option_map f_content (file_at q (w_fs w1)).
Proof.
  intros Hrun.
  pose proof (script_on_shape files w) as Hs.
  fold script in Hs. rewrite Hrun in Hs. cbn [snd] in Hs.
  assert (Hreg : entries_regular files (w_fs w1) = true).
  { rewrite (entries_regular_shape files _ _ Hs).
    apply (proj1 (script_on_ok_iff files w)). now exists w1. }
  destruct (proj2 (script_on_ok_iff files w1) Hreg) as (w2 & Hrun2).
  fold script in Hrun2. exists w2. split; [exact Hrun2|].
  intros q.
  destruct (is_entry files q) eqn:E.
  - apply is_entry_iff in E as (fp & Hfp & ->).
    pose proof (script_on_shape files w1) as Hs2.
    fold script in Hs2. rewrite Hrun2 in Hs2. cbn [snd] in Hs2.
    pose proof (is_file_at_same_shape (entry_path fp) _ _ Hs2) as H21.
    pose proof (is_file_at_same_shape (entry_path fp) _ _ Hs) as H10.
    unfold is_file_at in H21, H10.
    destruct (file_at (entry_path fp) (w_fs w1)) as [f1|] eqn:Hf1.
    + destruct (file_at (entry_path fp) (w_fs w)) as [f|] eqn:Hf;
        [|discriminate].
      destruct (script_on_result (entry_path fp) f files fp w w1
                  Hfp eq_refl Hf Hrun) as (t1 & Ht1).
      destruct (script_on_result (entry_path fp) f1 files fp w1 w2
                  Hfp eq_refl Hf1 Hrun2) as (t2 & Ht2).
      rewrite Ht2. cbn [option_map f_content].
      replace f1 with (mkFile (fix_content (file_text f)) t1) by congruence.
      destruct (fix_content_settled f) as [Hread Hfix].
      unfold file_text at 1. cbn [f_content]. now rewrite Hread, Hfix.
    + now destruct (file_at (entry_path fp) (w_fs w2)).
  - destruct (script_on_only_touches files w1) as [_ Hframe].
    fold script in Hframe. rewrite Hrun2 in Hframe. cbn [snd] in Hframe.
    now rewrite (Hframe q E).
Qed.

Lemma script_second_run_same_texts_witness :
  let w1 := snd (script (world_of (project plain plain domain_only plain))) in
  exists w2, script w1 = (Ok tt, w2).
Proof.
  destruct (script_second_run_same_texts
              (world_of (project plain plain domain_only plain))
              (snd (script
                      (world_of (project plain plain domain_only plain))))
              ltac:(vm_compute; reflexivity)) as (w2 & H & _).
  now exists w2.
Defined.

End FixExtras.

(** ** Line endings *)

Section LineEndings.

Import Examples MoreExamples.

(** X16: every listed regular file is left by a run of Renamer A that
    ends without a carriage return: the text is read with every line
    ending turned into a line feed and written back that way. *)
Theorem script_writes_line_feeds (w w' : world) (fp : string) (f : file) :
  FixRenderer.script w = (Ok tt, w') ->
  In fp FixRenderer.files ->
  file_at (entry_path fp) (w_fs w) = Some f ->
  exists f',
    file_at (entry_path fp) (w_fs w') = Some f'
    /\ f_content f' = FixRenderer.fix_content (file_text f)
    /\ contains [cr] (f_content f') = false.
Proof.
  intros Hrun Hfp Hf.
  destruct (script_on_result (entry_path fp) f FixRenderer.files fp w w'
              Hfp eq_refl Hf Hrun) as (t & Ht).
  eexists. split; [exact Ht|]. split; [reflexivity|].
  apply fix_content_no_cr, universal_newlines_no_cr.
Qed.

Lemma script_writes_line_feeds_witness :
  let w := world_of (project plain plain crlf_text plain) in
  contains [cr] crlf_text = true
  /\ exists f',
       file_at json_go (w_fs (snd (FixRenderer.script w))) = Some f'
       /\ contains [cr] (f_content f') = false.
Proof.
  cbv zeta. split; [vm_compute; reflexivity|].
  destruct (script_writes_line_feeds
              (world_of (project plain plain crlf_text plain))
              (snd (FixRenderer.script
                      (world_of (project plain plain crlf_text plain))))
              "internal/cli/renderer/json.go" (mkFile crlf_text 0)
              ltac:(vm_compute; reflexivity)
              ltac:(vm_compute; tauto)
              ltac:(vm_compute; reflexivity)) as (f' & H1 & _ & H3).
  now exists f'.
Defined.

(** X17: a file that [update_imports_in_file] writes holds no carriage
    return afterwards, while a file it does not write keeps the line
    endings it had. *)
Theorem update_writes_line_feeds (unicode_alnum : char -> bool)
        (p : path) (w : world) (f : file) :
  file_at p (w_fs w) = Some f ->
  let r := UpdateImports.update_imports_in_file unicode_alnum p w in
  (fst r = Ok true ->
   exists f', file_at p (w_fs (snd r)) = Some f'
              /\ contains [cr] (f_content f') = false)
  /\ (fst r = Ok false -> file_at p (w_fs (snd r)) = Some f).
Proof.
  intros Hf r. subst r.
  destruct (update_imports_in_file_cases unicode_alnum p w)
    as [[Hn _]|[(g & Hg & _ & ->)|(g & fs' & Hg & _ & Hput & ->)]];
    [congruence| |]; cbn [fst snd w_fs].
  - split; [discriminate|]. intros _. exact Hf.
  - split; [|discriminate]. intros _.
    destruct (put_existing p
                (mkFile (UpdateImports.update_content unicode_alnum
                           (file_text g)) (w_clock w)) _ _ Hg)
      as (fs'' & Hput' & Hat & _).
    replace fs'' with fs' in Hat by congruence.
    eexists. split; [exact Hat|].
    apply update_content_no_cr, universal_newlines_no_cr.
Qed.

Lemma update_writes_line_feeds_witness :
  let w := world_of (project crlf_text plain plain plain) in
  file_at a_go
    (w_fs (snd (UpdateImports.update_imports_in_file no_unicode a_go w)))
  = Some (mkFile crlf_text 0).
Proof.
  cbv zeta.
  apply (proj2 (update_writes_line_feeds no_unicode a_go
                  (world_of (project crlf_text plain plain plain))
                  (mkFile crlf_text 0) ltac:(vm_compute; reflexivity))).
  vm_compute. reflexivity.
Defined.

End LineEndings.

(** ** An occurrence of [dot.] at a word boundary *)

Section OuterDot.

Import UpdateImports Examples.

Lemma rewrite_idents_boundary (unicode_alnum : char -> bool) (a b : str) :
  is_word_opt unicode_alnum (last_seen None a) = false ->
  rewrite_idents unicode_alnum (a ++ lit "dot." ++ b)
  = rewrite_idents unicode_alnum a ++ lit "domain."
    ++ scan (word_boundary unicode_alnum) (lit "dot.") (lit "domain.")
         (Some 46%N) b.
Proof.
  intros Hw. unfold rewrite_idents, re_sub_wb.
  rewrite (scan_app (word_boundary unicode_alnum) (lit "dot.")
             (lit "domain.") ltac:(discriminate) None a (lit "dot." ++ b))
    by (apply seam_before; side).
  f_equal.
  rewrite scan_hit; [reflexivity|discriminate|].
  cbn [hit lit map list_ascii_of_string app].
  rewrite UpdateImportsFacts.word_boundary_d, Hw. cbn [negb andb].
  apply (is_prefix_app (lit "dot.") b).
Qed.

(** X18: in a text that holds the new import path after the import
    replacement, an occurrence of [dot.] with no word character before it
    is exchanged for [domain.], whatever follows it (a file name such as
    [dot.go] included). *)
Theorem outer_dot_rewritten (unicode_alnum : char -> bool) (a b : str) :
  is_word_opt unicode_alnum (last_seen None a) = false ->
  contains new_marker (replace_import (a ++ lit "dot." ++ b)) = true ->
  update_content unicode_alnum (a ++ lit "dot." ++ b)
  = rewrite_idents unicode_alnum (replace_import a) ++ lit "domain."
    ++ scan (word_boundary unicode_alnum) (lit "dot.") (lit "domain.")
         (Some 46%N) (replace_import b).
Proof.
  intros Hw Hgate.
  rewrite UpdateImportsFacts.update_content_gate, Hgate.
  rewrite UpdateImportsFacts.replace_import_island.
  apply rewrite_idents_boundary.
  now rewrite UpdateImportsFacts.replace_import_last_seen.
Qed.

Lemma outer_dot_rewritten_witness :
  update_content no_unicode
    (old_import ++ lit " // see " ++ lit "dot." ++ lit "go")
  = new_import ++ lit " // see " ++ lit "domain." ++ lit "go".
Proof.
  pose proof (outer_dot_rewritten no_unicode
                (old_import ++ lit " // see ") (lit "go")
                ltac:(vm_compute; reflexivity)
                ltac:(vm_compute; reflexivity)) as H.
  rewrite <- app_assoc in H. rewrite H. vm_compute. reflexivity.
Defined.

End OuterDot.
